(** * EV range estimators: the arithmetic of [src/pages/Index.tsx]

    The repository holds two single-page calculators.  The first
    ("EV Range Estimator", schema A) keeps its form fields as strings and
    derives a range in km from state of charge, capacity and a chain of
    degradation factors.  The second ("EV Range Compass", schema B) keeps
    numbers and scales an EPA range in miles.

    JavaScript numbers are IEEE 754 binary64 values.  The functions of the
    source are written once, over an interface [JSNumber] of the operations
    they use, and read at two instances:
    - [Binary64]: Rocq's primitive floats, which are binary64 and evaluate;
    - [Ideal]: the real numbers, i.e. the same formulas without rounding and
      without NaN or infinities, used for order arguments on inputs for which
      no exceptional value arises. *)

From Stdlib Require Import Bool ZArith QArith List String.
From Stdlib Require Import Floats Reals Lra Lia Sorted.
Import ListNotations.

Set Warnings "-inexact-float".
Close Scope Q_scope.

(** ** The result of [Number.prototype.toFixed]

    [toFixed] returns a string.  It is kept here in parsed form: either the
    sign and the decimal digits, or the plain [String(x)] form that
    [toFixed] falls back to when [x] is not finite or is at least 1e21. *)
Inductive fixed (num : Type) : Type :=
| Digits (neg : bool) (n : Z) (f : nat)
| Plain (x : num).

Arguments Digits {num} neg n f.
Arguments Plain {num} x.

(** ** The operations on numbers that the source uses *)
Class JSNumber (num : Type) : Type := {
  lit : Q -> num;
  add : num -> num -> num;
  sub : num -> num -> num;
  mul : num -> num -> num;
  div : num -> num -> num;
  ltb : num -> num -> bool;
  isNaN : num -> bool;
  truthy : num -> bool;
  Math_sqrt : num -> num;
  Math_abs : num -> num;
  Math_max : num -> num -> num;
  toFixed : num -> nat -> fixed num
}.

Declare Scope js_scope.
Delimit Scope js_scope with js.
Notation "' q" := (lit q%Q) (at level 1, q at level 0, format "' q") : js_scope.
Infix "+" := add : js_scope.
Infix "-" := sub : js_scope.
Infix "*" := mul : js_scope.
Infix "/" := div : js_scope.
Infix "<?" := ltb : js_scope.
Notation "a >? b" := (ltb b a) (at level 70, no associativity) : js_scope.

(** [x ** 2] and [Math.pow(x, 2)]: the square, rounded once. *)
Definition pow2 {num} `{JSNumber num} (x : num) : num := mul x x.

(** [Number(s)] for a string produced by [toFixed]. *)
Definition Number_of_fixed {num} `{JSNumber num} (s : fixed num) : num :=
  match s with
  | Digits neg n f =>
      let v := lit (Qmake n (Z.to_pos (10 ^ Z.of_nat f))) in
      if neg then sub (lit 0) v else v
  | Plain x => x
  end.

(** ** Schema A: "EV Range Estimator" (the first component [Index]) *)
Module SchemaA.

(** The seven strings that [calculateRange] returns. *)
Module Stats.
Record t (num : Type) : Type := mk {
  range : fixed num;
  effectiveCapacity : fixed num;
  cycleDegradation : fixed num;
  calendarDegradation : fixed num;
  totalDegradation : fixed num;
  tempFactor : fixed num;
  energyConsumption : fixed num
}.
Arguments mk {num}.
Arguments range {num}.
Arguments effectiveCapacity {num}.
Arguments cycleDegradation {num}.
Arguments calendarDegradation {num}.
Arguments totalDegradation {num}.
Arguments tempFactor {num}.
Arguments energyConsumption {num}.
End Stats.

Section Engine.
Context {num : Type} `{JSNumber num}.
Local Open Scope js_scope.

(** A form field is a string of React state.  The code asks two things of
    it: whether it is the empty string, and what [Number(...)] makes of it.
    [Text n] stands for a non-empty string [s] with [Number(s) = n]; [n] is
    NaN when [s] is not the text of a number. *)
Inductive field : Type :=
| Empty
| Text (n : num).

(** [val === ''] *)
Definition isEmptyString (val : field) : bool :=
  match val with
  | Empty => true
  | Text _ => false
  end.

Definition Number (val : field) : num :=
  match val with
  | Empty => '0
  | Text n => n
  end.

Record state : Type := mkState {
  soc : field;
  batteryCapacity : field;
  drivingConsumption : field;
  showAdvanced : bool;
  temperature : field;
  baseEfficiency : field;
  chargingDegradation : field;
  batteryAgeCycles : field;
  batteryAgeYears : field;
  terrainFactor : field;
  climateControl : bool;
  climateFactor : field;
  regenBraking : bool;
  regenFactor : field;
  predictedRange : option (fixed num);
  calculationTriggered : bool
}.

Record defaults : Type := mkDefaults {
  consumption : num;
  defaultTerrainFactor : num
}.

Definition getDynamicDefaults (capacity : num) : defaults :=
  {| consumption :=
       if capacity >? '75 then '18 else if capacity <? '40 then '14 else '16;
     defaultTerrainFactor :=
       if capacity >? '75 then '1.05 else '1.0 |}.

(** The local constants of [calculateRange], one definition per [const]. *)
Definition cycleDegradation (batteryAgeCycles : num) : num :=
  '0.0001 * batteryAgeCycles + '0.00000002 * pow2 batteryAgeCycles.

Definition calendarDegradation (batteryAgeYears : num) : num :=
  '0.02 * Math_sqrt batteryAgeYears.

Definition degradation (batteryAgeCycles batteryAgeYears : num) : num :=
  Math_max '0.7
    ('1 - (cycleDegradation batteryAgeCycles + calendarDegradation batteryAgeYears)).

Definition tempFactor (temperature : num) : num :=
  Math_max '0.7 ('1.0 - '0.005 * Math_abs (temperature - '25)).

Definition effectiveCapacity
  (soc batteryCapacity temperature baseEfficiency chargingDegradation
   batteryAgeCycles batteryAgeYears : num)
  (climateControl : bool) (climateFactor : num)
  (regenBraking : bool) (regenFactor : num) : num :=
  let effectiveClimateFactor := if climateControl then climateFactor else '1.0 in
  let effectiveRegenFactor := if regenBraking then regenFactor else '1.0 in
  batteryCapacity * (soc / '100) * degradation batteryAgeCycles batteryAgeYears
  * baseEfficiency * chargingDegradation * tempFactor temperature
  * effectiveClimateFactor * effectiveRegenFactor.

Definition energyConsumption (drivingConsumption terrainFactor : num) : num :=
  drivingConsumption * terrainFactor.

(** [const range] of [calculateRange], before [Math.max] and [toFixed]. *)
Definition rawRange
  (soc batteryCapacity drivingConsumption temperature baseEfficiency
   chargingDegradation batteryAgeCycles batteryAgeYears terrainFactor : num)
  (climateControl : bool) (climateFactor : num)
  (regenBraking : bool) (regenFactor : num) : num :=
  effectiveCapacity soc batteryCapacity temperature baseEfficiency
    chargingDegradation batteryAgeCycles batteryAgeYears
    climateControl climateFactor regenBraking regenFactor
  / energyConsumption drivingConsumption terrainFactor * '100.

Definition calculateRange
  (soc batteryCapacity drivingConsumption temperature baseEfficiency
   chargingDegradation batteryAgeCycles batteryAgeYears terrainFactor : num)
  (climateControl : bool) (climateFactor : num)
  (regenBraking : bool) (regenFactor : num) : Stats.t num :=
  let range :=
    rawRange soc batteryCapacity drivingConsumption temperature baseEfficiency
      chargingDegradation batteryAgeCycles batteryAgeYears terrainFactor
      climateControl climateFactor regenBraking regenFactor in
  Stats.mk
    (toFixed (Math_max '0 range) 1)
    (toFixed
       (effectiveCapacity soc batteryCapacity temperature baseEfficiency
          chargingDegradation batteryAgeCycles batteryAgeYears
          climateControl climateFactor regenBraking regenFactor) 2)
    (toFixed (cycleDegradation batteryAgeCycles * '100) 2)
    (toFixed (calendarDegradation batteryAgeYears * '100) 2)
    (toFixed (('1 - degradation batteryAgeCycles batteryAgeYears) * '100) 2)
    (toFixed (tempFactor temperature) 3)
    (toFixed (energyConsumption drivingConsumption terrainFactor) 2).

(** [const requiredFields] of [validateInputs]. *)
Definition requiredFields (st : state) : list field :=
  if showAdvanced st
  then [soc st; batteryCapacity st; drivingConsumption st; temperature st;
        baseEfficiency st; chargingDegradation st; batteryAgeCycles st;
        batteryAgeYears st; terrainFactor st; climateFactor st; regenFactor st]
  else [soc st; batteryCapacity st; drivingConsumption st].

Definition validateInputs (st : state) : bool :=
  forallb (fun val => negb (isEmptyString val) && negb (isNaN (Number val)))
    (requiredFields st).

Record breakdown : Type := mkBreakdown {
  driving : fixed num;
  climate : fixed num;
  other : fixed num
}.

(** What [calculateStats] returns: the spread [...stats], the table
    [rangeSensitivity] of [{soc, range}] entries, and [consumptionBreakdown]. *)
Record result : Type := mkResult {
  stats : Stats.t num;
  rangeSensitivity : list (num * fixed num);
  consumptionBreakdown : breakdown
}.

Definition socValues : list num := ['10; '30; '50; '70; '90].

(** [calculateRange] at a given state of charge with the arguments that
    [calculateStats] passes, twice over in the source: once for [stats] and
    once per entry of [socValues]. *)
Definition rangeAt (st : state) (s : num) : Stats.t num :=
  let d := getDynamicDefaults (Number (batteryCapacity st)) in
  calculateRange
    s (Number (batteryCapacity st))
    (if showAdvanced st then Number (drivingConsumption st) else consumption d)
    (if showAdvanced st then Number (temperature st) else '25)
    (if showAdvanced st then Number (baseEfficiency st) else '0.98)
    (if showAdvanced st then Number (chargingDegradation st) else '0.98)
    (if showAdvanced st then Number (batteryAgeCycles st) else '100)
    (if showAdvanced st then Number (batteryAgeYears st) else '2)
    (if showAdvanced st then Number (terrainFactor st) else defaultTerrainFactor d)
    (if showAdvanced st then climateControl st else false)
    (if showAdvanced st then Number (climateFactor st) else '0.85)
    (if showAdvanced st then regenBraking st else true)
    (if showAdvanced st then Number (regenFactor st) else '1.05).

Definition calculateStats (st : state) : result :=
  let stats := rangeAt st (Number (soc st)) in
  let rangeSensitivity :=
    map (fun s => (s, Stats.range (rangeAt st s))) socValues in
  let driving :=
    toFixed (Number (drivingConsumption st) * Number (terrainFactor st)) 2 in
  let climate :=
    if climateControl st
    then toFixed
           (Number (drivingConsumption st) * ('1 - Number (climateFactor st))) 2
    else Digits false 0 2 in
  let other := toFixed (Number (drivingConsumption st) * '0.1) 2 in
  mkResult stats rangeSensitivity (mkBreakdown driving climate other).

Definition setSoc (v : field) (st : state) : state :=
  mkState v (batteryCapacity st) (drivingConsumption st)
    (showAdvanced st) (temperature st) (baseEfficiency st)
    (chargingDegradation st) (batteryAgeCycles st) (batteryAgeYears st)
    (terrainFactor st) (climateControl st) (climateFactor st)
    (regenBraking st) (regenFactor st) (predictedRange st)
    (calculationTriggered st).

Definition setDrivingConsumption (v : field) (st : state) : state :=
  mkState (soc st) (batteryCapacity st) v
    (showAdvanced st) (temperature st) (baseEfficiency st)
    (chargingDegradation st) (batteryAgeCycles st) (batteryAgeYears st)
    (terrainFactor st) (climateControl st) (climateFactor st)
    (regenBraking st) (regenFactor st) (predictedRange st)
    (calculationTriggered st).

Definition setPredictedRange (v : option (fixed num)) (st : state) : state :=
  mkState (soc st) (batteryCapacity st) (drivingConsumption st)
    (showAdvanced st) (temperature st) (baseEfficiency st)
    (chargingDegradation st) (batteryAgeCycles st) (batteryAgeYears st)
    (terrainFactor st) (climateControl st) (climateFactor st)
    (regenBraking st) (regenFactor st) v (calculationTriggered st).

Definition setCalculationTriggered (b : bool) (st : state) : state :=
  mkState (soc st) (batteryCapacity st) (drivingConsumption st)
    (showAdvanced st) (temperature st) (baseEfficiency st)
    (chargingDegradation st) (batteryAgeCycles st) (batteryAgeYears st)
    (terrainFactor st) (climateControl st) (climateFactor st)
    (regenBraking st) (regenFactor st) (predictedRange st) b.

(** The body of the debounced handler in the recompute effect. *)
Definition handler (st : state) : state :=
  if validateInputs st
  then setPredictedRange (Some (Stats.range (stats (calculateStats st)))) st
  else setPredictedRange None st.

(** The effect that runs when a field changes: nothing before the first
    click on "Calculate Range", the handler (after its delay) from then on. *)
Definition recomputeEffect (st : state) : state :=
  if negb (calculationTriggered st) then st else handler st.

(** [handleCalculate]; the toasts are not part of the state. *)
Definition handleCalculate (st : state) : state :=
  let st' := setCalculationTriggered true st in
  if validateInputs st
  then setPredictedRange (Some (Stats.range (stats (calculateStats st)))) st'
  else st'.

End Engine.

Arguments field num : clear implicits.
Arguments state num : clear implicits.
Arguments result num : clear implicits.
Arguments breakdown num : clear implicits.
Arguments defaults num : clear implicits.
Arguments Empty {num}.

End SchemaA.

(** ** Schema B: "EV Range Compass" (the second component [Index]) *)
Module SchemaB.

Inductive ClimateUsage : Type := Low | Medium | High.
Inductive TerrainType : Type := Flat | Hilly | Mountain.

Module Factors.
Record t (num : Type) : Type := mk {
  temperature : num;
  speed : num;
  climate : num;
  terrain : num
}.
Arguments mk {num}.
Arguments temperature {num}.
Arguments speed {num}.
Arguments climate {num}.
Arguments terrain {num}.
End Factors.

Section Engine.
Context {num : Type} `{JSNumber num}.
Local Open Scope js_scope.

Record state : Type := mkState {
  batteryCapacity : num;
  epaRange : num;
  currentCharge : num;
  temperature : num;
  avgSpeed : num;
  climateUsage : ClimateUsage;
  terrainType : TerrainType;
  estimatedRange : num;
  efficiency : num;
  factors : Factors.t num
}.

(** The local constants of the effect, one definition per [const] or [let]. *)
Definition temperatureFactor (temperature : num) : num :=
  '1 - (Math_abs (temperature - '70) * '0.015).

Definition speedFactor (avgSpeed : num) : num :=
  '1 - (pow2 (Math_max '0 (avgSpeed - '25)) * '0.0008).

Definition climateFactor (climateUsage : ClimateUsage) : num :=
  match climateUsage with
  | Low => '0.95
  | Medium => '0.85
  | High => '0.75
  end.

Definition terrainFactor (terrainType : TerrainType) : num :=
  match terrainType with
  | Hilly => '0.9
  | Mountain => '0.8
  | _ => '1
  end.

Definition newEstimatedRange (st : state) : num :=
  epaRange st * (currentCharge st / '100) * temperatureFactor (temperature st)
  * speedFactor (avgSpeed st) * climateFactor (climateUsage st)
  * terrainFactor (terrainType st).

(** The divisor of the efficiency, [batteryCapacity * (currentCharge / 100)]. *)
Definition usableEnergy (st : state) : num :=
  batteryCapacity st * (currentCharge st / '100).

Definition newEfficiency (st : state) : num :=
  if truthy (batteryCapacity st)
  then newEstimatedRange st / usableEnergy st
  else '0.

(** The effect: [setFactors], [setEstimatedRange], [setEfficiency]. *)
Definition rangeEffect (st : state) : state :=
  mkState (batteryCapacity st) (epaRange st) (currentCharge st)
    (temperature st) (avgSpeed st) (climateUsage st) (terrainType st)
    (newEstimatedRange st) (newEfficiency st)
    (Factors.mk (temperatureFactor (temperature st)) (speedFactor (avgSpeed st))
       (climateFactor (climateUsage st)) (terrainFactor (terrainType st))).

(** The state of the first render: the [useState] initial values. *)
Definition initial : state :=
  mkState '75 '330 '80 '70 '65 Medium Flat '0 '0 (Factors.mk '1 '1 '1 '1).

End Engine.

Arguments state num : clear implicits.

End SchemaB.

(** ** The binary64 reading: JavaScript's own numbers *)
Module Binary64.
Local Open Scope float_scope.

(** The binary64 value nearest to an integer. *)
Definition of_Z (z : Z) : float := SF2Prim (binary_normalize prec emax z 0 false).

(** A decimal literal [n / d] of the source text: numerator and denominator
    are small integers, exact in binary64, so one division rounds once. *)
Definition literal (q : Q) : float := of_Z (Qnum q) / of_Z (Zpos (Qden q)).

(** [Math.max(a, b)]: NaN if either is, and [+0] above [-0]. *)
Definition max (a b : float) : float :=
  if is_nan a || is_nan b then nan
  else if a <? b then b
  else if b <? a then a
  else if get_sign a then b else a.

(** [ToBoolean]: [0], [-0] and NaN are falsy. *)
Definition toBoolean (x : float) : bool := negb (is_zero x || is_nan x).

(** The integer nearest to [|x| * 10^f], the larger one on a tie, for the
    exact value [m * 2^e] of [x]. *)
Definition nearest (x : spec_float) (f : nat) : Z :=
  match x with
  | S754_finite _ m e =>
      let p := (Zpos m * 10 ^ Z.of_nat f)%Z in
      if (0 <=? e)%Z then (p * 2 ^ e)%Z
      else ((2 * p + 2 ^ (- e)) / 2 ^ (1 - e))%Z
  | _ => 0%Z
  end.

Definition toFixed (x : float) (f : nat) : fixed float :=
  if is_nan x || is_infinity x then Plain x
  else if 1e21 <=? abs x then Plain x
  else Digits (x <? 0) (nearest (Prim2SF (abs x)) f) f.

(** The string is "NaN". *)
Definition isNaNText (s : fixed float) : bool :=
  match s with
  | Plain x => is_nan x
  | Digits _ _ _ => false
  end.

(** The string has no minus sign and is not "NaN": digits without a sign,
    or the plain form of a positive number. *)
Definition nonNegativeText (s : fixed float) : bool :=
  match s with
  | Digits neg n _ => negb neg && (0 <=? n)%Z
  | Plain x => 0 <? x
  end.

#[global] Instance number : JSNumber float :=
  Build_JSNumber float literal PrimFloat.add PrimFloat.sub PrimFloat.mul
    PrimFloat.div PrimFloat.ltb is_nan toBoolean PrimFloat.sqrt PrimFloat.abs
    max toFixed.

End Binary64.

(** ** The ideal reading: the same formulas over the real numbers *)
Module Ideal.
Local Open Scope R_scope.

Definition ltb (a b : R) : bool := if Rlt_dec a b then true else false.

Definition toBoolean (x : R) : bool := if Req_dec_T x 0 then false else true.

(** The integer nearest to [y], the larger one on a tie. *)
Definition nearest (y : R) : Z := Int_part (y + / 2).

Definition toFixed (x : R) (f : nat) : fixed R :=
  if Rle_dec (10 ^ 21) (Rabs x) then Plain x
  else Digits (ltb x 0) (nearest (Rabs x * 10 ^ f)) f.

#[global] Instance number : JSNumber R :=
  Build_JSNumber R Q2R Rplus Rminus Rmult Rdiv ltb (fun _ => false) toBoolean
    sqrt Rabs Rmax toFixed.

End Ideal.


(** ** The reference formula of the specification (section 4.1)

    Written from the nine steps of the specification, over a parameter
    record with the specification's field names. *)
Module Reference.
Section Steps.
Context {num : Type} `{JSNumber num}.
Local Open Scope js_scope.

Record InputParameters : Type := mkInput {
  stateOfCharge : num;
  batteryCapacityKWh : num;
  drivingConsumptionKWhPer100km : num;
  temperatureC : num;
  baseEfficiency : num;
  chargingDegradation : num;
  batteryAgeCycles : num;
  batteryAgeYears : num;
  terrainFactor : num;
  climateControlEnabled : bool;
  climateFactor : num;
  regenBrakingEnabled : bool;
  regenFactor : num
}.

Definition step1_cycleDegradation (p : InputParameters) : num :=
  '0.0001 * batteryAgeCycles p
  + '0.00000002 * (batteryAgeCycles p * batteryAgeCycles p).

Definition step2_calendarDegradation (p : InputParameters) : num :=
  '0.02 * Math_sqrt (batteryAgeYears p).

Definition step3_degradation (p : InputParameters) : num :=
  Math_max '0.7 ('1 - (step1_cycleDegradation p + step2_calendarDegradation p)).

Definition step4_tempFactor (p : InputParameters) : num :=
  Math_max '0.7 ('1 - '0.005 * Math_abs (temperatureC p - '25)).

Definition step5_climateFactor_eff (p : InputParameters) : num :=
  if climateControlEnabled p then climateFactor p else '1.0.

Definition step6_regenFactor_eff (p : InputParameters) : num :=
  if regenBrakingEnabled p then regenFactor p else '1.0.

Definition step7_effectiveCapacity (p : InputParameters) : num :=
  batteryCapacityKWh p * (stateOfCharge p / '100) * step3_degradation p
  * baseEfficiency p * chargingDegradation p * step4_tempFactor p
  * step5_climateFactor_eff p * step6_regenFactor_eff p.

Definition step8_energyConsumption (p : InputParameters) : num :=
  drivingConsumptionKWhPer100km p * terrainFactor p.

Definition step9_range (p : InputParameters) : num :=
  Math_max '0 (step7_effectiveCapacity p / step8_energyConsumption p * '100).

(** "Return: range (1 decimal), effectiveCapacity (2 decimals), ... " *)
Definition computeRange (p : InputParameters) : SchemaA.Stats.t num :=
  SchemaA.Stats.mk
    (toFixed (step9_range p) 1)
    (toFixed (step7_effectiveCapacity p) 2)
    (toFixed (step1_cycleDegradation p * '100) 2)
    (toFixed (step2_calendarDegradation p * '100) 2)
    (toFixed (('1 - step3_degradation p) * '100) 2)
    (toFixed (step4_tempFactor p) 3)
    (toFixed (step8_energyConsumption p) 2).

End Steps.
Arguments InputParameters num : clear implicits.
End Reference.

(** ** The inputs of the two forms *)

(** [NumericInput] of the first component: the text box keeps its own
    string and hands a value to [onChange] only when it is committed (on
    blur or Enter). *)
Module NumericInputA.
Section Commit.
Context {num : Type} `{JSNumber num}.
Local Open Scope js_scope.

(** The string in the text box at commit time: one of '', '-', '.', '-.',
    or any other string [s], kept as [Number(s)] (NaN when [s] is no
    number). *)
Inductive internalValue : Type :=
| Blank
| Typed (n : num).

(** The call that [commitValue] makes: [onChange('')] or
    [onChange(String(num))]. *)
Inductive committed : Type :=
| Cleared
| Committed (n : num).

Definition commitValue (min max : option num) (val : internalValue) : committed :=
  match val with
  | Blank => Cleared
  | Typed n =>
      let num := n in
      let num :=
        match min with
        | Some lo => if num <? lo then lo else num
        | None => num
        end in
      let num :=
        match max with
        | Some hi => if num >? hi then hi else num
        | None => num
        end in
      Committed num
  end.

(** The text box shows what was committed; committing it again without
    typing reads that value back. *)
Definition shownAgain (c : committed) : internalValue :=
  match c with
  | Cleared => Blank
  | Committed n => Typed n
  end.

End Commit.
Arguments internalValue num : clear implicits.
Arguments committed num : clear implicits.
Arguments Blank {num}.
Arguments Cleared {num}.
End NumericInputA.

(** [Math.round], which only the second component uses. *)
Class JSRound (num : Type) : Type := {
  Math_round : num -> num
}.

(** [Math.round] in binary64: the integer nearest to the exact value, the
    one towards plus infinity on a tie, with the sign of a zero result taken
    from the argument; integers, zeros, infinities and NaN are returned as
    they are. *)
Definition round_binary64 (x : float) : float :=
  match Prim2SF x with
  | S754_finite s m e =>
      if (0 <=? e)%Z then x
      else
        let v := if s then Z.neg m else Z.pos m in
        let n := ((2 * v + 2 ^ (- e)) / 2 ^ (1 - e))%Z in
        if (n =? 0)%Z then (if s then (-0)%float else 0%float)
        else Binary64.of_Z n
  | _ => x
  end.

#[global] Instance round_float : JSRound float := Build_JSRound float round_binary64.

(** The second component: its [NumericInput], the setters of its inputs and
    what it renders from the state. *)
Module DisplayB.
Import SchemaB.

(** The text of the input on a change event: the empty string, or a
    non-empty string kept as what [parseFloat] makes of it. *)
Inductive targetValue : Type :=
| EmptyText
| SomeText (parsed : float).

Definition parseFloat (value : targetValue) : float :=
  match value with
  | EmptyText => nan
  | SomeText parsed => parsed
  end.

(** [handleChange]: the argument of the call to [onChange], if one is made. *)
Definition handleChange (value : targetValue) : option float :=
  let parsedValue := parseFloat value in
  if negb (is_nan parsedValue) then Some parsedValue
  else
    match value with
    | EmptyText => Some 0%float
    | SomeText _ => None
    end.

Section Render.
Context {num : Type} `{JSNumber num} `{JSRound num}.
Local Open Scope js_scope.

Definition setBatteryCapacity (v : num) (st : state num) : state num :=
  mkState v (epaRange st) (currentCharge st) (temperature st) (avgSpeed st)
    (climateUsage st) (terrainType st) (estimatedRange st) (efficiency st)
    (factors st).

Definition setCurrentCharge (v : num) (st : state num) : state num :=
  mkState (batteryCapacity st) (epaRange st) v (temperature st) (avgSpeed st)
    (climateUsage st) (terrainType st) (estimatedRange st) (efficiency st)
    (factors st).

(** A change event on the current-charge input, followed by the effect that
    the change of state triggers. *)
Definition applyChange (set : num -> state num -> state num)
  (delivered : option num) (st : state num) : state num :=
  match delivered with
  | Some v => rangeEffect (set v st)
  | None => st
  end.

(** "10 F colder", "+10 mph faster" and "High climate use": the number
    rendered in each row of the sensitivity panel. *)
Definition colderFactor (st : state num) : num :=
  Math_max '0.4 ('1 - (Math_abs ((temperature st - '10) - '70) * '0.015)).

Definition fasterFactor (st : state num) : num :=
  Math_max '0.4
    ('1 - (pow2 (Math_max '0 ((avgSpeed st + '10) - '25)) * '0.0008)).

Definition colderMiles (st : state num) : num :=
  Math_round
    (epaRange st * (currentCharge st / '100) * Factors.speed (factors st)
     * Factors.climate (factors st) * Factors.terrain (factors st)
     * colderFactor st).

Definition fasterMiles (st : state num) : num :=
  Math_round
    (epaRange st * (currentCharge st / '100) * Factors.temperature (factors st)
     * Factors.climate (factors st) * Factors.terrain (factors st)
     * fasterFactor st).

Definition highClimateMiles (st : state num) : num :=
  Math_round
    (epaRange st * (currentCharge st / '100) * Factors.temperature (factors st)
     * Factors.speed (factors st) * Factors.terrain (factors st) * '0.75).

(** The headline number, [Math.round(estimatedRange)]. *)
Definition shownRange (st : state num) : num := Math_round (estimatedRange st).

(** The two core metrics: [Math.round(efficiency * 10) / 10] and
    [Math.round((estimatedRange / epaRange) * 100)]. *)
Definition shownEfficiency (st : state num) : num :=
  Math_round (efficiency st * '10) / '10.

Definition shownVersusEPA (st : state num) : num :=
  Math_round ((estimatedRange st / epaRange st) * '100).

(** "N% reduction" and the colour class beside it. *)
Inductive severity : Type := Destructive | Yellow | Green.

Definition reductionPercent (factor : num) : num :=
  Math_round (('1 - factor) * '100).

Definition severityOf (factor : num) : severity :=
  if factor <? '0.9 then Destructive
  else if factor <? '0.95 then Yellow
  else Green.

End Render.
End DisplayB.

(** Reading the operations of [JSNumber] at one instance. *)
Ltac js_float :=
  cbn [lit add sub mul div ltb isNaN truthy Math_sqrt Math_abs Math_max
       toFixed Binary64.number].

Ltac js_real :=
  cbn [lit add sub mul div ltb isNaN truthy Math_sqrt Math_abs Math_max
       toFixed Ideal.number].

(** The literals of the source as real constants. *)
Ltac real_literals := unfold Q2R; cbn [Qnum Qden].

(** ** Facts about binary64 values *)
Module Binary64Facts.
Import Binary64.
Local Open Scope float_scope.

Lemma SFcompare_refl (s : spec_float) :
  s <> S754_nan -> SFcompare s s = Some Eq.
Proof.
  destruct s as [b | b | | b m e]; intros Hs; try congruence; simpl.
  - reflexivity.
  - destruct b; reflexivity.
  - rewrite Z.compare_refl, Pos.compare_cont_refl. destruct b; reflexivity.
Qed.

Lemma is_nan_spec (x : float) : is_nan x = true <-> Prim2SF x = S754_nan.
Proof.
  unfold is_nan. rewrite FloatAxioms.eqb_spec. unfold SFeqb. split.
  - intros Hn. destruct (Prim2SF x) eqn:E; auto;
      rewrite SFcompare_refl in Hn by congruence; discriminate.
  - intros ->. reflexivity.
Qed.

Lemma Prim2SF_zero : Prim2SF zero = S754_zero false.
Proof. reflexivity. Qed.

Lemma is_zero_spec (x : float) :
  is_zero x = true <-> exists s, Prim2SF x = S754_zero s.
Proof.
  unfold is_zero. rewrite FloatAxioms.eqb_spec, Prim2SF_zero. unfold SFeqb.
  split.
  - destruct (Prim2SF x) as [b | b | | b m e]; simpl; try discriminate.
    + eauto.
    + destruct b; discriminate.
    + destruct b; discriminate.
  - intros [s ->]. reflexivity.
Qed.

(** A value that is [0], [-0] or NaN. *)
Definition zero_or_nan (s : spec_float) : Prop :=
  s = S754_nan \/ exists b, s = S754_zero b.

Lemma mul_zero_or_nan_l (x y : float) :
  zero_or_nan (Prim2SF x) -> zero_or_nan (Prim2SF (x * y)).
Proof.
  rewrite mul_spec. unfold SF64mul, SFmul, zero_or_nan.
  intros [-> | [b ->]]; [now left |].
  destruct (Prim2SF y); eauto.
Qed.

Lemma mul_zero_or_nan_r (x y : float) :
  zero_or_nan (Prim2SF y) -> zero_or_nan (Prim2SF (x * y)).
Proof.
  rewrite mul_spec. unfold SF64mul, SFmul, zero_or_nan.
  intros [-> | [b ->]]; destruct (Prim2SF x); eauto.
Qed.

Lemma Prim2SF_100 : exists m e, Prim2SF 100 = S754_finite false m e.
Proof. do 2 eexists. reflexivity. Qed.

(** [x / 100] is a zero when [x] is. *)
Lemma zero_div_100 (x : float) :
  is_zero x = true -> exists b, Prim2SF (x / 100) = S754_zero b.
Proof.
  rewrite is_zero_spec, div_spec. intros [s ->].
  destruct Prim2SF_100 as (m & e & ->). simpl. eauto.
Qed.

(** A positive finite value. *)
Lemma positive_finite_spec (x : float) :
  (0 <? x) = true -> (x <? infinity) = true ->
  exists m e, Prim2SF x = S754_finite false m e.
Proof.
  rewrite !ltb_spec. change (Prim2SF 0) with (S754_zero false).
  change (Prim2SF infinity) with (S754_infinity false). unfold SFltb.
  destruct (Prim2SF x) as [b | b | | b m e]; simpl; try discriminate.
  - destruct b; discriminate.
  - destruct b; try discriminate. eauto.
Qed.

Lemma finite_mul_zero (x y : float) m e :
  Prim2SF x = S754_finite false m e ->
  (exists b, Prim2SF y = S754_zero b) ->
  exists b, Prim2SF (x * y) = S754_zero b.
Proof.
  intros Hx [b Hy]. rewrite mul_spec, Hx, Hy. simpl. eauto.
Qed.

Lemma zero_or_nan_div_zero (x y : float) :
  zero_or_nan (Prim2SF x) -> (exists b, Prim2SF y = S754_zero b) ->
  is_nan (x / y) = true.
Proof.
  intros Hx [b Hy]. rewrite is_nan_spec, div_spec, Hy.
  destruct Hx as [-> | [c ->]]; reflexivity.
Qed.

Lemma toBoolean_positive (x : float) : (0 <? x) = true -> toBoolean x = true.
Proof.
  intros Hx. unfold toBoolean.
  destruct (is_zero x) eqn:Hz.
  - apply is_zero_spec in Hz. destruct Hz as [s Hs].
    rewrite ltb_spec, Hs in Hx. discriminate.
  - destruct (is_nan x) eqn:Hn; [| reflexivity].
    apply is_nan_spec in Hn. rewrite ltb_spec, Hn in Hx. discriminate.
Qed.

(** Below 40 is not above 75. *)
Lemma ltb_40_not_gtb_75 (x : float) : (x <? 40) = true -> (75 <? x) = false.
Proof.
  rewrite !ltb_spec.
  let v := eval vm_compute in (Prim2SF 40) in change (Prim2SF 40) with v.
  let v := eval vm_compute in (Prim2SF 75) in change (Prim2SF 75) with v.
  unfold SFltb, SFcompare.
  destruct (Prim2SF x) as [b | b | | b m e]; try reflexivity.
  - destruct b; [reflexivity | discriminate].
  - destruct b; [reflexivity |].
    destruct (Z.compare_spec e (-47)), (Z.compare_spec (-46) e);
      try lia; try discriminate; reflexivity.
Qed.

Lemma ltb_leb (x y : float) : (x <? y) = true -> (x <=? y) = true.
Proof.
  rewrite ltb_spec, leb_spec. unfold SFltb, SFleb.
  destruct (SFcompare _ _) as [[ | | ] |]; congruence.
Qed.

Lemma leb_refl (x : float) : is_nan x = false -> (x <=? x) = true.
Proof.
  intros Hn. rewrite leb_spec. unfold SFleb.
  rewrite SFcompare_refl; [reflexivity |].
  intros E. apply is_nan_spec in E. congruence.
Qed.

Lemma ltb_irrefl (x : float) : (x <? x) = false.
Proof.
  rewrite ltb_spec. unfold SFltb.
  destruct (Prim2SF x) eqn:E; try reflexivity;
    rewrite SFcompare_refl by congruence; reflexivity.
Qed.

(** Above zero is not below zero. *)
Lemma gtb_0_not_ltb_0 (x : float) : (0 <? x) = true -> (x <? 0) = false.
Proof.
  rewrite !ltb_spec. change (Prim2SF 0) with (S754_zero false).
  unfold SFltb, SFcompare.
  destruct (Prim2SF x) as [b | b | | b m e]; try reflexivity;
    destruct b; try reflexivity; discriminate.
Qed.

Lemma nearest_nonneg (x : spec_float) (f : nat) : (0 <= Binary64.nearest x f)%Z.
Proof.
  destruct x as [b | b | | b m e]; unfold Binary64.nearest; try lia.
  assert (Hp : (0 <= Z.pos m * 10 ^ Z.of_nat f)%Z).
  { apply Z.mul_nonneg_nonneg; [lia | apply Z.pow_nonneg; lia]. }
  cbv zeta. destruct (Z.leb_spec 0 e).
  - apply Z.mul_nonneg_nonneg; [exact Hp | apply Z.pow_nonneg; lia].
  - apply Z.div_pos.
    + assert (0 <= 2 ^ (- e))%Z by (apply Z.pow_nonneg; lia). lia.
    + apply Z.pow_pos_nonneg; lia.
Qed.

(** What [Math.max(a, y)] is, for a number [a] that is not [-0]. *)
Lemma max_cases (a y : float) :
  is_nan a = false -> get_sign a = false ->
  (Binary64.max a y = nan /\ is_nan y = true)
  \/ (Binary64.max a y = y /\ (a <? y) = true)
  \/ (Binary64.max a y = a /\ is_nan y = false /\ (a <? y) = false).
Proof.
  intros Ha Hs. unfold Binary64.max. rewrite Ha, Hs. simpl.
  destruct (is_nan y); [now left | right].
  destruct (a <? y); [now left | right].
  destruct (y <? a); auto.
Qed.

Lemma SFcompare_antisym (s1 s2 : spec_float) :
  SFcompare s2 s1 = option_map CompOpp (SFcompare s1 s2).
Proof.
  unfold SFcompare.
  destruct s1 as [b | b | | b m e], s2 as [c | c | | c n k];
    try reflexivity; try (destruct b; reflexivity);
    try (destruct c; reflexivity); try (destruct b, c; reflexivity).
  cbn [option_map]. f_equal.
  rewrite (Z.compare_antisym e k).
  destruct b, c; try reflexivity;
    destruct (e ?= k)%Z; try reflexivity; cbn [CompOpp].
  - f_equal. symmetry. exact (Pos.compare_cont_antisym m n Eq).
  - symmetry. exact (Pos.compare_cont_antisym m n Eq).
Qed.

Lemma ltb_asym (x y : float) : (x <? y) = true -> (y <? x) = false.
Proof.
  rewrite !ltb_spec. unfold SFltb. rewrite (SFcompare_antisym (Prim2SF x)).
  destruct (SFcompare (Prim2SF x) (Prim2SF y)) as [[ | | ] |];
    try discriminate; reflexivity.
Qed.

Lemma max_lower_bound (a y : float) :
  is_nan a = false -> get_sign a = false ->
  (Binary64.max a y <? a) = false
  /\ (is_nan (Binary64.max a y) = true \/ (a <=? Binary64.max a y) = true).
Proof.
  intros Ha Hs.
  destruct (max_cases a y Ha Hs) as [[-> Hy] | [[-> Hy] | [-> [Hy Hlt]]]].
  - split; [| now left].
    rewrite ltb_spec. reflexivity.
  - split; [now apply ltb_asym | right; now apply ltb_leb].
  - split; [apply ltb_irrefl | right; now apply leb_refl].
Qed.

(** [Math.max(0, y).toFixed(f)] is "NaN" or has no minus sign. *)
Lemma toFixed_max_0 (y : float) (f : nat) :
  Binary64.isNaNText (Binary64.toFixed (Binary64.max 0 y) f) = true
  \/ Binary64.nonNegativeText (Binary64.toFixed (Binary64.max 0 y) f) = true.
Proof.
  destruct (max_cases 0 y eq_refl eq_refl) as [[-> Hy] | [[-> Hy] | [-> [Hy Hlt]]]].
  - left. reflexivity.
  - right. unfold Binary64.toFixed.
    destruct (is_nan y || is_infinity y); [exact Hy |].
    destruct (1e21 <=? abs y)%float; [exact Hy |].
    cbn [Binary64.nonNegativeText].
    rewrite (gtb_0_not_ltb_0 _ Hy). simpl.
    apply Z.leb_le, nearest_nonneg.
  - right. reflexivity.
Qed.

End Binary64Facts.

(** ** Rounding to binary64

    The operations of [PrimFloat] are specified by the functions of
    [SpecFloat].  This part derives from those definitions what a rounded
    product, quotient or difference is: the nearest multiple of the last
    place of the exact result, and therefore monotone. *)
Module Rounding.
Local Open Scope Z_scope.

Lemma fexp_eq (e : Z) : fexp prec emax e = Z.max (e - 53) (-1074).
Proof. reflexivity. Qed.

Lemma iter_pos_nat {A : Type} (f : A -> A) (p : positive) (x : A) :
  SpecFloat.iter_pos f p x = Nat.iter (Pos.to_nat p) f x.
Proof.
  revert x. induction p as [p IH | p IH |]; intros x.
  - cbn [SpecFloat.iter_pos]. rewrite !IH, Pos2Nat.inj_xI.
    replace (S (2 * Pos.to_nat p)) with (Pos.to_nat p + S (Pos.to_nat p))%nat by lia.
    rewrite Nat.iter_add. f_equal. now rewrite Nat.iter_succ_r.
  - cbn [SpecFloat.iter_pos]. rewrite !IH, Pos2Nat.inj_xO.
    replace (2 * Pos.to_nat p)%nat with (Pos.to_nat p + Pos.to_nat p)%nat by lia.
    now rewrite Nat.iter_add.
  - reflexivity.
Qed.

Lemma digits2_size (p : positive) : digits2_pos p = Pos.size p.
Proof. induction p; simpl; congruence. Qed.


Lemma pow2_pos (n : Z) : 0 <= n -> 0 < 2 ^ n.
Proof. intros H. apply Z.pow_pos_nonneg; lia. Qed.

Lemma pow2_succ (n : Z) : 0 <= n -> 2 ^ (n + 1) = 2 * 2 ^ n.
Proof. intros H. rewrite Z.pow_add_r by lia. lia. Qed.

Definition rne (A C : Z) : Z :=
  let q := A / C in
  match 2 * (A mod C) ?= C with
  | Lt => q
  | Eq => if Z.even q then q else q + 1
  | Gt => q + 1
  end.

Lemma shr_1_nonneg (m : Z) (r s : bool) :
  0 <= m ->
  shr_1 {| shr_m := m; shr_r := r; shr_s := s |}
  = {| shr_m := m / 2; shr_r := Z.odd m; shr_s := r || s |}.
Proof.
  intros H. rewrite <- Z.div2_div.
  destruct m as [| [p | p |] | p]; try reflexivity. lia.
Qed.

Lemma sticky_step (M k : Z) :
  0 <= M -> 0 <= k ->
  negb (M mod 2 ^ (k + 1) =? 0)
  = Z.odd (M / 2 ^ k) || negb (M mod 2 ^ k =? 0).
Proof.
  intros HM Hk. pose proof (pow2_pos k Hk) as P.
  rewrite pow2_succ by lia.
  rewrite (Z.mul_comm 2), Z.rem_mul_r by lia.
  rewrite Zodd_mod.
  pose proof (Z.mod_pos_bound M (2 ^ k) P).
  pose proof (Z.mod_pos_bound (M / 2 ^ k) 2 ltac:(lia)).
  destruct (Z.eqb_spec (M / 2 ^ k mod 2) 1), (Z.eqb_spec (M mod 2 ^ k) 0);
    cbn [orb negb]; destruct (Z.eqb_spec (M mod 2 ^ k + 2 ^ k * (M / 2 ^ k mod 2)) 0);
    try reflexivity; exfalso; nia.
Qed.

Lemma shr_iter (k : nat) (M : Z) (r0 s0 : bool) :
  0 <= M ->
  Nat.iter (S k) shr_1 {| shr_m := M; shr_r := r0; shr_s := s0 |}
  = {| shr_m := M / 2 ^ (Z.of_nat k + 1);
       shr_r := Z.odd (M / 2 ^ Z.of_nat k);
       shr_s := negb (M mod 2 ^ Z.of_nat k =? 0) || (r0 || s0) |}.
Proof.
  intros HM. induction k as [| k IH].
  - cbn [Nat.iter]. rewrite shr_1_nonneg by assumption.
    change (2 ^ (Z.of_nat 0 + 1)) with 2. change (2 ^ Z.of_nat 0) with 1.
    rewrite Z.div_1_r, Z.mod_1_r. reflexivity.
  - change (Nat.iter (S (S k)) shr_1 ?x) with (shr_1 (Nat.iter (S k) shr_1 x)).
    rewrite IH, shr_1_nonneg.
    2:{ apply Z.div_pos; [assumption | apply pow2_pos; lia]. }
    replace (Z.of_nat (S k)) with (Z.of_nat k + 1) by lia.
    f_equal.
    + rewrite Z.div_div; [| pose proof (pow2_pos (Z.of_nat k + 1)); lia | lia].
      f_equal. rewrite (pow2_succ (Z.of_nat k + 1)); lia.
    + rewrite (sticky_step M (Z.of_nat k)) by lia.
      now rewrite orb_assoc.
Qed.

Lemma shr_pos (mrs : shr_record) (e : Z) (k : nat) :
  shr mrs e (Z.of_nat (S k)) = (Nat.iter (S k) shr_1 mrs, e + Z.of_nat (S k)).
Proof.
  unfold shr. destruct (Z.of_nat (S k)) as [| p |] eqn:E; try lia.
  rewrite iter_pos_nat. do 2 f_equal. lia.
Qed.

Lemma record_of_loc_m (q : Z) (l : location) :
  shr_m (shr_record_of_loc q l) = q.
Proof. destruct l as [| []]; reflexivity. Qed.

Lemma loc_of_record_of (q : Z) (l : location) :
  loc_of_shr_record (shr_record_of_loc q l) = l.
Proof. destruct l as [| []]; reflexivity. Qed.

Lemma new_location_spec (B r : Z) :
  0 < B -> 0 <= r < B ->
  new_location B r = if r =? 0 then loc_Exact else loc_Inexact (2 * r ?= B).
Proof.
  intros HB Hr. unfold new_location, new_location_even, new_location_odd.
  destruct (Z.even B) eqn:E; [reflexivity |].
  destruct (Z.eqb_spec r 0); [reflexivity |]. f_equal.
  assert (O : Z.odd B = true) by (rewrite <- Z.negb_even, E; reflexivity).
  apply Z.odd_spec in O. destruct O as [b Hb].
  destruct (Z.compare_spec (2 * r + 1) B), (Z.compare_spec (2 * r) B);
    try reflexivity; lia.
Qed.

Lemma loc_record_bits (q B r : Z) :
  0 < B -> 0 <= r < B ->
  let rec := shr_record_of_loc q (new_location B r) in
  shr_m rec = q /\ shr_r rec || shr_s rec = negb (r =? 0).
Proof.
  intros HB Hr. rewrite new_location_spec by assumption.
  destruct (r =? 0); [split; reflexivity |].
  destruct (2 * r ?= B); split; reflexivity.
Qed.

Lemma rne_unshifted (q B r : Z) :
  0 < B -> 0 <= r < B ->
  round_nearest_even q (new_location B r) = rne (q * B + r) B.
Proof.
  intros HB Hr. rewrite new_location_spec by assumption. unfold rne.
  assert (D : (q * B + r) / B = q).
  { symmetry. apply (Z.div_unique_pos _ _ q r); lia. }
  assert (M : (q * B + r) mod B = r).
  { symmetry. apply (Z.mod_unique_pos _ _ q r); lia. }
  rewrite D, M.
  destruct (Z.eqb_spec r 0) as [-> | N].
  - cbn [round_nearest_even]. change (2 * 0) with 0.
    destruct (Z.compare_spec 0 B); try reflexivity; lia.
  - cbn [round_nearest_even]. destruct (2 * r ?= B); reflexivity.
Qed.

Lemma rne_shifted (k : nat) (q B r : Z) (r0 s0 : bool) :
  0 <= q -> 0 < B -> 0 <= r < B ->
  r0 || s0 = negb (r =? 0) ->
  let mrs := Nat.iter (S k) shr_1 {| shr_m := q; shr_r := r0; shr_s := s0 |} in
  round_nearest_even (shr_m mrs) (loc_of_shr_record mrs)
  = rne (q * B + r) (B * 2 ^ (Z.of_nat k + 1)).
Proof.
  intros Hq HB Hr Hbits mrs. subst mrs. rewrite shr_iter by assumption.
  rewrite Hbits. cbn [shr_m]. unfold rne.
  pose proof (pow2_pos (Z.of_nat k) ltac:(lia)) as P.
  assert (D0 : (q * B + r) / B = q).
  { symmetry. apply (Z.div_unique_pos _ _ q r); lia. }
  assert (M0 : (q * B + r) mod B = r).
  { symmetry. apply (Z.mod_unique_pos _ _ q r); lia. }
  assert (D : (q * B + r) / (B * 2 ^ (Z.of_nat k + 1)) = q / 2 ^ (Z.of_nat k + 1)).
  { rewrite <- Z.div_div, D0; [reflexivity | lia |].
    apply pow2_pos; lia. }
  assert (M : (q * B + r) mod (B * 2 ^ (Z.of_nat k + 1))
              = r + B * (q mod 2 ^ Z.of_nat k + 2 ^ Z.of_nat k * (q / 2 ^ Z.of_nat k mod 2))).
  { rewrite Z.rem_mul_r, M0, D0; [| lia | apply pow2_pos; lia].
    rewrite pow2_succ, (Z.mul_comm 2), Z.rem_mul_r by lia. reflexivity. }
  rewrite D, M, pow2_succ by lia.
  rewrite Zodd_mod.
  set (c := q mod 2 ^ Z.of_nat k).
  set (hb := q / 2 ^ Z.of_nat k mod 2).
  set (Q := q / (2 * 2 ^ Z.of_nat k)).
  assert (Hc : 0 <= c < 2 ^ Z.of_nat k) by (apply Z.mod_pos_bound; assumption).
  assert (Hhb : 0 <= hb < 2) by (apply Z.mod_pos_bound; lia).
  set (P2 := 2 ^ Z.of_nat k) in *.
  destruct (Z.eqb_spec hb 1) as [E1 | E1].
  - rewrite E1.
    destruct (Z.eqb_spec c 0) as [Ec | Ec], (Z.eqb_spec r 0) as [Er | Er];
      cbn [negb orb loc_of_shr_record round_nearest_even];
      destruct (Z.compare_spec (2 * (r + B * (c + P2 * 1))) (B * (2 * P2)));
      try reflexivity; exfalso; nia.
  - assert (hb = 0) as -> by lia.
    assert (L : 2 * (r + B * (c + P2 * 0)) < B * (2 * P2)) by nia.
    apply Z.compare_lt_iff in L. rewrite L.
    destruct (negb (c =? 0) || negb (r =? 0)); reflexivity.
Qed.

Definition pack (sx : bool) (m2 t : Z) : spec_float :=
  let '(mrs, e) := shr_fexp prec emax m2 t loc_Exact in
  match shr_m mrs with
  | Z0 => S754_zero sx
  | Zpos m => if e <=? emax - prec then S754_finite sx m e else S754_infinity sx
  | Zneg _ => S754_nan
  end.

Lemma binary_round_aux_rne (sx : bool) (q e B r : Z) :
  0 <= q -> 0 < B -> 0 <= r < B ->
  e <= fexp prec emax (Zdigits2 q + e) ->
  binary_round_aux prec emax sx q e (new_location B r)
  = pack sx (rne (q * B + r) (B * 2 ^ (fexp prec emax (Zdigits2 q + e) - e)))
         (fexp prec emax (Zdigits2 q + e)).
Proof.
  intros Hq HB Hr Hk. unfold binary_round_aux, pack.
  set (t := fexp prec emax (Zdigits2 q + e)) in *.
  assert (S1 : exists mrs, shr_fexp prec emax q e (new_location B r) = (mrs, t)
     /\ round_nearest_even (shr_m mrs) (loc_of_shr_record mrs)
        = rne (q * B + r) (B * 2 ^ (t - e))).
  { unfold shr_fexp. fold t.
    destruct (Z.eq_dec (t - e) 0) as [Z0 | NZ].
    - rewrite Z0. cbn [shr]. eexists; split.
      + f_equal. lia.
      + rewrite loc_of_record_of. 
        rewrite record_of_loc_m.
        change (2 ^ 0) with 1. rewrite Z.mul_1_r.
        apply rne_unshifted; assumption.
    - assert (exists k : nat, t - e = Z.of_nat (S k)) as [k Ek].
      { exists (Z.to_nat (t - e - 1)). lia. }
      rewrite Ek, shr_pos.
      destruct (loc_record_bits q B r HB Hr) as [Hm Hb].
      destruct (shr_record_of_loc q (new_location B r)) as [m0 r0 s0].
      cbn [shr_m shr_r shr_s] in Hm, Hb. subst m0.
      eexists; split.
      + f_equal. lia.
      + rewrite (rne_shifted k q B r r0 s0) by assumption.
        do 3 f_equal. lia. }
  destruct S1 as [mrs [E1 E2]]. rewrite E1, E2. reflexivity.
Qed.

Lemma pow2_add (a b : Z) : 0 <= a -> 0 <= b -> 2 ^ (a + b) = 2 ^ a * 2 ^ b.
Proof. intros. apply Z.pow_add_r; assumption. Qed.

Lemma pow2_le (a b : Z) : 0 <= a <= b -> 2 ^ a <= 2 ^ b.
Proof. intros. apply Z.pow_le_mono_r; lia. Qed.

Lemma pow2_lt (a b : Z) : 0 <= a < b -> 2 ^ a < 2 ^ b.
Proof. intros. apply Z.pow_lt_mono_r; lia. Qed.

Lemma pow2_lt_inv (a b : Z) : 0 <= a -> 0 <= b -> 2 ^ a < 2 ^ b -> a < b.
Proof.
  intros Ha Hb H. destruct (Z_lt_le_dec a b) as [L | L]; [assumption |].
  pose proof (pow2_le b a ltac:(lia)). lia.
Qed.

Lemma Zdigits2_nonneg (n : Z) : 0 <= Zdigits2 n.
Proof. destruct n; cbn; lia. Qed.

Lemma Zdigits2_bounds (n : Z) :
  0 < n -> 2 ^ (Zdigits2 n - 1) <= n < 2 ^ Zdigits2 n.
Proof.
  intros H. destruct n as [| p |]; try lia. cbn [Zdigits2].
  rewrite digits2_size.
  pose proof (Pos.size_gt p) as G. pose proof (Pos.size_le p) as L.
  apply Pos2Z.pos_lt_pos in G. apply Pos2Z.pos_le_pos in L.
  rewrite Pos2Z.inj_pow in G, L. change (Z.pos 2) with 2 in *.
  split; [| exact G].
  assert (E : 2 ^ Z.pos (Pos.size p) = 2 * 2 ^ (Z.pos (Pos.size p) - 1)).
  { rewrite <- pow2_succ by lia. f_equal. lia. }
  rewrite E in L. lia.
Qed.

Lemma Zdigits2_unique (n d : Z) :
  0 < n -> 2 ^ (d - 1) <= n < 2 ^ d -> Zdigits2 n = d.
Proof.
  intros Hn [L U]. pose proof (Zdigits2_bounds n Hn) as [L' U'].
  assert (0 < Zdigits2 n) by (destruct n; cbn in *; lia).
  assert (0 < d).
  { destruct (Z_lt_le_dec 0 d); [assumption |].
    destruct (Z.eq_dec d 0) as [-> | N]; [cbn in U; lia |].
    rewrite Z.pow_neg_r in U by lia. lia. }
  assert (d - 1 < Zdigits2 n) by (apply pow2_lt_inv; lia).
  assert (Zdigits2 n - 1 < d) by (apply pow2_lt_inv; lia).
  lia.
Qed.

Lemma Zdigits2_le_of_lt (n d : Z) : 0 <= n < 2 ^ d -> 0 <= d -> Zdigits2 n <= d.
Proof.
  intros [Hn U] Hd. destruct (Z.eq_dec n 0) as [-> | N]; [exact Hd |].
  pose proof (Zdigits2_bounds n ltac:(lia)) as [L' U'].
  assert (0 < Zdigits2 n) by (destruct n; cbn in *; lia).
  assert (Zdigits2 n - 1 < d) by (apply pow2_lt_inv; lia). lia.
Qed.

Lemma Zdigits2_ge_of_le (n d : Z) : 2 ^ (d - 1) <= n -> 1 <= d -> d <= Zdigits2 n.
Proof.
  intros L Hd. pose proof (pow2_pos (d - 1) ltac:(lia)).
  pose proof (Zdigits2_bounds n ltac:(lia)) as [L' U'].
  pose proof (Zdigits2_nonneg n).
  assert (d - 1 < Zdigits2 n) by (apply pow2_lt_inv; lia). lia.
Qed.

Lemma Zdigits2_mono (a b : Z) : 0 <= a <= b -> Zdigits2 a <= Zdigits2 b.
Proof.
  intros [Ha Hab]. destruct (Z.eq_dec a 0) as [-> | N]; [apply Zdigits2_nonneg |].
  pose proof (Zdigits2_bounds a ltac:(lia)) as [L U].
  assert (0 < Zdigits2 a) by (destruct a; cbn in *; lia).
  apply Zdigits2_ge_of_le; lia.
Qed.

(** Nearest integer to a fraction, ties to even. *)

Lemma rne_floor (A C : Z) : 0 < C -> A / C <= rne A C <= A / C + 1.
Proof.
  intros HC. unfold rne. destruct (2 * (A mod C) ?= C); [destruct (Z.even _) | |]; lia.
Qed.

Lemma rne_ge_int (A C x : Z) : 0 < C -> x * C <= A -> x <= rne A C.
Proof.
  intros HC H. pose proof (rne_floor A C HC).
  assert (x <= A / C) by (apply Z.div_le_lower_bound; lia). lia.
Qed.

Lemma rne_le_int (A C x : Z) : 0 < C -> A <= x * C -> rne A C <= x.
Proof.
  intros HC H. unfold rne.
  pose proof (Z.div_mod A C ltac:(lia)) as E.
  pose proof (Z.mod_pos_bound A C HC) as Hr.
  set (q := A / C) in *. set (r := A mod C) in *.
  destruct (Z.eq_dec r 0) as [R0 | R0].
  - rewrite R0. change (2 * 0) with 0.
    destruct (Z.compare_spec 0 C); try lia. nia.
  - assert (q + 1 <= x) by nia.
    destruct (2 * r ?= C); [destruct (Z.even q) | |]; lia.
Qed.

Lemma div_le_cross (A C A' C' : Z) :
  0 < C -> 0 < C' -> A * C' <= A' * C -> A / C <= A' / C'.
Proof.
  intros HC HC' H.
  pose proof (Z.div_mod A C ltac:(lia)) as E.
  pose proof (Z.mod_pos_bound A C HC) as Hr.
  pose proof (Z.div_mod A' C' ltac:(lia)) as E'.
  pose proof (Z.mod_pos_bound A' C' HC') as Hr'.
  destruct (Z_lt_le_dec (A' / C') (A / C)) as [L | L]; [exfalso | lia].
  set (q := A / C) in *. set (q' := A' / C') in *.
  assert (C' * (q' + 1) <= C' * q) by nia.
  assert (A' < C' * q) by lia.
  assert (A' * C < C' * q * C) by nia.
  assert (C * q * C' <= A * C') by nia.
  lia.
Qed.

Lemma rne_mono (A C A' C' : Z) :
  0 < C -> 0 < C' -> A * C' <= A' * C -> rne A C <= rne A' C'.
Proof.
  intros HC HC' H.
  pose proof (Z.div_mod A C ltac:(lia)) as E.
  pose proof (Z.mod_pos_bound A C HC) as Hr.
  pose proof (Z.div_mod A' C' ltac:(lia)) as E'.
  pose proof (Z.mod_pos_bound A' C' HC') as Hr'.
  pose proof (rne_floor A C HC) as F. pose proof (rne_floor A' C' HC') as F'.
  assert (Q : A / C <= A' / C') by (apply div_le_cross; assumption).
  destruct (Z.eq_dec (A / C) (A' / C')) as [EQ | NE]; [| lia].
  unfold rne in *. rewrite <- EQ in *.
  set (q := A / C) in *. set (r := A mod C) in *. set (r' := A' mod C') in *.
  assert (RR : r * C' <= r' * C) by nia.
  destruct (Z.compare_spec (2 * r) C), (Z.compare_spec (2 * r') C');
    try destruct (Z.even q); try lia; exfalso; nia.
Qed.

Lemma rne_scale (A C g : Z) : 0 < C -> 0 < g -> rne (A * g) (C * g) = rne A C.
Proof.
  intros HC Hg. unfold rne.
  rewrite Z.div_mul_cancel_r, Z.mul_mod_distr_r by lia.
  replace (2 * (A mod C * g) ?= C * g) with (2 * (A mod C) ?= C); [reflexivity |].
  destruct (Z.compare_spec (2 * (A mod C)) C), (Z.compare_spec (2 * (A mod C * g)) (C * g));
    try reflexivity; exfalso; nia.
Qed.

Lemma rne_exact (A : Z) : rne A 1 = A.
Proof. unfold rne. rewrite Z.mod_1_r, Z.div_1_r. reflexivity. Qed.

(** The value a fraction A/B * 2^e rounds to, as a multiple of 2^-1074. *)

Definition RN (A B e : Z) : Z :=
  let t := fexp prec emax (Zdigits2 (A / B) + e) in
  rne A (B * 2 ^ (t - e)) * 2 ^ (t + 1074).

Definition scaled (A B e : Z) : Prop :=
  0 <= A /\ 0 < B /\ e <= fexp prec emax (Zdigits2 (A / B) + e)
  /\ (1 <= A / B \/ e <= -1074).

Lemma fexp_ge (x : Z) : -1074 <= fexp prec emax x.
Proof. rewrite fexp_eq. lia. Qed.

Lemma fexp_mono (x y : Z) : x <= y -> fexp prec emax x <= fexp prec emax y.
Proof. rewrite !fexp_eq. lia. Qed.

Lemma div_scale_bounds (A B j : Z) :
  0 <= A -> 0 < B -> 0 <= j ->
  A / B * 2 ^ j <= A * 2 ^ j / B < (A / B + 1) * 2 ^ j.
Proof.
  intros HA HB Hj. pose proof (pow2_pos j Hj) as P.
  pose proof (Z.div_mod A B ltac:(lia)) as E.
  pose proof (Z.mod_pos_bound A B HB) as Hr.
  split.
  - apply Z.div_le_lower_bound; [lia | nia].
  - apply Z.div_lt_upper_bound; [lia | nia].
Qed.

Lemma scaled_shift (A B e j : Z) :
  scaled A B e -> 0 <= j ->
  scaled (A * 2 ^ j) B (e - j)
  /\ fexp prec emax (Zdigits2 (A * 2 ^ j / B) + (e - j))
     = fexp prec emax (Zdigits2 (A / B) + e).
Proof.
  intros (HA & HB & Hk & Hq) Hj. pose proof (pow2_pos j Hj) as P.
  pose proof (div_scale_bounds A B j HA HB Hj) as [L U].
  assert (Q0 : 0 <= A / B) by (apply Z.div_pos; lia).
  assert (T : fexp prec emax (Zdigits2 (A * 2 ^ j / B) + (e - j))
              = fexp prec emax (Zdigits2 (A / B) + e)).
  { destruct (Z_lt_le_dec (A / B) 1) as [Z0 | Q1].
    - assert (A / B = 0) as EQ by lia. rewrite EQ in *.
      assert (e <= -1074) by lia.
      assert (Zdigits2 (A * 2 ^ j / B) <= j).
      { apply Zdigits2_le_of_lt; [| assumption]. split; [| lia].
        apply Z.div_pos; lia. }
      cbn [Zdigits2]. rewrite !fexp_eq. lia.
    - pose proof (Zdigits2_bounds (A / B) ltac:(lia)) as [L' U'].
      assert (1 <= Zdigits2 (A / B)).
      { apply Zdigits2_ge_of_le; [cbn; lia | lia]. }
      f_equal. rewrite (Zdigits2_unique (A * 2 ^ j / B) (Zdigits2 (A / B) + j)); [lia | nia |].
      replace (Zdigits2 (A / B) + j - 1) with ((Zdigits2 (A / B) - 1) + j) by lia.
      rewrite !pow2_add by lia. split; nia. }
  split; [| exact T].
  split; [nia |]. split; [assumption |]. split; [rewrite T; lia |].
  destruct Hq as [Hq | Hq]; [left; nia | right; lia].
Qed.

Lemma RN_shift (A B e j : Z) :
  scaled A B e -> 0 <= j -> RN (A * 2 ^ j) B (e - j) = RN A B e.
Proof.
  intros S Hj. destruct (scaled_shift A B e j S Hj) as [_ T].
  destruct S as (HA & HB & Hk & Hq).
  unfold RN. rewrite T. f_equal.
  set (t := fexp prec emax (Zdigits2 (A / B) + e)) in *.
  replace (t - (e - j)) with ((t - e) + j) by lia.
  rewrite pow2_add, Z.mul_assoc by lia.
  apply rne_scale; [| apply pow2_pos; lia].
  pose proof (pow2_pos (t - e) ltac:(lia)). nia.
Qed.

Lemma RN_mono_aligned (A B A' B' e : Z) :
  scaled A B e -> scaled A' B' e ->
  A * B' <= A' * B -> RN A B e <= RN A' B' e.
Proof.
  intros (HA & HB & Hk & Hq) (HA' & HB' & Hk' & Hq') H.
  assert (Q : A / B <= A' / B') by (apply div_le_cross; assumption).
  assert (Q0 : 0 <= A / B) by (apply Z.div_pos; lia).
  pose proof (Zdigits2_mono (A / B) (A' / B') ltac:(lia)) as D.
  unfold RN.
  set (q := A / B) in *. set (q' := A' / B') in *.
  set (d := Zdigits2 q) in *. set (d' := Zdigits2 q') in *.
  pose proof (fexp_mono (d + e) (d' + e) ltac:(lia)) as T.
  set (t := fexp prec emax (d + e)) in *. set (t' := fexp prec emax (d' + e)) in *.
  assert (Ft : t = Z.max (d + e - 53) (-1074)) by apply fexp_eq.
  assert (Ft' : t' = Z.max (d' + e - 53) (-1074)) by apply fexp_eq.
  pose proof (pow2_pos (t - e) ltac:(lia)) as P.
  pose proof (pow2_pos (t' - e) ltac:(lia)) as P'.
  assert (G : -1074 <= t) by apply fexp_ge.
  pose proof (pow2_pos (t + 1074) ltac:(lia)) as PT.
  destruct (Z.eq_dec t t') as [ET | NT].
  - rewrite <- ET. apply Z.mul_le_mono_nonneg_r; [lia |].
    apply rne_mono; nia.
  - assert (LT : t < t') by lia.
    assert (T' : t' = d' + e - 53) by lia.
    assert (DD : d + 1 <= d') by lia.
    assert (D0 : 0 <= d) by apply Zdigits2_nonneg.
    assert (Q1 : 0 < q').
    { destruct (Z.eq_dec q' 0) as [Z0 | Z0]; [| lia].
      exfalso. subst d'. rewrite Z0 in DD. cbn in DD. lia. }
    pose proof (Zdigits2_bounds q' Q1) as [L' _]. fold d' in L'.
    assert (UP : q + 1 <= 2 ^ d).
    { destruct (Z.eq_dec q 0) as [Z0 | Z0].
      - rewrite Z0. pose proof (pow2_pos d D0). lia.
      - pose proof (Zdigits2_bounds q ltac:(lia)) as [_ U]. fold d in U. lia. }
    pose proof (Z.div_mod A B ltac:(lia)) as E.
    pose proof (Z.mod_pos_bound A B HB) as Hr. fold q in E.
    pose proof (Z.div_mod A' B' ltac:(lia)) as E'.
    pose proof (Z.mod_pos_bound A' B' HB') as Hr'. fold q' in E'.
    (* lower bound on the larger one *)
    assert (LO : 2 ^ 52 <= rne A' (B' * 2 ^ (t' - e))).
    { apply rne_ge_int; [nia |].
      assert (2 ^ (d' - 1) = 2 ^ 52 * 2 ^ (t' - e)).
      { rewrite <- pow2_add by lia. f_equal. lia. }
      nia. }
    pose proof (pow2_pos (t' + 1074) ltac:(lia)) as PT'.
    destruct (Z_le_gt_dec (t - e) d) as [C1 | C1].
    + assert (R1 : rne A (B * 2 ^ (t - e)) <= 2 ^ (d - (t - e))).
      { apply rne_le_int; [nia |].
        assert (2 ^ d = 2 ^ (d - (t - e)) * 2 ^ (t - e)).
        { rewrite <- pow2_add by lia. f_equal. lia. }
        nia. }
      apply Z.le_trans with (2 ^ (d - (t - e)) * 2 ^ (t + 1074)).
      { apply Z.mul_le_mono_nonneg_r; lia. }
      apply Z.le_trans with (2 ^ 52 * 2 ^ (t' + 1074)).
      { rewrite <- !pow2_add by lia. apply pow2_le. lia. }
      apply Z.mul_le_mono_nonneg_r; lia.
    + assert (R0 : rne A (B * 2 ^ (t - e)) <= 0).
      { assert (2 * 2 ^ d <= 2 ^ (t - e)).
        { rewrite <- pow2_succ by lia. apply pow2_le. lia. }
        unfold rne.
        assert (AL : 2 * A < B * 2 ^ (t - e)) by nia.
        rewrite Z.mod_small by nia. rewrite Z.div_small by nia.
        apply Z.compare_lt_iff in AL. rewrite AL. lia. }
      apply Z.le_trans with 0; [nia |].
      apply Z.mul_nonneg_nonneg; lia.
Qed.

Theorem RN_mono (A B e A' B' e' : Z) :
  scaled A B e -> scaled A' B' e' ->
  A * B' * 2 ^ (e - Z.min e e') <= A' * B * 2 ^ (e' - Z.min e e') ->
  RN A B e <= RN A' B' e'.
Proof.
  intros S S' H. destruct (Z_le_gt_dec e e') as [L | L].
  - rewrite Z.min_l in H by lia. rewrite Z.sub_diag, Z.mul_1_r in H.
    destruct (scaled_shift A' B' e' (e' - e) S' ltac:(lia)) as [S2 _].
    rewrite <- (RN_shift A' B' e' (e' - e)) by (assumption || lia).
    replace (e' - (e' - e)) with e in * by lia.
    apply RN_mono_aligned; [assumption | assumption | lia].
  - rewrite Z.min_r in H by lia. rewrite Z.sub_diag, Z.mul_1_r in H.
    destruct (scaled_shift A B e (e - e') S ltac:(lia)) as [S2 _].
    rewrite <- (RN_shift A B e (e - e')) by (assumption || lia).
    replace (e - (e - e')) with e' in * by lia.
    apply RN_mono_aligned; [assumption | assumption | lia].
Qed.

(** The scaled integer of a non-negative float: its value times 2^1074,
    with infinity as the top element 2^2098. *)

Definition Nf (x : spec_float) : Z :=
  match x with
  | S754_finite _ m e => Z.pos m * 2 ^ (e + 1074)
  | S754_infinity _ => 2 ^ 2098
  | _ => 0
  end.

Definition signed (s : bool) (x : spec_float) : Prop :=
  match x with
  | S754_zero s' | S754_finite s' _ _ | S754_infinity s' => s' = s
  | S754_nan => False
  end.

Definition clip (z : Z) : Z := Z.min z (2 ^ 2098).

Lemma shr_nonpos (mrs : shr_record) (e n : Z) : n <= 0 -> shr mrs e n = (mrs, e).
Proof. intros H. destruct n; try reflexivity. lia. Qed.

Lemma pack_spec (sx : bool) (m2 t : Z) :
  0 <= m2 <= 2 ^ 53 -> -1074 <= t -> (-1074 < t -> 2 ^ 52 <= m2) ->
  signed sx (pack sx m2 t)
  /\ Nf (pack sx m2 t) = clip (m2 * 2 ^ (t + 1074))
  /\ valid_binary (pack sx m2 t) = true.
Proof.
  intros [L U] Ht Hn. unfold pack, shr_fexp. cbn [shr_record_of_loc].
  change (emax - prec) with 971.
  pose proof (pow2_pos (t + 1074) ltac:(lia)) as PT.
  assert (TOP : 2 ^ 2098 = 2 ^ 53 * 2 ^ 2045) by (rewrite <- pow2_add by lia; reflexivity).
  assert (TOP' : 2 ^ 2098 = 2 ^ 52 * 2 ^ 2046) by (rewrite <- pow2_add by lia; reflexivity).
  destruct (Z.eq_dec m2 (2 ^ 53)) as [E | NE].
  - replace (fexp prec emax (Zdigits2 m2 + t) - t) with 1.
    2:{ rewrite E. change (Zdigits2 (2 ^ 53)) with 54. rewrite fexp_eq. lia. }
    rewrite E. cbn [shr SpecFloat.iter_pos]. rewrite shr_1_nonneg by lia.
    change (2 ^ 53 / 2) with (Z.pos (2 ^ 52)). cbn [shr_m].
    destruct (Z.leb_spec (t + 1) 971) as [F | F].
    + split; [reflexivity |]. split.
      * cbn [Nf]. unfold clip. rewrite Z.min_l.
        -- change (2 ^ 53) with (Z.pos (2 ^ 52) * 2).
           replace (t + 1 + 1074) with ((t + 1074) + 1) by lia.
           rewrite pow2_succ by lia. lia.
        -- rewrite TOP. apply Z.mul_le_mono_nonneg_l; [lia |].
           apply pow2_le. lia.
      * cbn [SpecFloat.valid_binary]. unfold SpecFloat.bounded, SpecFloat.canonical_mantissa.
        change (Z.pos (digits2_pos (2 ^ 52))) with 53.
        rewrite fexp_eq. change (emax - prec) with 971.
        apply andb_true_intro. split; [apply Z.eqb_eq | apply Z.leb_le]; lia.
    + split; [reflexivity |]. split; [| reflexivity].
      cbn [Nf]. unfold clip. rewrite Z.min_r; [reflexivity |].
      rewrite TOP. apply Z.mul_le_mono_nonneg_l; [lia |].
      apply pow2_le. lia.
  - assert (D : Zdigits2 m2 <= 53).
    { apply Zdigits2_le_of_lt; lia. }
    rewrite shr_nonpos by (rewrite fexp_eq; lia). cbn [shr_m].
    destruct m2 as [| p |]; [| | lia].
    + split; [reflexivity |]. split; [| reflexivity].
      cbn [Nf]. unfold clip. rewrite Z.mul_0_l, Z.min_l; [reflexivity |].
      pose proof (pow2_pos 2098 ltac:(lia)). lia.
    + destruct (Z.leb_spec t 971) as [F | F].
      * split; [reflexivity |]. split.
        -- cbn [Nf]. unfold clip. rewrite Z.min_l; [reflexivity |].
           rewrite TOP.
           apply Z.le_trans with (2 ^ 53 * 2 ^ (t + 1074)).
           ++ apply Z.mul_le_mono_nonneg_r; lia.
           ++ apply Z.mul_le_mono_nonneg_l; [lia |]. apply pow2_le. lia.
        -- cbn [SpecFloat.valid_binary]. unfold SpecFloat.bounded, SpecFloat.canonical_mantissa.
           change (emax - prec) with 971.
           apply andb_true_intro. split; [apply Z.eqb_eq | apply Z.leb_le; lia].
           rewrite fexp_eq. cbn [Zdigits2] in D.
           destruct (Z.eq_dec t (-1074)) as [-> | NT]; [lia |].
           assert (53 <= Z.pos (digits2_pos p)); [| lia].
           apply (Zdigits2_ge_of_le (Z.pos p) 53); [| lia].
           apply Hn. lia.
      * split; [reflexivity |]. split; [| reflexivity].
        cbn [Nf]. unfold clip. rewrite Z.min_r; [reflexivity |].
        rewrite TOP'.
        apply Z.le_trans with (2 ^ 52 * 2 ^ (t + 1074)).
        -- apply Z.mul_le_mono_nonneg_l; [lia |]. apply pow2_le. lia.
        -- apply Z.mul_le_mono_nonneg_r; [lia |]. apply Hn. lia.
Qed.

Lemma rne_in_range (A B e : Z) :
  scaled A B e ->
  let t := fexp prec emax (Zdigits2 (A / B) + e) in
  let m2 := rne A (B * 2 ^ (t - e)) in
  0 <= m2 <= 2 ^ 53 /\ (-1074 < t -> 2 ^ 52 <= m2).
Proof.
  intros (HA & HB & Hk & Hq) t m2. subst m2. fold t in Hk.
  assert (Q0 : 0 <= A / B) by (apply Z.div_pos; lia).
  pose proof (Z.div_mod A B ltac:(lia)) as E.
  pose proof (Z.mod_pos_bound A B HB) as Hr.
  set (q := A / B) in *. set (d := Zdigits2 q) in *.
  assert (Ft : t = Z.max (d + e - 53) (-1074)) by apply fexp_eq.
  assert (D0 : 0 <= d) by apply Zdigits2_nonneg.
  pose proof (pow2_pos (t - e) ltac:(lia)) as P.
  assert (UP : q + 1 <= 2 ^ d).
  { destruct (Z.eq_dec q 0) as [Z0 | Z0].
    - rewrite Z0. pose proof (pow2_pos d D0). lia.
    - pose proof (Zdigits2_bounds q ltac:(lia)) as [_ U]. fold d in U. lia. }
  split; [split |].
  - apply rne_ge_int; nia.
  - apply rne_le_int; [nia |].
    assert (2 ^ d <= 2 ^ 53 * 2 ^ (t - e)).
    { rewrite <- pow2_add by lia. apply pow2_le. lia. }
    nia.
  - intros NT. assert (K : t - e = d - 53) by lia.
    assert (Q1 : 0 < q).
    { destruct (Z.eq_dec q 0) as [Z0 | Z0]; [| lia].
      exfalso. subst d. rewrite Z0 in K. cbn in K. lia. }
    pose proof (Zdigits2_bounds q Q1) as [L' _]. fold d in L'.
    apply rne_ge_int; [nia |].
    assert (2 ^ (d - 1) = 2 ^ 52 * 2 ^ (t - e)).
    { rewrite <- pow2_add by lia. f_equal. lia. }
    nia.
Qed.

(** Rounding a located quotient: sign, value and validity of the result. *)
Lemma binary_round_aux_spec (sx : bool) (q e B r : Z) :
  0 <= q -> 0 < B -> 0 <= r < B -> scaled (q * B + r) B e ->
  let x := binary_round_aux prec emax sx q e (new_location B r) in
  signed sx x /\ Nf x = clip (RN (q * B + r) B e) /\ valid_binary x = true.
Proof.
  intros Hq HB Hr S x. subst x.
  assert (D : (q * B + r) / B = q).
  { symmetry. apply (Z.div_unique_pos _ _ q r); lia. }
  pose proof (rne_in_range _ _ _ S) as [R1 R2].
  destruct S as (HA & _ & Hk & _). unfold RN. rewrite D in *.
  rewrite binary_round_aux_rne by assumption.
  apply pack_spec; [assumption | apply fexp_ge | assumption].
Qed.

Lemma pow2_shift_le (a b u v u' v' : Z) :
  0 <= u -> 0 <= v -> 0 <= u' -> 0 <= v' -> u - v = u' - v' ->
  a * 2 ^ v <= b * 2 ^ v' -> a * 2 ^ u <= b * 2 ^ u'.
Proof.
  intros Hu Hv Hu' Hv' E H. destruct (Z_le_gt_dec v u) as [L | L].
  - replace u with (v + (u - v)) by lia. replace u' with (v' + (u - v)) by lia.
    rewrite !pow2_add, !Z.mul_assoc by lia.
    apply Z.mul_le_mono_nonneg_r; [| exact H].
    pose proof (pow2_pos (u - v)); lia.
  - replace v with (u + (v - u)) in H by lia.
    replace v' with (u' + (v - u)) in H by lia.
    rewrite !pow2_add, !Z.mul_assoc in H by lia.
    apply Z.mul_le_mono_pos_r in H; [exact H |]. apply pow2_pos; lia.
Qed.

Lemma clip_mono (a b : Z) : a <= b -> clip a <= clip b.
Proof. unfold clip. lia. Qed.

Lemma clip_le (a : Z) : clip a <= a.
Proof. unfold clip. lia. Qed.

Lemma Nf_nonneg (x : spec_float) : 0 <= Nf x.
Proof.
  destruct x as [s | s | | s m e]; cbn [Nf];
    first [ apply Z.mul_nonneg_nonneg; [lia | apply Z.pow_nonneg; lia]
          | apply Z.pow_nonneg; lia
          | lia ].
Qed.

Lemma valid_finite (s : bool) (m : positive) (e : Z) :
  valid_binary (S754_finite s m e) = true ->
  -1074 <= e <= 971 /\ Z.pos m < 2 ^ 53 /\ (-1074 < e -> 2 ^ 52 <= Z.pos m)
  /\ fexp prec emax (Zdigits2 (Z.pos m) + e) = e.
Proof.
  cbn [SpecFloat.valid_binary]. unfold SpecFloat.bounded, SpecFloat.canonical_mantissa.
  change (emax - prec) with 971. intros H.
  apply andb_prop in H. destruct H as [C B].
  apply Z.eqb_eq in C. apply Z.leb_le in B.
  change (Z.pos (digits2_pos m)) with (Zdigits2 (Z.pos m)) in C.
  pose proof (Zdigits2_bounds (Z.pos m) ltac:(lia)) as [L U].
  assert (1 <= Zdigits2 (Z.pos m)) by (cbn; lia).
  pose proof C as C'. rewrite fexp_eq in C'.
  split; [lia |]. split; [| split; [| exact C]].
  - apply Z.lt_le_trans with (2 ^ Zdigits2 (Z.pos m)); [exact U |].
    apply pow2_le. lia.
  - intros NE. apply Z.le_trans with (2 ^ (Zdigits2 (Z.pos m) - 1)); [| exact L].
    apply pow2_le. lia.
Qed.

Lemma Nf_finite_pos (s : bool) (m : positive) (e : Z) :
  valid_binary (S754_finite s m e) = true ->
  0 < Nf (S754_finite s m e) < 2 ^ 2098.
Proof.
  intros V. destruct (valid_finite s m e V) as (E & M & _ & _). cbn [Nf].
  pose proof (pow2_pos (e + 1074) ltac:(lia)) as P.
  split; [nia |].
  apply Z.lt_le_trans with (2 ^ 53 * 2 ^ (e + 1074)).
  - apply Z.mul_lt_mono_pos_r; assumption.
  - rewrite <- pow2_add by lia. apply pow2_le. lia.
Qed.

(** Not NaN and not below zero. *)
Definition nonnegative (x : spec_float) : Prop :=
  match x with
  | S754_zero _ => True
  | S754_finite s _ _ | S754_infinity s => s = false
  | S754_nan => False
  end.

Lemma signed_nonnegative (x : spec_float) : signed false x -> nonnegative x.
Proof. destruct x; cbn; auto. Qed.

Lemma SFcompare_Nf (a b : spec_float) :
  valid_binary a = true -> valid_binary b = true ->
  nonnegative a -> nonnegative b ->
  SFcompare a b = Some (Nf a ?= Nf b).
Proof.
  intros Va Vb Na Nb.
  destruct a as [sa | sa | | sa ma ea], b as [sb | sb | | sb mb eb];
    cbn [nonnegative] in Na, Nb; try contradiction; subst;
    try pose proof (Nf_finite_pos _ _ _ Va) as [Pa Ta];
    try pose proof (Nf_finite_pos _ _ _ Vb) as [Pb Tb];
    pose proof (pow2_pos 2098 ltac:(lia)) as TOP;
    unfold SFcompare; cbv beta iota; f_equal; symmetry.
  all: try reflexivity.
  all: try (apply Z.compare_lt_iff; first [exact TOP | exact Pb | exact Ta]).
  all: try (apply Z.compare_gt_iff; first [exact TOP | exact Tb | exact Pa]).
  destruct (valid_finite _ _ _ Va) as (Ea & Ma & Na & _).
  destruct (valid_finite _ _ _ Vb) as (Eb & Mb & Nb & _).
  cbn [Nf].
  pose proof (pow2_pos (ea + 1074) ltac:(lia)) as PA.
  pose proof (pow2_pos (eb + 1074) ltac:(lia)) as PB.
  destruct (Z.compare_spec ea eb) as [E | L | G].
  - subst eb. change (PosDef.Pos.compare_cont Eq ma mb) with (Z.pos ma ?= Z.pos mb).
    destruct (Z.compare_spec (Z.pos ma) (Z.pos mb)) as [E2 | L2 | G2].
    + apply Z.compare_eq_iff. rewrite E2. reflexivity.
    + apply Z.compare_lt_iff. apply Z.mul_lt_mono_pos_r; assumption.
    + apply Z.compare_gt_iff. apply Z.mul_lt_mono_pos_r; assumption.
  - apply Z.compare_lt_iff.
    apply Z.lt_le_trans with (2 ^ 53 * 2 ^ (ea + 1074)).
    { apply Z.mul_lt_mono_pos_r; assumption. }
    apply Z.le_trans with (2 ^ 52 * 2 ^ (eb + 1074)).
    { rewrite <- !pow2_add by lia. apply pow2_le. lia. }
    apply Z.mul_le_mono_nonneg_r; [lia | apply Nb; lia].
  - apply Z.compare_gt_iff.
    apply Z.lt_le_trans with (2 ^ 53 * 2 ^ (eb + 1074)).
    { apply Z.mul_lt_mono_pos_r; assumption. }
    apply Z.le_trans with (2 ^ 52 * 2 ^ (ea + 1074)).
    { rewrite <- !pow2_add by lia. apply pow2_le. lia. }
    apply Z.mul_le_mono_nonneg_r; [lia | apply Na; lia].
Qed.

Lemma RN_of_valid (s : bool) (m : positive) (e : Z) :
  valid_binary (S754_finite s m e) = true ->
  scaled (Z.pos m) 1 e /\ RN (Z.pos m) 1 e = Nf (S754_finite s m e).
Proof.
  intros V. destruct (valid_finite s m e V) as (E & M & _ & C).
  unfold scaled, RN. rewrite Z.div_1_r, C, Z.sub_diag.
  change (2 ^ 0) with 1. rewrite Z.mul_1_r, rne_exact.
  repeat split; first [lia | left; lia].
Qed.

Lemma Zdigits2_mul (a b : Z) :
  0 < a -> 0 < b -> Zdigits2 a + Zdigits2 b - 1 <= Zdigits2 (a * b).
Proof.
  intros Ha Hb.
  pose proof (Zdigits2_bounds a Ha) as [La _].
  pose proof (Zdigits2_bounds b Hb) as [Lb _].
  assert (1 <= Zdigits2 a) by (destruct a; cbn in *; lia).
  assert (1 <= Zdigits2 b) by (destruct b; cbn in *; lia).
  apply Zdigits2_ge_of_le; [| lia].
  replace (Zdigits2 a + Zdigits2 b - 1 - 1) with ((Zdigits2 a - 1) + (Zdigits2 b - 1)) by lia.
  rewrite pow2_add by lia.
  pose proof (pow2_pos (Zdigits2 a - 1) ltac:(lia)).
  pose proof (pow2_pos (Zdigits2 b - 1) ltac:(lia)).
  nia.
Qed.

(** Multiplication of two positive finite numbers. *)
Lemma SFmul_finite (m1 : positive) (e1 : Z) (m2 : positive) (e2 : Z) :
  valid_binary (S754_finite false m1 e1) = true ->
  valid_binary (S754_finite false m2 e2) = true ->
  let x := SFmul prec emax (S754_finite false m1 e1) (S754_finite false m2 e2) in
  scaled (Z.pos m1 * Z.pos m2) 1 (e1 + e2)
  /\ signed false x /\ Nf x = clip (RN (Z.pos m1 * Z.pos m2) 1 (e1 + e2))
  /\ valid_binary x = true.
Proof.
  intros V1 V2 x. subst x.
  destruct (valid_finite _ _ _ V1) as (E1 & M1 & N1 & C1).
  destruct (valid_finite _ _ _ V2) as (E2 & M2 & N2 & C2).
  assert (S : scaled (Z.pos m1 * Z.pos m2) 1 (e1 + e2)).
  { unfold scaled. rewrite Z.div_1_r.
    pose proof (Zdigits2_mul (Z.pos m1) (Z.pos m2) ltac:(lia) ltac:(lia)) as D.
    assert (1 <= Zdigits2 (Z.pos m1)) by (cbn; lia).
    assert (1 <= Zdigits2 (Z.pos m2)) by (cbn; lia).
    rewrite fexp_eq in *.
    repeat split; first [lia | left; lia]. }
  split; [exact S |].
  cbn [SFmul xorb]. change loc_Exact with (new_location 1 0).
  rewrite Pos2Z.inj_mul. set (A := Z.pos m1 * Z.pos m2) in *.
  assert (HA : 0 <= A) by (subst A; lia).
  assert (E : A * 1 + 0 = A) by lia.
  pose proof (binary_round_aux_spec false A (e1 + e2) 1 0 HA ltac:(lia) ltac:(lia)) as R.
  rewrite E in R. apply R. exact S.
Qed.

Lemma Zdigits2_shift (m j : Z) :
  0 < m -> 0 <= j -> Zdigits2 (m * 2 ^ j) = Zdigits2 m + j.
Proof.
  intros Hm Hj. pose proof (Zdigits2_bounds m Hm) as [L U].
  assert (1 <= Zdigits2 m) by (destruct m; cbn in *; lia).
  pose proof (pow2_pos j Hj) as P.
  apply Zdigits2_unique; [nia |].
  replace (Zdigits2 m + j - 1) with ((Zdigits2 m - 1) + j) by lia.
  rewrite !pow2_add by lia. split; nia.
Qed.

(** Division of two positive finite numbers. *)
Lemma SFdiv_finite (m1 : positive) (e1 : Z) (m2 : positive) (e2 : Z) :
  valid_binary (S754_finite false m1 e1) = true ->
  valid_binary (S754_finite false m2 e2) = true ->
  let x := SFdiv prec emax (S754_finite false m1 e1) (S754_finite false m2 e2) in
  exists s : Z,
    0 <= s
    /\ scaled (Z.pos m1 * 2 ^ s) (Z.pos m2) (e1 - e2 - s)
    /\ signed false x
    /\ Nf x = clip (RN (Z.pos m1 * 2 ^ s) (Z.pos m2) (e1 - e2 - s))
    /\ valid_binary x = true.
Proof.
  intros V1 V2 x. subst x.
  destruct (valid_finite _ _ _ V1) as (E1 & M1 & N1 & C1).
  destruct (valid_finite _ _ _ V2) as (E2 & M2 & N2 & C2).
  cbn [SFdiv xorb]. unfold SFdiv_core_binary.
  change IntDef.Z.min with Z.min. change IntDef.Z.shiftl with Z.shiftl.
  change IntDef.Z.div_eucl with Z.div_eucl.
  set (d1 := Zdigits2 (Z.pos m1)). set (d2 := Zdigits2 (Z.pos m2)).
  set (e' := Z.min (fexp prec emax (d1 + e1 - (d2 + e2))) (e1 - e2)).
  set (s := e1 - e2 - e').
  assert (Hs : 0 <= s) by (subst s e'; lia).
  set (m' := match s with 0 => Z.pos m1 | Z.pos _ => Z.shiftl (Z.pos m1) s | Z.neg _ => 0 end).
  assert (Em : m' = Z.pos m1 * 2 ^ s).
  { subst m'. destruct s as [| p | p] eqn:Es.
    - cbn. lia.
    - apply Z.shiftl_mul_pow2. lia.
    - lia. }
  pose proof (pow2_pos s Hs) as Ps.
  pose proof (Z.div_mod m' (Z.pos m2) ltac:(lia)) as DM.
  pose proof (Z.mod_pos_bound m' (Z.pos m2) ltac:(lia)) as MB.
  unfold Z.div, Z.modulo in DM, MB.
  destruct (Z.div_eucl m' (Z.pos m2)) as [q r] eqn:Edm.
  assert (Hq : q = m' / Z.pos m2) by (unfold Z.div; rewrite Edm; reflexivity).
  assert (Q0 : 0 <= q) by (rewrite Hq; apply Z.div_pos; lia).
  exists s. split; [exact Hs |].
  replace (e1 - e2 - s) with e' by (subst s; lia).
  rewrite <- Em.
  assert (S : scaled m' (Z.pos m2) e').
  { unfold scaled. rewrite <- Hq.
    split; [lia |]. split; [lia |].
    pose proof (fexp_ge (Zdigits2 q + e')) as G.
    destruct (Z_le_gt_dec e' (-1074)) as [Le | Ge].
    - split; [lia | right; exact Le].
    - assert (F : fexp prec emax (d1 + e1 - (d2 + e2)) = d1 + e1 - (d2 + e2) - 53).
      { assert (e' <= fexp prec emax (d1 + e1 - (d2 + e2))) by (subst e'; lia).
        rewrite fexp_eq in *. lia. }
      assert (K : e' <= d1 + e1 - (d2 + e2) - 53) by (subst e'; lia).
      pose proof (Zdigits2_bounds (Z.pos m1) ltac:(lia)) as [L1 U1].
      pose proof (Zdigits2_bounds (Z.pos m2) ltac:(lia)) as [L2 U2].
      fold d1 in L1, U1. fold d2 in L2, U2.
      assert (1 <= d1) by (subst d1; cbn; lia).
      assert (1 <= d2) by (subst d2; cbn; lia).
      assert (QL : 2 ^ (d1 + s - d2 - 1) <= q).
      { rewrite Hq. apply Z.div_le_lower_bound; [lia |].
        apply Z.le_trans with (2 ^ d2 * 2 ^ (d1 + s - d2 - 1)).
        - apply Z.mul_le_mono_nonneg_r; [| lia].
          apply Z.pow_nonneg. lia.
        - rewrite <- pow2_add by (subst s; lia).
          replace (d2 + (d1 + s - d2 - 1)) with ((d1 - 1) + s) by lia.
          rewrite pow2_add by lia. rewrite Em.
          apply Z.mul_le_mono_nonneg_r; lia. }
      assert (DQ : d1 + s - d2 <= Zdigits2 q).
      { apply Zdigits2_ge_of_le; [exact QL | subst s; lia]. }
      split.
      + apply Z.le_trans with (fexp prec emax (d1 + e1 - (d2 + e2))); [subst e'; lia |].
        apply fexp_mono. subst s. lia.
      + left. pose proof (pow2_pos (d1 + s - d2 - 1) ltac:(subst s; lia)). lia. }
  replace m' with (q * Z.pos m2 + r) in S |- * by lia.
  split; [exact S |].
  apply binary_round_aux_spec; try lia. exact S.
Qed.

Lemma shr_m_nonneg (mrs : shr_record) (e n : Z) :
  0 <= shr_m mrs -> 0 <= shr_m (fst (shr mrs e n)).
Proof.
  intros H. destruct n as [| p |]; cbn [shr fst]; try assumption.
  rewrite iter_pos_nat.
  destruct (Pos2Nat.is_succ p) as [k ->].
  destruct mrs as [m r s]. cbn [shr_m] in H.
  rewrite shr_iter by assumption. cbn [shr_m].
  apply Z.div_pos; [assumption | apply pow2_pos; lia].
Qed.

Lemma round_nearest_even_nonneg (m : Z) (l : location) :
  0 <= m -> 0 <= round_nearest_even m l.
Proof.
  intros H. destruct l as [| []]; cbn [round_nearest_even]; try lia.
  destruct (IntDef.Z.even m); lia.
Qed.

(** Rounding a non-negative mantissa never gives NaN and keeps the sign. *)
Lemma binary_round_aux_signed (sx : bool) (q e : Z) (l : location) :
  0 <= q -> signed sx (binary_round_aux prec emax sx q e l).
Proof.
  intros Hq. unfold binary_round_aux, shr_fexp.
  pose proof (shr_m_nonneg (shr_record_of_loc q l) e
                (fexp prec emax (Zdigits2 q + e) - e)) as H1.
  rewrite record_of_loc_m in H1. specialize (H1 Hq).
  destruct (shr (shr_record_of_loc q l) e _) as [mrs' e1]. cbn [fst] in H1.
  set (m2 := round_nearest_even (shr_m mrs') (loc_of_shr_record mrs')).
  assert (H2 : 0 <= m2) by (apply round_nearest_even_nonneg; exact H1).
  pose proof (shr_m_nonneg (shr_record_of_loc m2 loc_Exact) e1
                (fexp prec emax (Zdigits2 m2 + e1) - e1)) as H3.
  rewrite record_of_loc_m in H3. specialize (H3 H2).
  destruct (shr (shr_record_of_loc m2 loc_Exact) e1 _) as [mrs'' e2]. cbn [fst] in H3.
  destruct (shr_m mrs'') as [| p | p]; [reflexivity | | lia].
  destruct (e2 <=? emax - prec); reflexivity.
Qed.

Lemma iter_xO (m d : positive) : Z.pos (Pos.iter xO m d) = Z.pos m * 2 ^ Z.pos d.
Proof.
  induction d as [| d IH] using Pos.peano_ind.
  - cbn. lia.
  - rewrite Pos.iter_succ, Pos2Z.inj_xO, IH, Pos2Z.inj_succ.
    unfold Z.succ. rewrite pow2_succ by lia. lia.
Qed.

Lemma shl_align_spec (m : positive) (e t : Z) :
  exists j : Z,
    0 <= j /\ Z.pos (fst (shl_align m e t)) = Z.pos m * 2 ^ j
    /\ snd (shl_align m e t) = e - j
    /\ (e <= t -> j = 0) /\ (t <= e -> j = e - t).
Proof.
  unfold shl_align. destruct (t - e) as [| p | p] eqn:E.
  - exists 0. cbn [fst snd]. repeat split; lia.
  - exists 0. cbn [fst snd]. repeat split; lia.
  - exists (Z.pos p). cbn [fst snd].
    change (PosDef.Pos.iter xO m p) with (Pos.iter xO m p). rewrite iter_xO. repeat split; lia.
Qed.

(** Rounding of a positive integer mantissa with an exponent. *)
Lemma binary_round_spec (sx : bool) (m : positive) (e : Z) :
  let x := binary_round prec emax sx m e in
  exists j : Z,
    0 <= j
    /\ scaled (Z.pos m * 2 ^ j) 1 (e - j)
    /\ signed sx x
    /\ Nf x = clip (RN (Z.pos m * 2 ^ j) 1 (e - j))
    /\ valid_binary x = true.
Proof.
  intros x. subst x. unfold binary_round.
  set (t := fexp prec emax (Z.pos (digits2_pos m) + e)).
  destruct (shl_align_spec m e t) as (j & Hj & Em & Ee & J0 & J1).
  destruct (shl_align m e t) as [mz ez]. cbn [fst snd] in Em, Ee.
  exists j. split; [exact Hj |].
  pose proof (pow2_pos j Hj) as Pj.
  assert (S : scaled (Z.pos m * 2 ^ j) 1 (e - j)).
  { unfold scaled. rewrite Z.div_1_r.
    rewrite Zdigits2_shift by lia.
    replace (Zdigits2 (Z.pos m) + j + (e - j)) with (Zdigits2 (Z.pos m) + e) by lia.
    change (Zdigits2 (Z.pos m)) with (Z.pos (digits2_pos m)). fold t.
    split; [lia |]. split; [lia |]. split; [lia | left; nia]. }
  split; [exact S |].
  rewrite Em, Ee. change loc_Exact with (new_location 1 0).
  set (A := Z.pos m * 2 ^ j) in *.
  assert (E : A * 1 + 0 = A) by lia.
  pose proof (binary_round_aux_spec sx A (e - j) 1 0 ltac:(lia) ltac:(lia) ltac:(lia)) as R.
  rewrite E in R. apply R. exact S.
Qed.

Lemma binary_normalize_signed (z e : Z) :
  let x := binary_normalize prec emax z e false in
  x <> S754_nan /\ valid_binary x = true
  /\ (0 <= z -> signed false x).
Proof.
  intros x. subst x. destruct z as [| p | p]; cbn [binary_normalize].
  - split; [discriminate |]. split; [reflexivity |].
    intros _. reflexivity.
  - destruct (binary_round_spec false p e) as (j & _ & _ & Sg & _ & V).
    split; [| split; [exact V | intros _; exact Sg]].
    intros E. rewrite E in Sg. exact Sg.
  - destruct (binary_round_spec true p e) as (j & _ & _ & Sg & _ & V).
    split; [| split; [exact V | lia]].
    intros E. rewrite E in Sg. exact Sg.
Qed.

(** Subtracting a non-negative number from a positive finite one: the
    difference is not NaN and, when not negative, at most the minuend. *)
Lemma SFsub_le (mc : positive) (ec : Z) (z : spec_float) :
  valid_binary (S754_finite false mc ec) = true ->
  valid_binary z = true -> nonnegative z ->
  let y := SFsub prec emax (S754_finite false mc ec) z in
  y <> S754_nan
  /\ (nonnegative y -> Nf y <= Nf (S754_finite false mc ec)).
Proof.
  intros Vc Vz Nz y. subst y.
  destruct z as [sz | sz | | sz mz ez]; cbn [nonnegative] in Nz; try contradiction.
  - cbn [SFsub]. split; [discriminate | lia].
  - subst sz. cbn [SFsub negb]. split; [discriminate |].
    cbn [nonnegative]. discriminate.
  - subst sz. cbn [SFsub cond_Zopp]. change IntDef.Z.min with Z.min.
    set (e0 := Z.min ec ez).
    destruct (shl_align_spec mc ec e0) as (jc & Hjc & Emc & _ & _ & Jc).
    specialize (Jc ltac:(subst e0; lia)).
    set (D := Z.pos (fst (shl_align mc ec e0)) - Z.pos (fst (shl_align mz ez e0))).
    assert (HD : D <= Z.pos mc * 2 ^ (ec - e0)).
    { subst D. rewrite Emc, Jc. lia. }
    destruct D as [| p | p] eqn:ED; cbn [binary_normalize].
    + split; [discriminate |]. intros _. cbn [Nf].
      apply (Nf_nonneg (S754_finite false mc ec)).
    + destruct (binary_round_spec false p e0) as (j & Hj & S & Sg & EN & V).
      split.
      { intros E. rewrite E in Sg. exact Sg. }
      intros _. rewrite EN.
      destruct (RN_of_valid false mc ec Vc) as [Sc <-].
      apply Z.le_trans with (RN (Z.pos p * 2 ^ j) 1 (e0 - j)); [apply clip_le |].
      apply RN_mono; [exact S | exact Sc |].
      rewrite !Z.mul_1_r.
      set (E := Z.min (e0 - j) ec).
      rewrite <- Z.mul_assoc, <- pow2_add by (subst E; lia).
      apply (pow2_shift_le (Z.pos p) (Z.pos mc) _ 0 _ (ec - e0));
        subst E e0; lia.
    + destruct (binary_round_spec true p e0) as (j & Hj & S & Sg & EN & V).
      split.
      { intros E. rewrite E in Sg. exact Sg. }
      intros NN.
      destruct (binary_round prec emax true p e0) as [s | s | | s m e];
        cbn [signed nonnegative] in Sg, NN; try congruence; try contradiction.
      cbn [Nf]. apply (Nf_nonneg (S754_finite false mc ec)).
Qed.

Lemma SFadd_nonnegative (x y : spec_float) :
  nonnegative x -> nonnegative y -> nonnegative (SFadd prec emax x y).
Proof.
  intros Nx Ny.
  destruct x as [sx | sx | | sx mx ex], y as [sy | sy | | sy my ey];
    cbn [nonnegative] in Nx, Ny; try contradiction; subst; cbn [SFadd nonnegative];
    try reflexivity; try exact I.
  - destruct sx, sy; exact I.
  - cbn [cond_Zopp].
    apply signed_nonnegative.
    apply (binary_normalize_signed _ _). lia.
Qed.

Lemma SFmul_nonnegative (x y : spec_float) :
  nonnegative x -> nonnegative y ->
  (match x, y with
   | S754_zero _, S754_infinity _ | S754_infinity _, S754_zero _ => False
   | _, _ => True
   end) ->
  nonnegative (SFmul prec emax x y).
Proof.
  intros Nx Ny H.
  destruct x as [sx | sx | | sx mx ex], y as [sy | sy | | sy my ey];
    cbn [nonnegative] in Nx, Ny; try contradiction; subst; cbn [SFmul nonnegative xorb];
    try reflexivity; try exact I.
  apply signed_nonnegative, binary_round_aux_signed. lia.
Qed.

Lemma SFsqrt_nonnegative (x : spec_float) :
  nonnegative x -> nonnegative (SFsqrt prec emax x).
Proof.
  intros Nx. destruct x as [sx | sx | | sx mx ex]; cbn [nonnegative] in Nx;
    try contradiction; subst; cbn [SFsqrt nonnegative]; try reflexivity; try exact I.
  unfold SFsqrt_core_binary.
  change IntDef.Z.shiftl with Z.shiftl. change IntDef.Z.sqrtrem with Z.sqrtrem.
  set (s := ex - 2 * _).
  set (m' := match s with 0 => Z.pos mx | Z.pos _ => Z.shiftl (Z.pos mx) s | Z.neg _ => 0 end).
  assert (Hm : 0 <= m').
  { subst m'. destruct s as [| p | p]; try lia.
    rewrite Z.shiftl_mul_pow2 by lia. pose proof (pow2_pos (Z.pos p)). nia. }
  pose proof (Z.sqrtrem_spec m' Hm) as Sq.
  destruct (Z.sqrtrem m') as [q r]. destruct Sq as [_ Sr].
  apply signed_nonnegative, binary_round_aux_signed. lia.
Qed.

Lemma SFsub_not_nan (x : spec_float) (s : bool) (m : positive) (e : Z) :
  x <> S754_nan -> SFsub prec emax x (S754_finite s m e) <> S754_nan.
Proof.
  intros Hx. destruct x as [sx | sx | | sx mx ex]; cbn [SFsub];
    try discriminate; try contradiction.
  apply binary_normalize_signed.
Qed.

Lemma SFabs_nonnegative (x : spec_float) : x <> S754_nan -> nonnegative (SFabs x).
Proof. destruct x; cbn; intros; congruence || exact I || reflexivity. Qed.

(** Multiplication and division keep the order of positive finite numbers. *)
Lemma SFmul_mono (m1 : positive) (e1 : Z) (m2 : positive) (e2 : Z)
                 (m1' : positive) (e1' : Z) (m2' : positive) (e2' : Z) :
  valid_binary (S754_finite false m1 e1) = true ->
  valid_binary (S754_finite false m2 e2) = true ->
  valid_binary (S754_finite false m1' e1') = true ->
  valid_binary (S754_finite false m2' e2') = true ->
  Nf (S754_finite false m1 e1) <= Nf (S754_finite false m1' e1') ->
  Nf (S754_finite false m2 e2) <= Nf (S754_finite false m2' e2') ->
  Nf (SFmul prec emax (S754_finite false m1 e1) (S754_finite false m2 e2))
  <= Nf (SFmul prec emax (S754_finite false m1' e1') (S754_finite false m2' e2')).
Proof.
  intros V1 V2 V1' V2' H1 H2.
  destruct (SFmul_finite m1 e1 m2 e2 V1 V2) as (S & _ & -> & _).
  destruct (SFmul_finite m1' e1' m2' e2' V1' V2') as (S' & _ & -> & _).
  destruct (valid_finite _ _ _ V1) as (E1 & _).
  destruct (valid_finite _ _ _ V2) as (E2 & _).
  destruct (valid_finite _ _ _ V1') as (E1' & _).
  destruct (valid_finite _ _ _ V2') as (E2' & _).
  apply clip_mono, RN_mono; [exact S | exact S' |].
  rewrite !Z.mul_1_r. cbn [Nf] in H1, H2.
  set (E := Z.min (e1 + e2) (e1' + e2')).
  apply (pow2_shift_le _ _ _ (e1 + e2 + 2148) _ (e1' + e2' + 2148));
    try (subst E; lia).
  replace (e1 + e2 + 2148) with ((e1 + 1074) + (e2 + 1074)) by lia.
  replace (e1' + e2' + 2148) with ((e1' + 1074) + (e2' + 1074)) by lia.
  rewrite (pow2_add (e1 + 1074) (e2 + 1074)), (pow2_add (e1' + 1074) (e2' + 1074)) by lia.
  pose proof (pow2_pos (e1 + 1074) ltac:(lia)).
  pose proof (pow2_pos (e2 + 1074) ltac:(lia)).
  pose proof (pow2_pos (e1' + 1074) ltac:(lia)).
  pose proof (pow2_pos (e2' + 1074) ltac:(lia)).
  replace (Z.pos m1 * Z.pos m2 * (2 ^ (e1 + 1074) * 2 ^ (e2 + 1074)))
    with ((Z.pos m1 * 2 ^ (e1 + 1074)) * (Z.pos m2 * 2 ^ (e2 + 1074))) by ring.
  replace (Z.pos m1' * Z.pos m2' * (2 ^ (e1' + 1074) * 2 ^ (e2' + 1074)))
    with ((Z.pos m1' * 2 ^ (e1' + 1074)) * (Z.pos m2' * 2 ^ (e2' + 1074))) by ring.
  apply Z.mul_le_mono_nonneg; first [lia | apply Z.mul_nonneg_nonneg; lia].
Qed.

Lemma SFdiv_mono (m1 : positive) (e1 : Z) (m2 : positive) (e2 : Z)
                 (m1' : positive) (e1' : Z) (m2' : positive) (e2' : Z) :
  valid_binary (S754_finite false m1 e1) = true ->
  valid_binary (S754_finite false m2 e2) = true ->
  valid_binary (S754_finite false m1' e1') = true ->
  valid_binary (S754_finite false m2' e2') = true ->
  Nf (S754_finite false m1 e1) <= Nf (S754_finite false m1' e1') ->
  Nf (S754_finite false m2' e2') <= Nf (S754_finite false m2 e2) ->
  Nf (SFdiv prec emax (S754_finite false m1 e1) (S754_finite false m2 e2))
  <= Nf (SFdiv prec emax (S754_finite false m1' e1') (S754_finite false m2' e2')).
Proof.
  intros V1 V2 V1' V2' H1 H2.
  destruct (SFdiv_finite m1 e1 m2 e2 V1 V2) as (s & Hs & S & _ & -> & _).
  destruct (SFdiv_finite m1' e1' m2' e2' V1' V2') as (s' & Hs' & S' & _ & -> & _).
  destruct (valid_finite _ _ _ V1) as (E1 & _).
  destruct (valid_finite _ _ _ V2) as (E2 & _).
  destruct (valid_finite _ _ _ V1') as (E1' & _).
  destruct (valid_finite _ _ _ V2') as (E2' & _).
  apply clip_mono, RN_mono; [exact S | exact S' |].
  cbn [Nf] in H1, H2.
  set (E := Z.min (e1 - e2 - s) (e1' - e2' - s')).
  replace (Z.pos m1 * 2 ^ s * Z.pos m2' * 2 ^ (e1 - e2 - s - E))
    with (Z.pos m1 * Z.pos m2' * (2 ^ s * 2 ^ (e1 - e2 - s - E))) by ring.
  replace (Z.pos m1' * 2 ^ s' * Z.pos m2 * 2 ^ (e1' - e2' - s' - E))
    with (Z.pos m1' * Z.pos m2 * (2 ^ s' * 2 ^ (e1' - e2' - s' - E))) by ring.
  rewrite <- !pow2_add by (subst E; lia).
  apply (pow2_shift_le _ _ _ (e1 + e2' + 2148) _ (e1' + e2 + 2148));
    try (subst E; lia).
  replace (e1 + e2' + 2148) with ((e1 + 1074) + (e2' + 1074)) by lia.
  replace (e1' + e2 + 2148) with ((e1' + 1074) + (e2 + 1074)) by lia.
  rewrite (pow2_add (e1 + 1074) (e2' + 1074)), (pow2_add (e1' + 1074) (e2 + 1074)) by lia.
  pose proof (pow2_pos (e1 + 1074) ltac:(lia)).
  pose proof (pow2_pos (e2 + 1074) ltac:(lia)).
  pose proof (pow2_pos (e1' + 1074) ltac:(lia)).
  pose proof (pow2_pos (e2' + 1074) ltac:(lia)).
  replace (Z.pos m1 * Z.pos m2' * (2 ^ (e1 + 1074) * 2 ^ (e2' + 1074)))
    with ((Z.pos m1 * 2 ^ (e1 + 1074)) * (Z.pos m2' * 2 ^ (e2' + 1074))) by ring.
  replace (Z.pos m1' * Z.pos m2 * (2 ^ (e1' + 1074) * 2 ^ (e2 + 1074)))
    with ((Z.pos m1' * 2 ^ (e1' + 1074)) * (Z.pos m2 * 2 ^ (e2 + 1074))) by ring.
  apply Z.mul_le_mono_nonneg; first [lia | apply Z.mul_nonneg_nonneg; lia].
Qed.

(** The float nearest to an integer grows with the integer. *)
Lemma binary_normalize_mono (n n' : Z) :
  0 <= n <= n' ->
  Nf (binary_normalize prec emax n 0 false)
  <= Nf (binary_normalize prec emax n' 0 false).
Proof.
  intros [H0 H]. destruct n as [| p | p]; [apply Nf_nonneg | | lia].
  destruct n' as [| p' | p']; try lia. cbn [binary_normalize].
  destruct (binary_round_spec false p 0) as (j & Hj & S & _ & -> & _).
  destruct (binary_round_spec false p' 0) as (j' & Hj' & S' & _ & -> & _).
  apply clip_mono, RN_mono; [exact S | exact S' |].
  rewrite !Z.mul_1_r.
  set (E := Z.min (0 - j) (0 - j')).
  rewrite <- !Z.mul_assoc, <- !pow2_add by (subst E; lia).
  replace (j + (0 - j - E)) with (- E) by lia.
  replace (j' + (0 - j' - E)) with (- E) by lia.
  apply Z.mul_le_mono_nonneg_r; [| exact H].
  apply Z.pow_nonneg. lia.
Qed.

End Rounding.

(** ** Order and bounds of binary64 results *)
Module Binary64Bounds.
Import Rounding.
Local Open Scope Z_scope.

(** The value of a number in units of 2^-1074; infinity counts as 2^2098. *)
Definition units (x : float) : Z := Nf (Prim2SF x).

(** Not NaN and not below zero. *)
Definition nonneg (x : float) : Prop := nonnegative (Prim2SF x).

(** Zero or a positive finite number. *)
Definition finite_nn (a : spec_float) : Prop :=
  match a with
  | S754_zero _ | S754_finite false _ _ => True
  | _ => False
  end.

Definition finite (x : float) : Prop := finite_nn (Prim2SF x).

Definition posfinite (x : float) : Prop :=
  match Prim2SF x with
  | S754_finite false _ _ => True
  | _ => False
  end.

Lemma units_nonneg (x : float) : 0 <= units x.
Proof. apply Nf_nonneg. Qed.

Lemma finite_nonneg (x : float) : finite x -> nonneg x.
Proof.
  unfold finite, nonneg.
  destruct (Prim2SF x) as [s | s | | [] m e]; cbn [finite_nn nonnegative];
    intros H; try contradiction; try exact I; reflexivity.
Qed.

Lemma posfinite_finite (x : float) : posfinite x -> finite x.
Proof.
  unfold finite, posfinite.
  destruct (Prim2SF x) as [s | s | | [] m e]; cbn [finite_nn];
    intros H; try contradiction; exact I.
Qed.

Lemma posfinite_units (x : float) : posfinite x -> 0 < units x.
Proof.
  unfold posfinite, units. pose proof (Prim2SF_valid x) as V.
  destruct (Prim2SF x) as [s | s | | [] m e]; try contradiction.
  intros _. apply (Nf_finite_pos _ _ _ V).
Qed.

Lemma finite_units (x : float) : finite x -> units x < 2 ^ 2098.
Proof.
  unfold finite, units. pose proof (Prim2SF_valid x) as V.
  destruct (Prim2SF x) as [s | s | | [] m e]; cbn [finite_nn]; try contradiction; intros _.
  - cbn [Nf]. apply pow2_pos. lia.
  - apply (Nf_finite_pos _ _ _ V).
Qed.

Lemma finite_of_bound (x : float) : nonneg x -> units x < 2 ^ 2098 -> finite x.
Proof.
  unfold finite, nonneg, units.
  destruct (Prim2SF x) as [s | s | | s m e]; cbn [nonnegative finite_nn Nf];
    try contradiction; auto; try lia.
  intros ->. exact (fun _ => I).
Qed.

Lemma posfinite_of_bound (x : float) : finite x -> 0 < units x -> posfinite x.
Proof.
  unfold finite, posfinite, units.
  destruct (Prim2SF x) as [s | s | | [] m e]; cbn [finite_nn Nf]; try contradiction; auto; lia.
Qed.

(** Comparisons of numbers that are not negative are comparisons of units. *)
Lemma SFcompare_units (x y : float) :
  nonneg x -> nonneg y ->
  SFcompare (Prim2SF x) (Prim2SF y) = Some (units x ?= units y).
Proof.
  intros Hx Hy. apply SFcompare_Nf; try apply Prim2SF_valid; assumption.
Qed.

Lemma leb_units (x y : float) :
  nonneg x -> nonneg y -> (x <=? y)%float = (units x <=? units y).
Proof.
  intros Hx Hy. rewrite leb_spec. unfold SFleb.
  rewrite SFcompare_units by assumption. unfold Z.leb.
  destruct (units x ?= units y); reflexivity.
Qed.

Lemma ltb_units (x y : float) :
  nonneg x -> nonneg y -> (x <? y)%float = (units x <? units y).
Proof.
  intros Hx Hy. rewrite ltb_spec. unfold SFltb.
  rewrite SFcompare_units by assumption. unfold Z.ltb.
  destruct (units x ?= units y); reflexivity.
Qed.

Lemma nonneg_of_leb (lo x : float) :
  nonneg lo -> (lo <=? x)%float = true -> nonneg x.
Proof.
  unfold nonneg. rewrite leb_spec. unfold SFleb, SFcompare.
  destruct (Prim2SF lo) as [s | s | | s m e], (Prim2SF x) as [t | t | | t n k];
    cbn [nonnegative]; intros Hlo H; try contradiction; try exact I; subst;
    try discriminate H; destruct t; try reflexivity; discriminate H.
Qed.

Lemma nonneg_of_ltb (lo x : float) :
  nonneg lo -> (lo <? x)%float = true -> nonneg x.
Proof.
  unfold nonneg. rewrite ltb_spec. unfold SFltb, SFcompare.
  destruct (Prim2SF lo) as [s | s | | s m e], (Prim2SF x) as [t | t | | t n k];
    cbn [nonnegative]; intros Hlo H; try contradiction; try exact I; subst;
    try discriminate H; destruct t; try reflexivity; discriminate H.
Qed.

(** A number between two finite bounds. *)
Lemma bounds_of_leb (lo hi x : float) :
  finite lo -> finite hi ->
  (lo <=? x)%float = true -> (x <=? hi)%float = true ->
  finite x /\ units lo <= units x <= units hi.
Proof.
  intros Hlo Hhi L U.
  pose proof (finite_nonneg lo Hlo) as Nlo. pose proof (finite_nonneg hi Hhi) as Nhi.
  pose proof (nonneg_of_leb lo x Nlo L) as Nx.
  rewrite leb_units in L, U by assumption.
  apply Z.leb_le in L. apply Z.leb_le in U.
  pose proof (finite_units hi Hhi).
  split; [apply finite_of_bound; [assumption | lia] | lia].
Qed.

Lemma not_nan_of_nonneg (x : float) : nonneg x -> is_nan x = false.
Proof.
  intros H. destruct (is_nan x) eqn:E; [| reflexivity].
  apply Binary64Facts.is_nan_spec in E. unfold nonneg in H. rewrite E in H.
  contradiction.
Qed.

Lemma SFmul_mono_nn (a b a' b' : spec_float) :
  valid_binary a = true -> valid_binary b = true ->
  valid_binary a' = true -> valid_binary b' = true ->
  finite_nn a -> finite_nn b -> finite_nn a' -> finite_nn b' ->
  Nf a <= Nf a' -> Nf b <= Nf b' ->
  nonnegative (SFmul prec emax a b)
  /\ Nf (SFmul prec emax a b) <= Nf (SFmul prec emax a' b').
Proof.
  intros Va Vb Va' Vb' Fa Fb Fa' Fb' Ha Hb.
  destruct a as [sa | sa | | [] ma ea]; cbn [finite_nn] in Fa; try contradiction;
    destruct b as [sb | sb | | [] mb eb]; cbn [finite_nn] in Fb; try contradiction;
    try (split; [exact I | apply Nf_nonneg]).
  pose proof (Nf_finite_pos _ _ _ Va) as [Pa _].
  pose proof (Nf_finite_pos _ _ _ Vb) as [Pb _].
  destruct a' as [sa' | sa' | | [] ma' ea']; cbn [finite_nn] in Fa'; try contradiction;
    [cbn [Nf] in *; lia |].
  destruct b' as [sb' | sb' | | [] mb' eb']; cbn [finite_nn] in Fb'; try contradiction;
    [cbn [Nf] in *; lia |].
  split.
  - apply signed_nonnegative. apply (SFmul_finite ma ea mb eb Va Vb).
  - apply SFmul_mono; assumption.
Qed.

Lemma SFdiv_mono_nn (a c a' c' : spec_float) :
  valid_binary a = true -> valid_binary c = true ->
  valid_binary a' = true -> valid_binary c' = true ->
  finite_nn a -> finite_nn a' -> finite_nn c -> finite_nn c' ->
  0 < Nf c' -> Nf a <= Nf a' -> Nf c' <= Nf c ->
  nonnegative (SFdiv prec emax a c)
  /\ Nf (SFdiv prec emax a c) <= Nf (SFdiv prec emax a' c').
Proof.
  intros Va Vc Va' Vc' Fa Fa' Fc Fc' Pc' Ha Hc.
  destruct c as [sc | sc | | [] mc ec]; cbn [finite_nn] in Fc; try contradiction;
    [cbn [Nf] in *; lia |].
  destruct c' as [sc' | sc' | | [] mc' ec']; cbn [finite_nn] in Fc'; try contradiction;
    [cbn [Nf] in *; lia |].
  destruct a as [sa | sa | | [] ma ea]; cbn [finite_nn] in Fa; try contradiction;
    try (split; [exact I | apply Nf_nonneg]).
  pose proof (Nf_finite_pos _ _ _ Va) as [Pa _].
  destruct a' as [sa' | sa' | | [] ma' ea']; cbn [finite_nn] in Fa'; try contradiction;
    [cbn [Nf] in *; lia |].
  split.
  - destruct (SFdiv_finite ma ea mc ec Va Vc) as (s & _ & _ & Sg & _).
    apply signed_nonnegative. exact Sg.
  - apply SFdiv_mono; assumption.
Qed.

(** Rounded products keep the order of their factors. *)
Lemma mul_mono (x y x' y' : float) :
  finite x -> finite y -> finite x' -> finite y' ->
  units x <= units x' -> units y <= units y' ->
  nonneg (x * y) /\ units (x * y) <= units (x' * y').
Proof.
  unfold finite, nonneg, units. rewrite !mul_spec.
  intros. apply SFmul_mono_nn; try apply Prim2SF_valid; assumption.
Qed.

(** Rounded quotients grow with the dividend and shrink with the divisor. *)
Lemma div_mono (x c x' c' : float) :
  finite x -> finite x' -> posfinite c -> posfinite c' ->
  units x <= units x' -> units c' <= units c ->
  nonneg (x / c) /\ units (x / c) <= units (x' / c').
Proof.
  intros Fx Fx' Pc Pc' Hx Hc.
  pose proof (posfinite_units c' Pc') as U.
  apply posfinite_finite in Pc. apply posfinite_finite in Pc'.
  unfold finite, nonneg, units in *. rewrite !div_spec.
  apply SFdiv_mono_nn; try apply Prim2SF_valid; assumption.
Qed.

Lemma get_sign_posfinite (l : float) : posfinite l -> get_sign l = false.
Proof.
  intros P. unfold get_sign.
  destruct (is_zero l) eqn:Z.
  - apply Binary64Facts.is_zero_spec in Z. destruct Z as [s Z].
    unfold posfinite in P. rewrite Z in P. contradiction.
  - rewrite ltb_spec. unfold posfinite in P.
    change (Prim2SF zero) with (S754_zero false).
    destruct (Prim2SF l) as [s | s | | [] m e]; try contradiction. reflexivity.
Qed.

(** [Math.max] of two numbers that are not negative. *)
Lemma max_units (a b : float) :
  nonneg a -> nonneg b ->
  nonneg (Binary64.max a b) /\ units (Binary64.max a b) = Z.max (units a) (units b).
Proof.
  intros Ha Hb. unfold Binary64.max.
  rewrite (not_nan_of_nonneg a Ha), (not_nan_of_nonneg b Hb). cbn [orb].
  rewrite !ltb_units by assumption.
  destruct (Z.ltb_spec (units a) (units b)) as [L | L].
  - split; [assumption | lia].
  - destruct (Z.ltb_spec (units b) (units a)) as [L' | L'].
    + split; [assumption | lia].
    + destruct (get_sign a); split; try assumption; lia.
Qed.

(** [Math.max(l, c - z)] for positive [l <= c] and [z] not negative lies
    between [l] and [c]: the shape of both clamped factors. *)
Lemma clamp_sub (l c z : float) :
  posfinite l -> posfinite c -> units l <= units c -> nonneg z ->
  posfinite (Binary64.max l (c - z))
  /\ units l <= units (Binary64.max l (c - z)) <= units c.
Proof.
  intros Pl Pc Hlc Nz.
  pose proof (finite_nonneg l (posfinite_finite l Pl)) as Nl.
  assert (Y : Prim2SF (c - z) <> S754_nan
              /\ (nonneg (c - z) -> units (c - z) <= units c)).
  { unfold nonneg, units. rewrite sub_spec.
    pose proof (Prim2SF_valid c) as Vc. unfold posfinite in Pc.
    destruct (Prim2SF c) as [s | s | | [] m e]; try contradiction.
    apply SFsub_le; [exact Vc | apply Prim2SF_valid | exact Nz]. }
  destruct Y as [Yn Yle].
  assert (In : is_nan (c - z) = false).
  { destruct (is_nan (c - z)) eqn:E; [| reflexivity].
    apply Binary64Facts.is_nan_spec in E. contradiction. }
  unfold Binary64.max. rewrite (not_nan_of_nonneg l Nl), In. cbn [orb].
  destruct (l <? c - z)%float eqn:L.
  - pose proof (nonneg_of_ltb l (c - z) Nl L) as Ny.
    rewrite ltb_units in L by assumption. apply Z.ltb_lt in L.
    specialize (Yle Ny).
    pose proof (posfinite_units l Pl).
    pose proof (finite_units c (posfinite_finite c Pc)).
    split; [| lia].
    apply posfinite_of_bound; [apply finite_of_bound; [assumption | lia] | lia].
  - rewrite (get_sign_posfinite l Pl).
    destruct (c - z <? l)%float; split; try assumption; lia.
Qed.

(** Results that are not negative, whatever their size. *)
Lemma mul_nonneg (a b : float) : posfinite a -> nonneg b -> nonneg (a * b).
Proof.
  unfold posfinite, nonneg. rewrite mul_spec. intros Pa Nb.
  apply SFmul_nonnegative; [| exact Nb |];
    destruct (Prim2SF a) as [s | s | | [] m e]; try contradiction;
    try reflexivity; destruct (Prim2SF b); exact I.
Qed.

Lemma square_nonneg (x : float) : nonneg x -> nonneg (x * x).
Proof.
  unfold nonneg. rewrite mul_spec. intros Nx.
  apply SFmul_nonnegative; try exact Nx.
  destruct (Prim2SF x); exact I.
Qed.

Lemma add_nonneg (a b : float) : nonneg a -> nonneg b -> nonneg (a + b).
Proof. unfold nonneg. rewrite add_spec. apply SFadd_nonnegative. Qed.

Lemma sqrt_nonneg (x : float) : nonneg x -> nonneg (PrimFloat.sqrt x).
Proof. unfold nonneg. rewrite sqrt_spec. apply SFsqrt_nonnegative. Qed.

Lemma abs_sub_nonneg (t c : float) :
  is_nan t = false -> posfinite c -> nonneg (PrimFloat.abs (t - c)).
Proof.
  unfold nonneg, posfinite. rewrite abs_spec, sub_spec. intros Ht Pc.
  apply SFabs_nonnegative.
  destruct (Prim2SF c) as [s | s | | s m e]; try contradiction.
  apply SFsub_not_nan. intros E. apply Binary64Facts.is_nan_spec in E. congruence.
Qed.


(** The digits that [toFixed(f)] prints, as a function of the units. *)
Definition digitsOf (f : nat) (u : Z) : Z :=
  (2 * 10 ^ Z.of_nat f * u + 2 ^ 1074) / 2 ^ 1075.

Lemma digitsOf_mono (f : nat) (u v : Z) : u <= v -> digitsOf f u <= digitsOf f v.
Proof.
  intros H. unfold digitsOf. apply Z.div_le_mono; [apply pow2_pos; lia |].
  assert (0 <= 10 ^ Z.of_nat f) by (apply Z.pow_nonneg; lia). nia.
Qed.

Lemma digitsOf_nonneg (f : nat) (u : Z) : 0 <= u -> 0 <= digitsOf f u.
Proof.
  intros H. unfold digitsOf. apply Z.div_pos; [| apply pow2_pos; lia].
  assert (0 <= 10 ^ Z.of_nat f) by (apply Z.pow_nonneg; lia).
  pose proof (pow2_pos 1074 ltac:(lia)). nia.
Qed.

Lemma nearest_units (a : spec_float) (f : nat) :
  valid_binary a = true -> finite_nn a ->
  Binary64.nearest a f = digitsOf f (Nf a).
Proof.
  intros V F. unfold digitsOf.
  pose proof (pow2_pos 1074 ltac:(lia)) as P.
  assert (P2 : 2 ^ 1075 = 2 * 2 ^ 1074) by (apply (pow2_succ 1074); lia).
  destruct a as [s | s | | [] m e]; cbn [finite_nn] in F; try contradiction.
  - cbn [Binary64.nearest Nf]. rewrite Z.mul_0_r, Z.add_0_l.
    symmetry. apply Z.div_small. lia.
  - destruct (valid_finite _ _ _ V) as (E & _).
    cbn [Binary64.nearest Nf].
    set (p := Z.pos m * 10 ^ Z.of_nat f).
    destruct (Z.leb_spec 0 e) as [L | L].
    + apply (Z.div_unique_pos _ _ _ (2 ^ 1074)); [lia |].
      rewrite P2. replace (e + 1074) with (1074 + e) by lia.
      rewrite pow2_add by lia. subst p. ring.
    + rewrite <- (Z.div_mul_cancel_r _ _ (2 ^ (e + 1074)))
        by (pose proof (pow2_pos (e + 1074)); pose proof (pow2_pos (1 - e)); lia).
      f_equal.
      * rewrite Z.mul_add_distr_r, <- pow2_add by lia.
        replace (- e + (e + 1074)) with 1074 by lia. subst p. ring.
      * rewrite <- pow2_add by lia. f_equal. lia.
Qed.

Lemma abs_finite (x : float) :
  finite x -> finite (PrimFloat.abs x) /\ units (PrimFloat.abs x) = units x.
Proof.
  unfold finite, units. rewrite abs_spec.
  destruct (Prim2SF x) as [s | s | | [] m e]; cbn [finite_nn]; try contradiction;
    intros _; split; reflexivity || exact I.
Qed.

(** [toFixed] of a finite number that is not negative and below 1e21. *)
Lemma toFixed_finite (x : float) (f : nat) :
  finite x -> units x < units 1e21 ->
  Binary64.toFixed x f = Digits false (digitsOf f (units x)) f.
Proof.
  intros F B. pose proof (finite_nonneg x F) as Nx.
  destruct (abs_finite x F) as [Fa Ua].
  pose proof (finite_nonneg _ Fa) as Na.
  unfold Binary64.toFixed.
  rewrite (not_nan_of_nonneg x Nx). cbn [orb].
  assert (I1 : is_infinity x = false).
  { unfold is_infinity. rewrite FloatAxioms.eqb_spec. unfold SFeqb.
    rewrite (SFcompare_units (PrimFloat.abs x) infinity Na ltac:(reflexivity)).
    pose proof (finite_units _ Fa) as T.
    change (units infinity) with (2 ^ 2098).
    apply Z.compare_lt_iff in T. rewrite T. reflexivity. }
  rewrite I1.
  assert (I2 : (1e21 <=? PrimFloat.abs x)%float = false).
  { rewrite leb_units by (assumption || reflexivity).
    apply Z.leb_gt. lia. }
  rewrite I2.
  assert (I3 : (x <? 0)%float = false).
  { rewrite ltb_units by (assumption || exact I).
    apply Z.ltb_ge. apply Nf_nonneg. }
  rewrite I3. f_equal.
  rewrite nearest_units by (apply Prim2SF_valid || exact Fa).
  f_equal. exact Ua.
Qed.

(** [Number(s)] of a digit string with one decimal grows with its digits. *)
Lemma of_Z_mono (n n' : Z) :
  0 <= n <= n' ->
  nonneg (Binary64.of_Z n) /\ units (Binary64.of_Z n) <= units (Binary64.of_Z n').
Proof.
  intros H. unfold nonneg, units, Binary64.of_Z.
  destruct (binary_normalize_signed n 0) as (_ & V & Sg).
  destruct (binary_normalize_signed n' 0) as (_ & V' & _).
  rewrite !Prim2SF_SF2Prim by assumption.
  split; [apply signed_nonnegative, Sg; lia | apply binary_normalize_mono; exact H].
Qed.

Lemma tenths_order (n n' : Z) :
  0 <= n <= n' -> n' <= 60000 ->
  (Number_of_fixed (Digits false n 1) <=? Number_of_fixed (Digits false n' 1))%float
  = true.
Proof.
  intros H B. cbn [Number_of_fixed]. js_float. unfold Binary64.literal.
  cbn [Qnum Qden].
  change (Binary64.of_Z (Z.pos (Z.to_pos (10 ^ Z.of_nat 1)))) with 10%float.
  destruct (of_Z_mono n n' H) as [Nn L].
  destruct (of_Z_mono n' 60000 ltac:(lia)) as [Nn' L'].
  assert (F' : finite (Binary64.of_Z n')).
  { apply finite_of_bound; [exact Nn' |].
    pose proof (finite_units (Binary64.of_Z 60000) I). lia. }
  assert (F : finite (Binary64.of_Z n)).
  { apply finite_of_bound; [exact Nn |]. pose proof (finite_units _ F'). lia. }
  destruct (div_mono _ 10 _ 10 F F' I I L ltac:(lia)) as [N1 L1].
  destruct (div_mono _ 10 _ 10 F' F' I I ltac:(lia) ltac:(lia)) as [N2 _].
  rewrite leb_units by assumption. apply Z.leb_le. exact L1.
Qed.

(** A product of several factors, multiplied from the left as the source
    writes it. *)
Definition products (x : float) (ys : list float) : float :=
  fold_left PrimFloat.mul ys x.

Fixpoint allFinite (x : float) (ys : list float) : Prop :=
  finite x
  /\ match ys with
     | [] => True
     | y :: r => finite y /\ allFinite (x * y) r
     end.

Lemma products_mono (ys ys' : list float) :
  Forall2 (fun y y' => finite y /\ units y <= units y') ys ys' ->
  forall x x' : float,
    finite x -> units x <= units x' -> allFinite x' ys' ->
    allFinite x ys /\ units (products x ys) <= units (products x' ys').
Proof.
  induction 1 as [| y y' ys ys' [Fy Hy] _ IH]; intros x x' Fx Hx A.
  - cbn. auto.
  - cbn [allFinite] in A. destruct A as (Fx' & Fy' & A).
    destruct (mul_mono x y x' y' Fx Fy Fx' Fy' Hx Hy) as [Nn Le].
    assert (F : finite (x * y)).
    { apply finite_of_bound; [exact Nn |].
      assert (FA : finite (x' * y')) by (destruct ys'; apply A).
      pose proof (finite_units _ FA). lia. }
    destruct (IH (x * y)%float (x' * y')%float F Le A) as [A' L'].
    split; [| exact L'].
    cbn [allFinite]. auto.
Qed.

Lemma allFinite_last (ys : list float) (x : float) :
  allFinite x ys -> finite (products x ys).
Proof.
  revert x. induction ys as [| y r IH]; intros x A.
  - apply A.
  - cbn [products fold_left]. apply IH. apply A.
Qed.

End Binary64Bounds.

(** ** Schema A: the range on inputs inside the ranges of the form *)
Module SchemaA_bounds.
Import SchemaA Binary64Bounds.
Local Open Scope float_scope.

(** [lo <= x <= hi], as the [min] and [max] of an input enforce it. *)
Definition between (lo hi x : float) : Prop :=
  (lo <=? x) = true /\ (x <=? hi) = true.

(** The ranges of the inputs other than the state of charge; the two ages
    may be as large as one likes. *)
Definition inputsInRange
  (batteryCapacity drivingConsumption temperature baseEfficiency
   chargingDegradation batteryAgeCycles batteryAgeYears terrainFactor
   climateFactor regenFactor : float) : Prop :=
  between 10 200 batteryCapacity
  /\ between 5 50 drivingConsumption
  /\ between (-20) 50 temperature
  /\ between 0.5 1 baseEfficiency
  /\ between 0.5 1 chargingDegradation
  /\ (0 <=? batteryAgeCycles) = true
  /\ (0 <=? batteryAgeYears) = true
  /\ between 1 2 terrainFactor
  /\ between 0.5 1 climateFactor
  /\ between 1 1.5 regenFactor.

Lemma between_finite (lo hi x : float) :
  finite lo -> finite hi -> between lo hi x ->
  finite x /\ (units lo <= units x <= units hi)%Z.
Proof. intros Hlo Hhi [L U]. now apply bounds_of_leb. Qed.

Lemma between_posfinite (lo hi x : float) :
  posfinite lo -> finite hi -> between lo hi x ->
  posfinite x /\ (units lo <= units x <= units hi)%Z.
Proof.
  intros Hlo Hhi B.
  destruct (between_finite lo hi x (posfinite_finite lo Hlo) Hhi B) as [F U].
  split; [| exact U].
  apply posfinite_of_bound; [exact F |].
  pose proof (posfinite_units lo Hlo). lia.
Qed.

Lemma leb_not_nan (a x : float) : (a <=? x) = true -> is_nan x = false.
Proof.
  intros H. destruct (is_nan x) eqn:E; [| reflexivity].
  apply Binary64Facts.is_nan_spec in E.
  rewrite leb_spec, E in H. unfold SFleb, SFcompare in H.
  destruct (Prim2SF a); discriminate H.
Qed.

(** Degradation lies between 0.7 and 1 for ages that are not negative. *)
Lemma degradation_bounds (batteryAgeCycles batteryAgeYears : float) :
  nonneg batteryAgeCycles -> nonneg batteryAgeYears ->
  posfinite (degradation batteryAgeCycles batteryAgeYears)
  /\ (units 0.7 <= units (degradation batteryAgeCycles batteryAgeYears) <= units 1)%Z.
Proof.
  intros Hc Hy. unfold degradation, cycleDegradation, calendarDegradation, pow2.
  js_float.
  apply (clamp_sub (Binary64.literal 0.7) (Binary64.literal 1)).
  - exact I.
  - exact I.
  - vm_compute. discriminate.
  - apply add_nonneg.
    + apply add_nonneg.
      * apply mul_nonneg; [exact I | exact Hc].
      * apply mul_nonneg; [exact I | apply square_nonneg; exact Hc].
    + apply mul_nonneg; [exact I | apply sqrt_nonneg; exact Hy].
Qed.

(** The temperature factor lies between 0.7 and 1 for every temperature. *)
Lemma tempFactor_bounds (temperature : float) :
  is_nan temperature = false ->
  posfinite (tempFactor temperature)
  /\ (units 0.7 <= units (tempFactor temperature) <= units 1)%Z.
Proof.
  intros Ht. unfold tempFactor. js_float.
  apply (clamp_sub (Binary64.literal 0.7) (Binary64.literal 1.0)).
  - exact I.
  - exact I.
  - vm_compute. discriminate.
  - apply mul_nonneg; [exact I |].
    apply abs_sub_nonneg; [exact Ht | exact I].
Qed.

(** [const range] of [calculateRange] as a chain of products. *)
Lemma rawRange_products
  (s cap dc t be cd cyc yrs tf : float) (cc : bool) (cf : float) (rb : bool) (rf : float) :
  rawRange s cap dc t be cd cyc yrs tf cc cf rb rf
  = products cap
      [s / 100; degradation cyc yrs; be; cd; tempFactor t;
       if cc then cf else 1; if rb then rf else 1]
    / (dc * tf) * 100.
Proof. destruct cc, rb; reflexivity. Qed.

(** The largest range inside the ranges of the form: 6000 km. *)
Definition largestRange : float := 200 * (100 / 100) * 1 * 1 * 1 * 1 * 1 * 1.5 / (5 * 1) * 100.

Lemma largestRange_value : largestRange = 6000.
Proof. reflexivity. Qed.

(** What the ranges of the form give for the factors of the product. *)
Lemma factors_in_range
  (cap dc t be cd cyc yrs tf : float) (cc : bool) (cf : float) (rb : bool) (rf : float) :
  inputsInRange cap dc t be cd cyc yrs tf cf rf ->
  (finite cap /\ (units cap <= units 200)%Z)
  /\ Forall2 (fun y y' => finite y /\ (units y <= units y')%Z)
       [degradation cyc yrs; be; cd; tempFactor t;
        if cc then cf else 1; if rb then rf else 1]
       [1; 1; 1; 1; 1; 1.5]
  /\ posfinite dc /\ posfinite tf /\ posfinite (dc * tf)
  /\ (units (5 * 1) <= units (dc * tf))%Z.
Proof.
  intros (Bcap & Bdc & Bt & Bbe & Bcd & Bcyc & Byrs & Btf & Bcf & Brf).
  destruct (between_finite 10 200 cap I I Bcap) as [Fcap [_ Ucap]].
  destruct (between_posfinite 5 50 dc I I Bdc) as [Pdc [Ldc Udc]].
  destruct (between_finite 0.5 1 be I I Bbe) as [Fbe [_ Ube]].
  destruct (between_finite 0.5 1 cd I I Bcd) as [Fcd [_ Ucd]].
  destruct (between_posfinite 1 2 tf I I Btf) as [Ptf [Ltf Utf]].
  destruct (between_finite 0.5 1 cf I I Bcf) as [Fcf [_ Ucf]].
  destruct (between_finite 1 1.5 rf I I Brf) as [Frf [_ Urf]].
  pose proof (nonneg_of_leb 0 cyc I Bcyc) as Ncyc.
  pose proof (nonneg_of_leb 0 yrs I Byrs) as Nyrs.
  destruct (degradation_bounds cyc yrs Ncyc Nyrs) as [PD [_ UD]].
  destruct (tempFactor_bounds t (leb_not_nan _ _ (proj1 Bt))) as [PT [_ UT]].
  assert (Fecf : finite (if cc then cf else 1)
                 /\ (units (if cc then cf else 1) <= units 1)%Z).
  { destruct cc; [split; assumption | split; [exact I | lia]]. }
  assert (Ferf : finite (if rb then rf else 1)
                 /\ (units (if rb then rf else 1) <= units 1.5)%Z).
  { destruct rb; [split; assumption | split; [exact I |]].
    vm_compute. discriminate. }
  split; [split; assumption |]. split.
  { repeat constructor; try assumption; try apply Fecf; try apply Ferf;
      apply posfinite_finite; assumption. }
  split; [exact Pdc |]. split; [exact Ptf |].
  destruct (mul_mono 5 1 dc tf I I (posfinite_finite _ Pdc) (posfinite_finite _ Ptf)
              Ldc Ltf) as [_ Lo].
  destruct (mul_mono dc tf 50 2 (posfinite_finite _ Pdc) (posfinite_finite _ Ptf) I I
              Udc Utf) as [Nn Hi].
  split; [| exact Lo].
  apply posfinite_of_bound.
  - apply finite_of_bound; [exact Nn |].
    pose proof (finite_units (50 * 2) I). lia.
  - pose proof (posfinite_units (5 * 1) I). lia.
Qed.

(** In binary64, for inputs inside the ranges of the form, the range does
    not shrink when the state of charge, the capacity, the efficiencies or
    the effective climate and regeneration factors grow, nor when the
    consumption or the terrain factor shrink; and it never exceeds
    [largestRange]. *)
Lemma rawRange_order
  (s s' cap cap' dc dc' t be be' cd cd' cyc yrs tf tf' : float)
  (cc cc' : bool) (cf cf' : float) (rb rb' : bool) (rf rf' : float) :
  inputsInRange cap dc t be cd cyc yrs tf cf rf ->
  inputsInRange cap' dc' t be' cd' cyc yrs tf' cf' rf' ->
  finite s -> finite s' -> (units s <= units s')%Z -> (units s' <= units 100)%Z ->
  (units cap <= units cap')%Z -> (units dc' <= units dc)%Z ->
  (units be <= units be')%Z -> (units cd <= units cd')%Z ->
  (units tf' <= units tf)%Z ->
  (units (if cc then cf else 1) <= units (if cc' then cf' else 1))%Z ->
  (units (if rb then rf else 1) <= units (if rb' then rf' else 1))%Z ->
  finite (rawRange s cap dc t be cd cyc yrs tf cc cf rb rf)
  /\ finite (rawRange s' cap' dc' t be' cd' cyc yrs tf' cc' cf' rb' rf')
  /\ (units (rawRange s cap dc t be cd cyc yrs tf cc cf rb rf)
      <= units (rawRange s' cap' dc' t be' cd' cyc yrs tf' cc' cf' rb' rf'))%Z
  /\ (units (rawRange s' cap' dc' t be' cd' cyc yrs tf' cc' cf' rb' rf')
      <= units largestRange)%Z.
Proof.
  intros Hin Hin' Fs Fs' Hss' Hs' Hcap Hdc Hbe Hcd Htf Hcf Hrf.
  rewrite !rawRange_products.
  destruct (factors_in_range cap dc t be cd cyc yrs tf cc cf rb rf Hin)
    as ([Fcap _] & FF & Pdc & Ptf & Pec & _).
  destruct (factors_in_range cap' dc' t be' cd' cyc yrs tf' cc' cf' rb' rf' Hin')
    as ([Fcap' Ucap'] & FF' & Pdc' & Ptf' & Pec' & Lec').
  set (D := degradation cyc yrs) in *. set (T := tempFactor t) in *.
  set (ecf := if cc then cf else 1) in *. set (erf := if rb then rf else 1) in *.
  set (ecf' := if cc' then cf' else 1) in *. set (erf' := if rb' then rf' else 1) in *.
  (* the fractions of charge *)
  destruct (div_mono s 100 s' 100 Fs Fs' I I Hss' ltac:(lia)) as [Nq Lq].
  destruct (div_mono s' 100 100 100 Fs' I I I Hs' ltac:(lia)) as [Nq' Lq'].
  assert (Fq' : finite (s' / 100)).
  { apply finite_of_bound; [exact Nq' |].
    pose proof (finite_units (100 / 100) I). lia. }
  assert (Fq : finite (s / 100)).
  { apply finite_of_bound; [exact Nq |]. pose proof (finite_units _ Fq'). lia. }
  (* the products *)
  destruct (products_mono
              [s' / 100; D; be'; cd'; T; ecf'; erf'] [100 / 100; 1; 1; 1; 1; 1; 1.5])
    with (x := cap') (x' := 200) as [A' LP'].
  { constructor; [split; assumption | exact FF']. }
  { exact Fcap'. }
  { exact Ucap'. }
  { vm_compute. tauto. }
  destruct (products_mono
              [s / 100; D; be; cd; T; ecf; erf] [s' / 100; D; be'; cd'; T; ecf'; erf'])
    with (x := cap) (x' := cap') as [A LP].
  { inversion FF as [| ? ? ? ? [FD _] FF1]; subst.
    inversion FF1 as [| ? ? ? ? [Fbe _] FF2]; subst.
    inversion FF2 as [| ? ? ? ? [Fcd _] FF3]; subst.
    inversion FF3 as [| ? ? ? ? [FT _] FF4]; subst.
    inversion FF4 as [| ? ? ? ? [Fecf _] FF5]; subst.
    inversion FF5 as [| ? ? ? ? [Ferf _] FF6]; subst.
    repeat constructor; try assumption; lia. }
  { exact Fcap. }
  { exact Hcap. }
  { exact A'. }
  apply allFinite_last in A. apply allFinite_last in A'.
  set (P := products cap [s / 100; D; be; cd; T; ecf; erf]) in *.
  set (P' := products cap' [s' / 100; D; be'; cd'; T; ecf'; erf']) in *.
  set (Phi := products 200 [100 / 100; 1; 1; 1; 1; 1; 1.5]) in *.
  assert (FPhi : finite Phi) by exact I.
  assert (Hec : (units (dc' * tf') <= units (dc * tf))%Z).
  { apply (mul_mono dc' tf' dc tf); try apply posfinite_finite; assumption. }
  destruct (div_mono P (dc * tf) P' (dc' * tf') A A' Pec Pec' LP Hec) as [N1 L1].
  destruct (div_mono P' (dc' * tf') Phi (5 * 1) A' FPhi Pec' I LP' Lec') as [N2 L2].
  assert (F2 : finite (P' / (dc' * tf'))).
  { apply finite_of_bound; [exact N2 |].
    pose proof (finite_units (Phi / (5 * 1)) I). lia. }
  assert (F1 : finite (P / (dc * tf))).
  { apply finite_of_bound; [exact N1 |]. pose proof (finite_units _ F2). lia. }
  destruct (mul_mono (P / (dc * tf)) 100 (P' / (dc' * tf')) 100 F1 I F2 I L1 ltac:(lia))
    as [N3 L3].
  destruct (mul_mono (P' / (dc' * tf')) 100 (Phi / (5 * 1)) 100 F2 I I I L2 ltac:(lia))
    as [N4 L4].
  change (Phi / (5 * 1) * 100) with largestRange in L4.
  assert (F4 : finite (P' / (dc' * tf') * 100)).
  { apply finite_of_bound; [exact N4 |].
    pose proof (finite_units largestRange I). lia. }
  assert (F3 : finite (P / (dc * tf) * 100)).
  { apply finite_of_bound; [exact N3 |]. pose proof (finite_units _ F4). lia. }
  auto.
Qed.

(** The range grows with the state of charge, all else fixed. *)
Lemma rawRange_mono
  (s s' cap dc t be cd cyc yrs tf : float) (cc : bool) (cf : float) (rb : bool) (rf : float) :
  inputsInRange cap dc t be cd cyc yrs tf cf rf ->
  finite s -> finite s' -> (units s <= units s')%Z -> (units s' <= units 100)%Z ->
  finite (rawRange s cap dc t be cd cyc yrs tf cc cf rb rf)
  /\ finite (rawRange s' cap dc t be cd cyc yrs tf cc cf rb rf)
  /\ (units (rawRange s cap dc t be cd cyc yrs tf cc cf rb rf)
      <= units (rawRange s' cap dc t be cd cyc yrs tf cc cf rb rf))%Z
  /\ (units (rawRange s' cap dc t be cd cyc yrs tf cc cf rb rf)
      <= units largestRange)%Z.
Proof.
  intros Hin Fs Fs' Hss' Hs'.
  apply rawRange_order; try assumption; lia.
Qed.

(** The range that [calculateRange] returns is a digit string without sign,
    the digits being those of the unclamped range. *)
Lemma range_digits
  (s cap dc t be cd cyc yrs tf : float) (cc : bool) (cf : float) (rb : bool) (rf : float) :
  inputsInRange cap dc t be cd cyc yrs tf cf rf ->
  finite s -> (units s <= units 100)%Z ->
  Stats.range (calculateRange s cap dc t be cd cyc yrs tf cc cf rb rf)
  = Digits false (digitsOf 1 (units (rawRange s cap dc t be cd cyc yrs tf cc cf rb rf))) 1
  /\ (0 <= digitsOf 1 (units (rawRange s cap dc t be cd cyc yrs tf cc cf rb rf)) <= 60000)%Z.
Proof.
  intros Hin Fs Hs.
  destruct (rawRange_mono s s cap dc t be cd cyc yrs tf cc cf rb rf Hin Fs Fs
              ltac:(lia) Hs) as (F & _ & _ & U).
  unfold calculateRange. cbn [Stats.range]. js_float.
  set (r := rawRange s cap dc t be cd cyc yrs tf cc cf rb rf) in *.
  change (Binary64.literal 0) with 0.
  destruct (max_units 0 r I (finite_nonneg r F)) as [Nm Um].
  change (units 0) with 0%Z in Um.
  rewrite Z.max_r in Um by apply units_nonneg.
  assert (B : (units largestRange < units 1e21)%Z) by (vm_compute; reflexivity).
  assert (Fm : finite (Binary64.max 0 r)).
  { apply finite_of_bound; [exact Nm |].
    pose proof (finite_units r F). lia. }
  rewrite toFixed_finite by (exact Fm || lia).
  rewrite Um. split; [reflexivity |]. split.
  - apply digitsOf_nonneg, units_nonneg.
  - apply Z.le_trans with (digitsOf 1 (units largestRange)).
    + apply digitsOf_mono. exact U.
    + vm_compute. discriminate.
Qed.

(** The decimal number that a string of [toFixed] denotes. *)
Definition decimal (s : fixed float) : option Q :=
  match s with
  | Digits neg n f =>
      Some (Qmake (if neg then (- n)%Z else n) (Z.to_pos (10 ^ Z.of_nat f)))
  | Plain _ => None
  end.

(** Two range strings in non-decreasing order: both are decimal numbers,
    the first not above the second. *)
Definition notAbove (a b : fixed float) : Prop :=
  match decimal a, decimal b with
  | Some x, Some y => (x <= y)%Q
  | _, _ => False
  end.

Lemma notAbove_digits (n n' : Z) (f : nat) :
  (n <= n')%Z -> notAbove (Digits false n f) (Digits false n' f).
Proof.
  intros H. unfold notAbove, decimal, Qle. cbn [Qnum Qden].
  apply Z.mul_le_mono_nonneg_r; [lia | exact H].
Qed.

(** The order of [rawRange_order], read off the strings that
    [calculateRange] returns. *)
Lemma range_digits_order
  (s s' cap cap' dc dc' t be be' cd cd' cyc yrs tf tf' : float)
  (cc cc' : bool) (cf cf' : float) (rb rb' : bool) (rf rf' : float) :
  inputsInRange cap dc t be cd cyc yrs tf cf rf ->
  inputsInRange cap' dc' t be' cd' cyc yrs tf' cf' rf' ->
  finite s -> finite s' -> (units s <= units s')%Z -> (units s' <= units 100)%Z ->
  (units cap <= units cap')%Z -> (units dc' <= units dc)%Z ->
  (units be <= units be')%Z -> (units cd <= units cd')%Z ->
  (units tf' <= units tf)%Z ->
  (units (if cc then cf else 1) <= units (if cc' then cf' else 1))%Z ->
  (units (if rb then rf else 1) <= units (if rb' then rf' else 1))%Z ->
  exists n n' : Z,
    Stats.range (calculateRange s cap dc t be cd cyc yrs tf cc cf rb rf)
    = Digits false n 1
    /\ Stats.range (calculateRange s' cap' dc' t be' cd' cyc yrs tf' cc' cf' rb' rf')
       = Digits false n' 1
    /\ (0 <= n <= n')%Z /\ (n' <= 60000)%Z.
Proof.
  intros Hin Hin' Fs Fs' Hss' Hs' Hcap Hdc Hbe Hcd Htf Hcf Hrf.
  destruct (range_digits s cap dc t be cd cyc yrs tf cc cf rb rf Hin Fs ltac:(lia))
    as [E [B0 _]].
  destruct (range_digits s' cap' dc' t be' cd' cyc yrs tf' cc' cf' rb' rf' Hin' Fs' Hs')
    as [E' [_ B1]].
  do 2 eexists. split; [exact E |]. split; [exact E' |].
  split; [split; [exact B0 |] | exact B1].
  apply digitsOf_mono.
  apply (rawRange_order s s' cap cap' dc dc' t be be' cd cd' cyc yrs tf tf'
           cc cc' cf cf' rb rb' rf rf'); assumption.
Qed.

Lemma ranges_in_order
  (s s' cap cap' dc dc' t be be' cd cd' cyc yrs tf tf' : float)
  (cc cc' : bool) (cf cf' : float) (rb rb' : bool) (rf rf' : float) :
  inputsInRange cap dc t be cd cyc yrs tf cf rf ->
  inputsInRange cap' dc' t be' cd' cyc yrs tf' cf' rf' ->
  finite s -> finite s' -> (units s <= units s')%Z -> (units s' <= units 100)%Z ->
  (units cap <= units cap')%Z -> (units dc' <= units dc)%Z ->
  (units be <= units be')%Z -> (units cd <= units cd')%Z ->
  (units tf' <= units tf)%Z ->
  (units (if cc then cf else 1) <= units (if cc' then cf' else 1))%Z ->
  (units (if rb then rf else 1) <= units (if rb' then rf' else 1))%Z ->
  notAbove
    (Stats.range (calculateRange s cap dc t be cd cyc yrs tf cc cf rb rf))
    (Stats.range (calculateRange s' cap' dc' t be' cd' cyc yrs tf' cc' cf' rb' rf')).
Proof.
  intros Hin Hin' Fs Fs' Hss' Hs' Hcap Hdc Hbe Hcd Htf Hcf Hrf.
  destruct (range_digits_order s s' cap cap' dc dc' t be be' cd cd' cyc yrs tf tf'
              cc cc' cf cf' rb rb' rf rf') as (n & n' & -> & -> & B & _);
    try assumption.
  apply notAbove_digits. lia.
Qed.

End SchemaA_bounds.



(** ** Schema B: the efficiency and its guard *)
Module SchemaB_efficiency.
Import Binary64Facts.

(** A state of the second component with the given inputs and the initial
    outputs. *)
Definition inputs {num} `{JSNumber num}
  (batteryCapacity epaRange currentCharge temperature avgSpeed : num)
  (climateUsage : SchemaB.ClimateUsage) (terrainType : SchemaB.TerrainType)
  : SchemaB.state num :=
  SchemaB.mkState batteryCapacity epaRange currentCharge temperature avgSpeed
    climateUsage terrainType (lit 0) (lit 0)
    (SchemaB.Factors.mk (lit 1) (lit 1) (lit 1) (lit 1)).

(** C9. Schema B: the efficiency that the effect stores is
    estimatedRange / (batteryCapacity * (currentCharge / 100)) whenever
    batteryCapacity is a nonzero number, and it is 0, a number and not the
    outcome of a division, when batteryCapacity is 0.  Stated for binary64
    and for the reals. *)
Theorem efficiency_guarded_by_capacity :
  (forall st : SchemaB.state float,
      (is_nan (SchemaB.batteryCapacity st) = false ->
       is_zero (SchemaB.batteryCapacity st) = false ->
       SchemaB.efficiency (SchemaB.rangeEffect st)
       = (SchemaB.estimatedRange (SchemaB.rangeEffect st)
          / (SchemaB.batteryCapacity st * (SchemaB.currentCharge st / 100)))%float)
      /\ (is_zero (SchemaB.batteryCapacity st) = true ->
          SchemaB.efficiency (SchemaB.rangeEffect st) = 0%float
          /\ is_nan (SchemaB.efficiency (SchemaB.rangeEffect st)) = false))
  /\ (forall st : SchemaB.state R,
        (SchemaB.batteryCapacity st <> 0%R ->
         SchemaB.efficiency (SchemaB.rangeEffect st)
         = (SchemaB.estimatedRange (SchemaB.rangeEffect st)
            / (SchemaB.batteryCapacity st * (SchemaB.currentCharge st / 100)))%R)
        /\ (SchemaB.batteryCapacity st = 0%R ->
            SchemaB.efficiency (SchemaB.rangeEffect st) = 0%R)).
Proof.
  split; intros st; split.
  - intros Hn Hz. cbn [SchemaB.efficiency SchemaB.estimatedRange SchemaB.rangeEffect].
    unfold SchemaB.newEfficiency, SchemaB.usableEnergy. js_float.
    unfold Binary64.toBoolean. rewrite Hn, Hz. reflexivity.
  - intros Hz. cbn [SchemaB.efficiency SchemaB.rangeEffect].
    unfold SchemaB.newEfficiency. js_float.
    unfold Binary64.toBoolean. rewrite Hz. split; reflexivity.
  - intros Hc. cbn [SchemaB.efficiency SchemaB.estimatedRange SchemaB.rangeEffect].
    unfold SchemaB.newEfficiency, SchemaB.usableEnergy. js_real.
    unfold Ideal.toBoolean. destruct (Req_dec_T _ _) as [E | _]; [contradiction |].
    unfold Q2R. simpl. f_equal. f_equal. lra.
  - intros Hc. cbn [SchemaB.efficiency SchemaB.rangeEffect].
    unfold SchemaB.newEfficiency. js_real.
    unfold Ideal.toBoolean. destruct (Req_dec_T _ _) as [_ | N]; [| contradiction].
    unfold Q2R. simpl. lra.
Qed.

(** The guard at work: capacity 75 divides, capacity 0 does not. *)
Lemma efficiency_guarded_by_capacity_witness :
  SchemaB.efficiency
    (SchemaB.rangeEffect (inputs 75 330 80 70 25 SchemaB.Medium SchemaB.Flat)%float)
  = (224.4 / (75 * (80 / 100)))%float
  /\ SchemaB.efficiency
       (SchemaB.rangeEffect (inputs 0 330 80 70 25 SchemaB.Medium SchemaB.Flat)%float)
     = 0%float.
Proof.
  split.
  - rewrite (proj1 (proj1 efficiency_guarded_by_capacity
               (inputs 75 330 80 70 25 SchemaB.Medium SchemaB.Flat)%float));
      reflexivity.
  - apply (proj2 (proj1 efficiency_guarded_by_capacity
               (inputs 0 330 80 70 25 SchemaB.Medium SchemaB.Flat)%float)).
    reflexivity.
Defined.

(** C10. Schema B: the guard of the efficiency tests batteryCapacity only.
    For a positive finite batteryCapacity and currentCharge = 0 the guard
    lets the division through, its divisor
    batteryCapacity * (currentCharge / 100) is zero, and the efficiency is
    NaN, not the 0 of the batteryCapacity = 0 case. *)
Theorem efficiency_nan_at_zero_charge (st : SchemaB.state float) :
  (0 <? SchemaB.batteryCapacity st)%float = true ->
  (SchemaB.batteryCapacity st <? infinity)%float = true ->
  is_zero (SchemaB.currentCharge st) = true ->
  truthy (SchemaB.batteryCapacity st) = true
  /\ is_zero (SchemaB.usableEnergy st) = true
  /\ SchemaB.efficiency (SchemaB.rangeEffect st)
     = (SchemaB.newEstimatedRange st / SchemaB.usableEnergy st)%float
  /\ is_nan (SchemaB.efficiency (SchemaB.rangeEffect st)) = true.
Proof.
  intros Hpos Hfin Hc.
  assert (Ht : Binary64.toBoolean (SchemaB.batteryCapacity st) = true)
    by now apply toBoolean_positive.
  destruct (positive_finite_spec _ Hpos Hfin) as (m & e & Hcap).
  pose proof (zero_div_100 _ Hc) as Hq.
  assert (Hu : exists b, Prim2SF (SchemaB.usableEnergy st) = S754_zero b).
  { unfold SchemaB.usableEnergy. js_float. change (Binary64.literal 100) with 100%float.
    eapply finite_mul_zero; eauto. }
  assert (He : SchemaB.efficiency (SchemaB.rangeEffect st)
               = (SchemaB.newEstimatedRange st / SchemaB.usableEnergy st)%float).
  { cbn [SchemaB.efficiency SchemaB.rangeEffect]. unfold SchemaB.newEfficiency.
    js_float. rewrite Ht. reflexivity. }
  repeat split.
  - exact Ht.
  - now apply is_zero_spec.
  - exact He.
  - rewrite He. apply zero_or_nan_div_zero; [| exact Hu].
    unfold SchemaB.newEstimatedRange. js_float.
    change (Binary64.literal 100) with 100%float.
    do 4 apply mul_zero_or_nan_l. apply mul_zero_or_nan_r.
    right. exact Hq.
Qed.

Lemma efficiency_nan_at_zero_charge_witness :
  is_nan
    (SchemaB.efficiency
       (SchemaB.rangeEffect (inputs 75 330 0 70 65 SchemaB.Medium SchemaB.Flat)%float))
  = true.
Proof.
  apply (efficiency_nan_at_zero_charge
           (inputs 75 330 0 70 65 SchemaB.Medium SchemaB.Flat)%float);
    reflexivity.
Defined.

End SchemaB_efficiency.

(** ** Schema B: the estimate at the reference point and below zero *)
Module SchemaB_range.
Import SchemaB_efficiency.

(** The input ranges that the form of the second component enforces
    ([min] and [max] of its inputs), with a positive charge and EPA range. *)
Definition declaredDomain (st : SchemaB.state float) : bool :=
  ((-20 <=? SchemaB.temperature st) && (SchemaB.temperature st <=? 120)
   && (5 <=? SchemaB.avgSpeed st) && (SchemaB.avgSpeed st <=? 85)
   && (0 <? SchemaB.currentCharge st) && (SchemaB.currentCharge st <=? 100)
   && (0 <? SchemaB.epaRange st))%float.

(** C8. Schema B: at 70 F, 25 mph, Medium climate use, Flat terrain, EPA range
    330 and 80 percent charge, the temperature and speed factors are exactly
    1 and the estimated range is exactly 330 * 0.8 * 1 * 1 * 0.85 * 1 = 224.4,
    whatever the battery capacity; in binary64 (the product is the double
    224.4 itself) and over the reals. *)
Theorem estimate_at_reference_point :
  (forall batteryCapacity : float,
      let st := inputs batteryCapacity 330 80 70 25 SchemaB.Medium SchemaB.Flat in
      SchemaB.Factors.temperature (SchemaB.factors (SchemaB.rangeEffect st)) = 1
      /\ SchemaB.Factors.speed (SchemaB.factors (SchemaB.rangeEffect st)) = 1
      /\ SchemaB.estimatedRange (SchemaB.rangeEffect st) = 224.4
      /\ 330 * 0.8 * 1 * 1 * 0.85 * 1 = 224.4)%float
  /\ (forall batteryCapacity : R,
        let st := inputs batteryCapacity 330 80 70 25 SchemaB.Medium SchemaB.Flat in
        SchemaB.Factors.temperature (SchemaB.factors (SchemaB.rangeEffect st)) = 1
        /\ SchemaB.Factors.speed (SchemaB.factors (SchemaB.rangeEffect st)) = 1
        /\ SchemaB.estimatedRange (SchemaB.rangeEffect st) = 224.4
        /\ 330 * 0.8 * 1 * 1 * 0.85 * 1 = 224.4)%R.
Proof.
  split; intros batteryCapacity st.
  - repeat split; reflexivity.
  - assert (Ht : SchemaB.temperatureFactor 70%R = 1%R).
    { unfold SchemaB.temperatureFactor. js_real. real_literals.
      replace (70 - 70 * / 1)%R with 0%R by lra. rewrite Rabs_R0. lra. }
    assert (Hs : SchemaB.speedFactor 25%R = 1%R).
    { unfold SchemaB.speedFactor, pow2. js_real. real_literals.
      replace (25 - 25 * / 1)%R with 0%R by lra.
      rewrite Rmax_left by lra. lra. }
    repeat split.
    + exact Ht.
    + exact Hs.
    + cbn [SchemaB.estimatedRange SchemaB.rangeEffect].
      unfold SchemaB.newEstimatedRange. subst st. unfold inputs.
      cbn [SchemaB.epaRange SchemaB.currentCharge SchemaB.temperature
           SchemaB.avgSpeed SchemaB.climateUsage SchemaB.terrainType].
      rewrite Ht, Hs. unfold SchemaB.climateFactor, SchemaB.terrainFactor.
      js_real. real_literals. lra.
    + lra.
Qed.


End SchemaB_range.

(** ** Schema A: validation, simple mode and the capacity-derived defaults *)
Module SchemaA_inputs.
Import SchemaA.

(** A state of the first component, as the form fields hold it. *)
Definition form {num} `{JSNumber num}
  (soc batteryCapacity drivingConsumption : field num) (showAdvanced : bool)
  : state num :=
  mkState soc batteryCapacity drivingConsumption showAdvanced
    (Text (lit 25)) (Text (lit 0.98)) (Text (lit 0.98)) (Text (lit 100))
    (Text (lit 2)) (Text (lit 1.0)) false (Text (lit 0.85)) true
    (Text (lit 1.05)) None true.

Section AnyNumber.
Context {num : Type} `{JSNumber num}.

Lemma rangeAt_simple_mode (st : state num) (s : num) :
  showAdvanced st = false ->
  rangeAt st s
  = calculateRange s (Number (batteryCapacity st))
      (consumption (getDynamicDefaults (Number (batteryCapacity st))))
      (lit 25) (lit 0.98) (lit 0.98) (lit 100) (lit 2)
      (defaultTerrainFactor (getDynamicDefaults (Number (batteryCapacity st))))
      false (lit 0.85) true (lit 1.05).
Proof. intros Hs. unfold rangeAt. rewrite Hs. reflexivity. Qed.

Lemma rangeAt_setDrivingConsumption (st : state num) (c : field num) (s : num) :
  showAdvanced st = false ->
  rangeAt (setDrivingConsumption c st) s = rangeAt st s.
Proof.
  intros Hs. rewrite !rangeAt_simple_mode by exact Hs. reflexivity.
Qed.

Lemma validateInputs_false (st : state num) (val : field num) :
  In val (requiredFields st) ->
  isEmptyString val = true \/ isNaN (Number val) = true ->
  validateInputs st = false.
Proof.
  intros Hin Hbad. unfold validateInputs.
  destruct (forallb _ (requiredFields st)) eqn:E; [| reflexivity].
  rewrite forallb_forall in E. specialize (E val Hin).
  destruct Hbad as [Hb | Hb]; rewrite Hb in E; simpl in E.
  - discriminate.
  - rewrite andb_false_r in E. discriminate.
Qed.

End AnyNumber.

(** C4. Schema A, simple mode: two computations that differ only in the
    drivingConsumption field, both passing validation, give the same
    predicted range, the same seven statistics and the same sensitivity
    table; of what [calculateStats] returns only consumptionBreakdown is
    left to depend on the field. *)
Theorem drivingConsumption_ignored_in_simple_mode
  {num : Type} `{JSNumber num} (st : state num) (c1 c2 : field num) :
  showAdvanced st = false ->
  validateInputs (setDrivingConsumption c1 st) = true ->
  validateInputs (setDrivingConsumption c2 st) = true ->
  predictedRange (handler (setDrivingConsumption c1 st))
  = predictedRange (handler (setDrivingConsumption c2 st))
  /\ predictedRange (handleCalculate (setDrivingConsumption c1 st))
     = predictedRange (handleCalculate (setDrivingConsumption c2 st))
  /\ stats (calculateStats (setDrivingConsumption c1 st))
     = stats (calculateStats (setDrivingConsumption c2 st))
  /\ rangeSensitivity (calculateStats (setDrivingConsumption c1 st))
     = rangeSensitivity (calculateStats (setDrivingConsumption c2 st)).
Proof.
  intros Hs V1 V2.
  assert (Hst : stats (calculateStats (setDrivingConsumption c1 st))
                = stats (calculateStats (setDrivingConsumption c2 st))).
  { cbn [stats calculateStats]. cbn [soc setDrivingConsumption].
    rewrite !rangeAt_setDrivingConsumption by exact Hs. reflexivity. }
  assert (Hse : rangeSensitivity (calculateStats (setDrivingConsumption c1 st))
                = rangeSensitivity (calculateStats (setDrivingConsumption c2 st))).
  { cbn [rangeSensitivity calculateStats]. apply map_ext. intros s.
    rewrite !rangeAt_setDrivingConsumption by exact Hs. reflexivity. }
  repeat split; try assumption.
  - unfold handler. rewrite V1, V2. cbn [predictedRange setPredictedRange].
    now rewrite Hst.
  - unfold handleCalculate. rewrite V1, V2. cbn [predictedRange setPredictedRange].
    now rewrite Hst.
Qed.

(** Capacity 60, charge 80: consumption 16 and consumption 20 both show 290.9. *)
Lemma drivingConsumption_ignored_in_simple_mode_witness :
  predictedRange (handler (form (Text 80) (Text 60) (Text 16) false)%float)
  = predictedRange (handler (form (Text 80) (Text 60) (Text 20) false)%float).
Proof.
  refine (proj1 (drivingConsumption_ignored_in_simple_mode
           (form (Text 80) (Text 60) Empty false)%float
           (Text 16%float) (Text 20%float) _ _ _));
    reflexivity.
Defined.

(** C5. Schema A: when a required field (soc, batteryCapacity,
    drivingConsumption; in advanced mode also temperature, baseEfficiency,
    chargingDegradation, batteryAgeCycles, batteryAgeYears, terrainFactor,
    climateFactor, regenFactor) is empty or not the text of a number,
    validation fails, the recompute handler sets the predicted range to null,
    and [handleCalculate] computes nothing and leaves the predicted range as
    it was. *)
Theorem incomplete_inputs_refused
  {num : Type} `{JSNumber num} (st : state num) (val : field num) :
  In val (requiredFields st) ->
  isEmptyString val = true \/ isNaN (Number val) = true ->
  validateInputs st = false
  /\ predictedRange (handler st) = None
  /\ (calculationTriggered st = true ->
      predictedRange (recomputeEffect st) = None)
  /\ predictedRange (handleCalculate st) = predictedRange st.
Proof.
  intros Hin Hbad.
  pose proof (validateInputs_false st val Hin Hbad) as Hv.
  repeat split.
  - exact Hv.
  - unfold handler. rewrite Hv. reflexivity.
  - intros Ht. unfold recomputeEffect, handler. rewrite Ht, Hv. reflexivity.
  - unfold handleCalculate. rewrite Hv. reflexivity.
Qed.

(** An empty state of charge in simple mode, and a regenFactor that is not
    a number in advanced mode. *)
Lemma incomplete_inputs_refused_witness :
  predictedRange (handler (form Empty (Text 60) (Text 16) false)%float) = None
  /\ predictedRange
       (handler
          (mkState (Text 80) (Text 60) (Text 16) true (Text 25) (Text 0.98)
             (Text 0.98) (Text 100) (Text 2) (Text 1) false (Text 0.85) true
             (Text nan) (Some (Digits false 2909 1)) true)%float)
     = None.
Proof.
  split.
  - refine (proj1 (proj2 (incomplete_inputs_refused
             (form Empty (Text 60) (Text 16) false)%float Empty _ _))).
    + left. reflexivity.
    + left. reflexivity.
  - refine (proj1 (proj2 (incomplete_inputs_refused
             (mkState (Text 80) (Text 60) (Text 16) true (Text 25) (Text 0.98)
                (Text 0.98) (Text 100) (Text 2) (Text 1) false (Text 0.85) true
                (Text nan) (Some (Digits false 2909 1)) true)%float
             (Text nan) _ _))).
    + cbn. tauto.
    + right. reflexivity.
Defined.

(** C7. Schema A: the defaults derived from the capacity are consumption 18
    above 75, 14 below 40 and 16 otherwise, and terrain factor 1.05 above 75
    and 1.0 otherwise (over the reals and in binary64, where a NaN capacity
    falls under "otherwise"); with advanced mode off, [calculateStats] passes
    exactly these two values, and the fixed values 25, 0.98, 0.98, 100, 2,
    false, 0.85, true, 1.05, to [calculateRange], for the statistics and for
    every row of the sensitivity table. *)
Theorem dynamic_defaults_by_capacity :
  (forall capacity : R,
      let d := getDynamicDefaults capacity in
      (capacity > 75 -> consumption d = 18 /\ defaultTerrainFactor d = 1.05)
      /\ (capacity < 40 -> consumption d = 14 /\ defaultTerrainFactor d = 1.0)
      /\ (40 <= capacity <= 75 ->
          consumption d = 16 /\ defaultTerrainFactor d = 1.0))%R
  /\ (forall capacity : float,
        let d := getDynamicDefaults capacity in
        ((75 <? capacity) = true ->
         consumption d = 18 /\ defaultTerrainFactor d = 1.05)
        /\ ((capacity <? 40) = true ->
            consumption d = 14 /\ defaultTerrainFactor d = 1.0)
        /\ ((75 <? capacity) = false -> (capacity <? 40) = false ->
            consumption d = 16 /\ defaultTerrainFactor d = 1.0))%float
  /\ (forall (num : Type) (N : JSNumber num) (st : state num),
        showAdvanced st = false ->
        let d := getDynamicDefaults (Number (batteryCapacity st)) in
        let simple s :=
          calculateRange s (Number (batteryCapacity st)) (consumption d)
            (lit 25) (lit 0.98) (lit 0.98) (lit 100) (lit 2)
            (defaultTerrainFactor d) false (lit 0.85) true (lit 1.05) in
        stats (calculateStats st) = simple (Number (soc st))
        /\ rangeSensitivity (calculateStats st)
           = map (fun s => (s, Stats.range (simple s))) socValues).
Proof.
  split; [| split].
  - intros capacity d. subst d. unfold getDynamicDefaults.
    cbn [consumption defaultTerrainFactor]. js_real. unfold Ideal.ltb.
    real_literals.
    split; [| split]; intros Hc; split;
      repeat (destruct (Rlt_dec _ _) as [? | ?]); lra.
  - intros capacity d. subst d. unfold getDynamicDefaults.
    cbn [consumption defaultTerrainFactor]. js_float.
    change (Binary64.literal 75) with 75%float.
    change (Binary64.literal 40) with 40%float.
    split; [| split].
    + intros Hc. rewrite Hc. split; reflexivity.
    + intros Hc. rewrite (Binary64Facts.ltb_40_not_gtb_75 _ Hc), Hc.
      split; reflexivity.
    + intros Hc Hc'. rewrite Hc, Hc'. split; reflexivity.
  - intros num N st Hs d simple. subst d simple. split.
    + cbn [stats calculateStats]. now rewrite rangeAt_simple_mode.
    + cbn [rangeSensitivity calculateStats]. apply map_ext. intros s.
      now rewrite rangeAt_simple_mode.
Qed.

(** Capacities 90, 30 and 60 in binary64, and the simple-mode call for 60. *)
Lemma dynamic_defaults_by_capacity_witness :
  (consumption (getDynamicDefaults 90) = 18
   /\ consumption (getDynamicDefaults 30) = 14
   /\ consumption (getDynamicDefaults 60) = 16)%float
  /\ stats (calculateStats (form (Text 80) (Text 60) (Text 16) false)%float)
     = (calculateRange 80 60 16 25 0.98 0.98 100 2 1 false 0.85 true 1.05)%float.
Proof.
  destruct dynamic_defaults_by_capacity as (_ & Hf & Hs).
  split; [split; [| split] |].
  - apply (proj1 (Hf 90%float)). reflexivity.
  - apply (proj1 (proj2 (Hf 30%float))). reflexivity.
  - apply (proj2 (proj2 (Hf 60%float))); reflexivity.
  - rewrite (proj1 (Hs float _ (form (Text 80) (Text 60) (Text 16) false)%float
                      eq_refl)).
    reflexivity.
Defined.

End SchemaA_inputs.

(** ** Schema A: [calculateRange] against the reference formula *)
Module SchemaA_formula.
Import SchemaA.

(** [calculateRange] on the thirteen fields of a parameter record. *)
Definition calculateRangeOf {num} `{JSNumber num}
  (p : Reference.InputParameters num) : Stats.t num :=
  calculateRange (Reference.stateOfCharge p) (Reference.batteryCapacityKWh p)
    (Reference.drivingConsumptionKWhPer100km p) (Reference.temperatureC p)
    (Reference.baseEfficiency p) (Reference.chargingDegradation p)
    (Reference.batteryAgeCycles p) (Reference.batteryAgeYears p)
    (Reference.terrainFactor p) (Reference.climateControlEnabled p)
    (Reference.climateFactor p) (Reference.regenBrakingEnabled p)
    (Reference.regenFactor p).

(** The inputs that the form can pass: every field inside the [min] and
    [max] of its input, the two ages not negative and as large as one
    likes. *)
Definition inDomain (p : Reference.InputParameters float) : Prop :=
  SchemaA_bounds.between 0 100 (Reference.stateOfCharge p)
  /\ SchemaA_bounds.inputsInRange
       (Reference.batteryCapacityKWh p)
       (Reference.drivingConsumptionKWhPer100km p) (Reference.temperatureC p)
       (Reference.baseEfficiency p) (Reference.chargingDegradation p)
       (Reference.batteryAgeCycles p) (Reference.batteryAgeYears p)
       (Reference.terrainFactor p) (Reference.climateFactor p)
       (Reference.regenFactor p).

(** C3. Schema A: for every numeric input [calculateRange] returns exactly
    the nine-step reference formula (all seven formatted outputs agree, in
    binary64 and over the reals).  In binary64, for every input whatever, the
    returned range is "NaN" or carries no minus sign, and degradation is NaN
    or at least 0.7, never below 0.7.  For the inputs that the form can pass
    the NaN case does not occur: the returned range is a digit string
    without sign, between 0.0 and 6000.0, and for ages that are not
    negative, however large, degradation lies between 0.7 and 1. *)
Theorem calculateRange_is_reference_formula :
  (forall p : Reference.InputParameters float,
      calculateRangeOf p = Reference.computeRange p)
  /\ (forall p : Reference.InputParameters R,
        calculateRangeOf p = Reference.computeRange p)
  /\ (forall p : Reference.InputParameters float,
        Binary64.isNaNText (Stats.range (calculateRangeOf p)) = true
        \/ Binary64.nonNegativeText (Stats.range (calculateRangeOf p)) = true)
  /\ (forall batteryAgeCycles batteryAgeYears : float,
        (degradation batteryAgeCycles batteryAgeYears <? 0.7)%float = false
        /\ (is_nan (degradation batteryAgeCycles batteryAgeYears) = true
            \/ (0.7 <=? degradation batteryAgeCycles batteryAgeYears)%float = true))
  /\ (forall p : Reference.InputParameters float,
        inDomain p ->
        exists n : Z,
          Stats.range (calculateRangeOf p) = Digits false n 1
          /\ (0 <= n <= 60000)%Z)
  /\ (forall batteryAgeCycles batteryAgeYears : float,
        (0 <=? batteryAgeCycles)%float = true ->
        (0 <=? batteryAgeYears)%float = true ->
        (0.7 <=? degradation batteryAgeCycles batteryAgeYears)%float = true
        /\ (degradation batteryAgeCycles batteryAgeYears <=? 1)%float = true).
Proof.
  split; [| split; [| split; [| split; [| split]]]].
  - intros p. reflexivity.
  - intros p.
    assert (E : Q2R 1.0 = Q2R 1) by (real_literals; lra).
    unfold calculateRangeOf, Reference.computeRange, calculateRange.
    unfold Reference.step9_range, Reference.step7_effectiveCapacity,
      Reference.step8_energyConsumption, Reference.step3_degradation,
      Reference.step4_tempFactor, Reference.step5_climateFactor_eff,
      Reference.step6_regenFactor_eff, Reference.step1_cycleDegradation,
      Reference.step2_calendarDegradation.
    unfold rawRange, effectiveCapacity, energyConsumption, degradation,
      tempFactor, cycleDegradation, calendarDegradation, pow2.
    js_real. rewrite E. reflexivity.
  - intros p. unfold calculateRangeOf, calculateRange.
    cbn [Stats.range]. js_float. change (Binary64.literal 0) with 0%float.
    apply Binary64Facts.toFixed_max_0.
  - intros c y. unfold degradation. js_float.
    change (Binary64.literal 0.7) with 0.7%float.
    apply Binary64Facts.max_lower_bound; reflexivity.
  - intros p [[Lo Hi] Hin]. unfold calculateRangeOf.
    destruct (Binary64Bounds.bounds_of_leb 0 100 _ I I Lo Hi) as [Fs [_ Us]].
    eexists. apply SchemaA_bounds.range_digits; assumption.
  - intros c y Hc Hy.
    pose proof (Binary64Bounds.nonneg_of_leb 0 c I Hc) as Nc.
    pose proof (Binary64Bounds.nonneg_of_leb 0 y I Hy) as Ny.
    destruct (SchemaA_bounds.degradation_bounds c y Nc Ny) as [P [L U]].
    pose proof (Binary64Bounds.finite_nonneg _ (Binary64Bounds.posfinite_finite _ P)) as Nd.
    rewrite !Binary64Bounds.leb_units by (exact Nd || reflexivity).
    split; apply Z.leb_le; assumption.
Qed.

(** The fixture of the specification is inside the domain and its range is
    a digit string; 2000 cycles and 20 years give a degradation of at least
    0.7. *)
Lemma calculateRange_is_reference_formula_witness :
  inDomain (Reference.mkInput 80 60 16 25 0.98 0.98 100 2 1 false 0.85 true 1.05)%float
  /\ (exists n : Z,
        Stats.range
          (calculateRangeOf
             (Reference.mkInput 80 60 16 25 0.98 0.98 100 2 1 false 0.85 true 1.05)%float)
        = Digits false n 1 /\ (0 <= n <= 60000)%Z)
  /\ (0.7 <=? degradation 2000 20)%float = true.
Proof.
  assert (D : inDomain
                (Reference.mkInput 80 60 16 25 0.98 0.98 100 2 1 false 0.85 true 1.05)%float).
  { vm_compute. tauto. }
  split; [exact D |]. split.
  - exact (proj1 (proj2 (proj2 (proj2 (proj2 calculateRange_is_reference_formula))))
             _ D).
  - exact (proj1 (proj2 (proj2 (proj2 (proj2 (proj2 calculateRange_is_reference_formula))))
                    2000%float 20%float eq_refl eq_refl)).
Defined.

End SchemaA_formula.

(** ** Schema A: the sensitivity table *)
Module SchemaA_sensitivity.
Import SchemaA Binary64Bounds SchemaA_bounds.
Local Open Scope float_scope.

(** A field holds the text of a number between the [min] and [max] of its
    input. *)
Definition within (lo hi : float) (val : field float) : Prop :=
  match val with
  | Empty => False
  | Text n => between lo hi n
  end.

(** Valid inputs: the fields that [validateInputs] requires hold numbers
    inside the ranges that their inputs enforce. *)
Definition declaredDomain (st : state float) : Prop :=
  within 0 100 (soc st)
  /\ within 10 200 (batteryCapacity st)
  /\ within 5 50 (drivingConsumption st)
  /\ (showAdvanced st = true ->
      within (-20) 50 (temperature st)
      /\ within 0.5 1 (baseEfficiency st)
      /\ within 0.5 1 (chargingDegradation st)
      /\ within 0 2000 (batteryAgeCycles st)
      /\ within 0 20 (batteryAgeYears st)
      /\ within 1 2 (terrainFactor st)
      /\ within 0.5 1 (climateFactor st)
      /\ within 1 1.5 (regenFactor st)).

Lemma within_between (lo hi : float) (val : field float) :
  within lo hi val -> between lo hi (Number val).
Proof. destruct val; [contradiction | exact (fun H => H)]. Qed.

Lemma getDynamicDefaults_in_range (capacity : float) :
  between 5 50 (consumption (getDynamicDefaults capacity))
  /\ between 1 2 (defaultTerrainFactor (getDynamicDefaults capacity)).
Proof.
  unfold getDynamicDefaults. cbn [consumption defaultTerrainFactor]. js_float.
  destruct (PrimFloat.ltb _ capacity).
  - split; vm_compute; tauto.
  - destruct (PrimFloat.ltb capacity _); split; vm_compute; tauto.
Qed.

(** The arguments that [calculateStats] passes are inside the ranges of the
    form. *)
Lemma rangeAt_arguments (st : state float) :
  declaredDomain st ->
  exists (cap dc t be cd cyc yrs tf : float) (cc : bool) (cf : float)
         (rb : bool) (rf : float),
    inputsInRange cap dc t be cd cyc yrs tf cf rf
    /\ forall s : float,
         rangeAt st s = calculateRange s cap dc t be cd cyc yrs tf cc cf rb rf.
Proof.
  intros (_ & Hcap & Hdc & Hadv).
  apply within_between in Hcap. apply within_between in Hdc.
  unfold rangeAt. destruct (showAdvanced st).
  - destruct (Hadv eq_refl) as (Ht & Hbe & Hcd & Hcyc & Hyrs & Htf & Hcf & Hrf).
    apply within_between in Ht, Hbe, Hcd, Hcyc, Hyrs, Htf, Hcf, Hrf.
    do 12 eexists. split; [| intros s; reflexivity].
    repeat split; try apply Ht; try apply Hbe; try apply Hcd; try apply Htf;
      try apply Hcf; try apply Hrf; try apply Hcap; try apply Hdc;
      try apply Hcyc; try apply Hyrs.
  - destruct (getDynamicDefaults_in_range (Number (batteryCapacity st))) as [Dc Dt].
    do 12 eexists. split; [| intros s; reflexivity].
    split; [exact Hcap |]. split; [exact Dc |].
    split; [vm_compute; tauto |]. split; [vm_compute; tauto |].
    split; [vm_compute; tauto |]. split; [reflexivity |]. split; [reflexivity |].
    split; [exact Dt |]. split; vm_compute; tauto.
Qed.

(** [Number(a) <= Number(b)] for two range strings. *)
Definition numberNotAbove (a b : fixed float) : Prop :=
  (Number_of_fixed a <=? Number_of_fixed b) = true.

(** A row at a larger state of charge does not show a smaller range,
    neither as a decimal string nor as the number that the string parses
    to. *)
Lemma rows_in_order (st : state float) (s s' : float) :
  declaredDomain st ->
  finite s -> finite s' -> (units s <= units s')%Z -> (units s' <= units 100)%Z ->
  notAbove (Stats.range (rangeAt st s)) (Stats.range (rangeAt st s'))
  /\ numberNotAbove (Stats.range (rangeAt st s)) (Stats.range (rangeAt st s')).
Proof.
  intros Hd Fs Fs' Hss' Hs'.
  destruct (rangeAt_arguments st Hd)
    as (cap & dc & t & be & cd & cyc & yrs & tf & cc & cf & rb & rf & Hin & E).
  rewrite !E.
  destruct (range_digits_order s s' cap cap dc dc t be be cd cd cyc yrs tf tf
              cc cc cf cf rb rb rf rf) as (n & n' & -> & -> & B & B');
    try assumption; try lia.
  split; [apply notAbove_digits; lia | apply tenths_order; assumption].
Qed.

(** C6. Schema A: the sensitivity table has one row per state of charge
    10, 30, 50, 70, 90, in that order, and the range of a row is the range
    that [calculateStats] reports when the soc field holds that value and
    every other field is as it is.  In binary64, for all valid inputs, the
    ranges of the rows are in non-decreasing order, every row being at most
    every later row, both as the decimal numbers that the strings spell and
    as the numbers that [Number] parses them to. *)
Theorem sensitivity_table_ascending :
  (forall (num : Type) (N : JSNumber num) (st : state num),
      rangeSensitivity (calculateStats st)
      = map (fun s =>
               (s, Stats.range (stats (calculateStats (setSoc (Text s) st)))))
          [lit 10; lit 30; lit 50; lit 70; lit 90])
  /\ (forall st : state float,
        declaredDomain st ->
        map fst (rangeSensitivity (calculateStats st)) = [10; 30; 50; 70; 90]
        /\ StronglySorted notAbove
             (map snd (rangeSensitivity (calculateStats st)))
        /\ StronglySorted numberNotAbove
             (map snd (rangeSensitivity (calculateStats st)))).
Proof.
  split.
  - intros num N st. reflexivity.
  - intros st Hd. cbn [rangeSensitivity calculateStats]. split; [reflexivity |].
    unfold socValues. cbn [map snd]. js_float.
    split; repeat constructor;
      apply rows_in_order; try exact Hd; try exact I; vm_compute; discriminate.
Qed.

(** The initial form of the first component (soc 80, 60 kWh, 16 kWh/100km,
    simple mode) is a valid input and its table is in order. *)
Lemma sensitivity_table_ascending_witness :
  StronglySorted notAbove
    (map snd
       (rangeSensitivity
          (calculateStats
             (mkState (Text 80) (Text 60) (Text 16) false (Text 25) (Text 0.98)
                (Text 0.98) (Text 100) (Text 2) (Text 1) false (Text 0.85) true
                (Text 1.05) None false)))).
Proof.
  refine (proj1 (proj2 (proj2 sensitivity_table_ascending _ _))).
  vm_compute. repeat split; discriminate.
Defined.

End SchemaA_sensitivity.

(** ** Schema A: the regression fixture *)
Module SchemaA_fixture.
Import SchemaA.

Lemma sqrt_2_bounds : (1.414 < sqrt 2 < 1.415)%R.
Proof.
  pose proof (sqrt_sqrt 2 ltac:(lra)) as Hs. pose proof (sqrt_pos 2) as Hp.
  split; nra.
Qed.

(** Over the reals the range of the fixture, before formatting, lies
    between 290.87 and 290.89. *)
Lemma fixture_rawRange_real :
  (290.87 < rawRange 80 60 16 25 0.98 0.98 100 2 1 false 0.85 true 1.05 < 290.89)%R.
Proof.
  pose proof sqrt_2_bounds as Hs.
  unfold rawRange, effectiveCapacity, energyConsumption, degradation,
    tempFactor, cycleDegradation, calendarDegradation, pow2.
  js_real. real_literals.
  replace (25 - 25 * / 1)%R with 0%R by lra. rewrite Rabs_R0.
  rewrite (Rmax_right (7 * / 10)%R (10 * / 10 - 5 * / 1000 * 0)%R) by lra.
  rewrite Rmax_right by lra.
  set (s := sqrt 2) in *. lra.
Qed.

(** Formatting a real between 290.85 and 290.95 to one decimal. *)
Lemma toFixed_real_2909 (r : R) :
  (290.85 <= r < 290.95)%R -> Ideal.toFixed r 1 = Digits false 2909 1.
Proof.
  intros Hr. unfold Ideal.toFixed.
  rewrite Rabs_pos_eq by lra.
  assert (Hbig : (1000 <= 10 ^ 21)%R).
  { change 21%nat with (3 + 18)%nat. rewrite pow_add.
    assert (1 <= 10 ^ 18)%R by (apply pow_R1_Rle; lra).
    assert (10 ^ 3 = 1000)%R by (simpl; lra). nra. }
  destruct (Rle_dec (10 ^ 21) r) as [B | _]; [lra |].
  unfold Ideal.ltb. destruct (Rlt_dec r 0) as [N | _]; [lra |].
  f_equal. unfold Ideal.nearest. symmetry. apply Int_part_spec.
  simpl pow. lra.
Qed.

(** The fixture of the claim: charge 80, capacity 60, consumption 16,
    advanced mode off (so every advanced field at its default). *)
Definition fixture {num} `{JSNumber num} : state num :=
  SchemaA_inputs.form (Text (lit 80)) (Text (lit 60)) (Text (lit 16)) false.

(** C1, as the code has it. Schema A: with state of charge 80, capacity 60,
    consumption 16, terrain factor 1.0 and every other advanced parameter at
    its default, the range computation returns 290.9 km: the unformatted
    binary64 value is 290.88350735659037, and over the reals the value lies
    between 290.87 and 290.89.  The recompute handler stores the same string
    for the form in simple mode. *)
Theorem fixture_range_is_290_9 :
  (Stats.range
     (calculateRange 80 60 16 25 0.98 0.98 100 2 1.0 false 0.85 true 1.05)%float
   = Digits false 2909 1
   /\ (rawRange 80 60 16 25 0.98 0.98 100 2 1.0 false 0.85 true 1.05
       = 290.88350735659037)%float
   /\ predictedRange (handler (fixture (num := float)))
      = Some (Digits false 2909 1))
  /\ (Stats.range
        (calculateRange 80 60 16 25 0.98 0.98 100 2 1 false 0.85 true 1.05)%R
      = Digits false 2909 1).
Proof.
  split; [repeat split; reflexivity |].
  unfold calculateRange. cbn [Stats.range]. js_real.
  pose proof fixture_rawRange_real as Hr.
  apply toFixed_real_2909.
  replace (Q2R 0) with 0%R by (real_literals; lra).
  rewrite Rmax_right by lra. lra.
Qed.

(** C1, as stated, fails: the range returned for the fixture is not 254.7,
    neither from [calculateRange] nor through the form. *)
Lemma fixture_range_is_not_254_7 :
  Stats.range
    (calculateRange 80 60 16 25 0.98 0.98 100 2 1.0 false 0.85 true 1.05)%float
  <> Digits false 2547 1
  /\ predictedRange (handler (fixture (num := float)))
     <> Some (Digits false 2547 1).
Proof.
  split; intros E; vm_compute in E; discriminate E.
Qed.

End SchemaA_fixture.

(** ** The order of binary64 values that are not NaN *)
Module Binary64Order.
Import Binary64Facts.
Local Open Scope float_scope.

Lemma SFcompare_None (s1 s2 : spec_float) :
  SFcompare s1 s2 = None -> s1 = S754_nan \/ s2 = S754_nan.
Proof.
  unfold SFcompare.
  destruct s1 as [b | b | | b m e], s2 as [c | c | | c n k];
    auto; discriminate.
Qed.

Lemma not_ltb_leb (x y : float) :
  is_nan x = false -> is_nan y = false -> (x <? y) = false -> (y <=? x) = true.
Proof.
  intros Hx Hy. rewrite ltb_spec, leb_spec. unfold SFltb, SFleb.
  rewrite (SFcompare_antisym (Prim2SF x) (Prim2SF y)).
  destruct (SFcompare (Prim2SF x) (Prim2SF y)) as [[ | | ] |] eqn:E;
    cbn [option_map CompOpp]; try reflexivity; try discriminate.
  intros _. apply SFcompare_None in E.
  destruct E as [E | E]; apply is_nan_spec in E; congruence.
Qed.

Lemma leb_not_ltb (x y : float) : (x <=? y) = true -> (y <? x) = false.
Proof.
  rewrite ltb_spec, leb_spec. unfold SFltb, SFleb.
  rewrite (SFcompare_antisym (Prim2SF x) (Prim2SF y)).
  destruct (SFcompare (Prim2SF x) (Prim2SF y)) as [[ | | ] |];
    cbn [option_map CompOpp]; try reflexivity; discriminate.
Qed.

Lemma ltb_nan_l (y : float) : (nan <? y) = false.
Proof. rewrite ltb_spec. reflexivity. Qed.

Lemma ltb_nan_r (x : float) : (x <? nan) = false.
Proof.
  rewrite ltb_spec. change (Prim2SF nan) with S754_nan. unfold SFltb, SFcompare.
  destruct (Prim2SF x); reflexivity.
Qed.

End Binary64Order.

(** ** The committed value of a [NumericInput] of the first component *)
Module NumericInputA_commit.
Import NumericInputA Binary64Facts Binary64Order.
Local Open Scope float_scope.

(** Committing a number between bounds, in binary64. *)
Lemma commitValue_cases (lo hi n : float) :
  is_nan lo = false -> is_nan hi = false -> is_nan n = false ->
  (lo <=? hi) = true ->
  exists r,
    commitValue (Some lo) (Some hi) (Typed n) = Committed r
    /\ is_nan r = false
    /\ (lo <=? r) = true /\ (r <=? hi) = true
    /\ ((lo <=? n) = true -> (n <=? hi) = true -> r = n).
Proof.
  intros Hlo Hhi Hn Hle. unfold commitValue. js_float.
  destruct (n <? lo) eqn:E1.
  - rewrite (leb_not_ltb _ _ Hle). exists lo. repeat split; auto.
    + now apply leb_refl.
    + intros Hc. apply leb_not_ltb in Hc. congruence.
  - destruct (hi <? n) eqn:E2.
    + exists hi. repeat split; auto.
      * now apply leb_refl.
      * intros _ Hc. apply leb_not_ltb in Hc. congruence.
    + exists n. repeat split; auto; now apply not_ltb_leb.
Qed.



(** X2. Committing is idempotent: committing again what the text box shows
    after a commit hands over the same value, for blank text, for numbers
    and for text that is no number. *)
Theorem commitValue_idempotent (lo hi : float) (val : internalValue float) :
  is_nan lo = false -> is_nan hi = false -> (lo <=? hi) = true ->
  commitValue (Some lo) (Some hi)
    (shownAgain (commitValue (Some lo) (Some hi) val))
  = commitValue (Some lo) (Some hi) val.
Proof.
  intros Hlo Hhi Hle. destruct val as [| n]; [reflexivity |].
  destruct (is_nan n) eqn:Hn.
  - assert (E : n = nan).
    { rewrite <- (SF2Prim_Prim2SF n). apply is_nan_spec in Hn. now rewrite Hn. }
    subst n. unfold commitValue, shownAgain. js_float.
    rewrite !ltb_nan_l, !ltb_nan_r. rewrite !ltb_nan_l, !ltb_nan_r. reflexivity.
  - destruct (commitValue_cases lo hi n Hlo Hhi Hn Hle)
      as (r & Hr & Hrn & H1 & H2 & _).
    rewrite Hr. cbn [shownAgain].
    destruct (commitValue_cases lo hi r Hlo Hhi Hrn Hle)
      as (r' & Hr' & _ & _ & _ & H3).
    rewrite Hr'. f_equal. now apply H3.
Qed.

Lemma commitValue_idempotent_witness :
  commitValue (Some 5) (Some 50)
    (shownAgain (commitValue (Some 5) (Some 50) (Typed 3)))
  = commitValue (Some 5) (Some 50) (Typed 3).
Proof.
  apply (commitValue_idempotent 5 50 (Typed 3)); reflexivity.
Defined.

(** X3. Text that is no number is not clamped: whatever the bounds, it is
    committed as NaN, and a required field that holds it makes
    [validateInputs] fail; the four blank strings clear the field, which
    fails validation as well. *)
Theorem commitValue_not_a_number (min max : option float) :
  commitValue min max (Typed nan) = Committed nan
  /\ commitValue min max Blank = Cleared
  /\ (forall st : SchemaA.state float,
        In (SchemaA.Text nan) (SchemaA.requiredFields st)
        \/ In SchemaA.Empty (SchemaA.requiredFields st) ->
        SchemaA.validateInputs st = false).
Proof.
  split; [| split].
  - unfold commitValue. js_float. destruct min, max;
      rewrite ?ltb_nan_l, ?ltb_nan_r; reflexivity.
  - reflexivity.
  - intros st [Hin | Hin].
    + apply (SchemaA_inputs.validateInputs_false st _ Hin). right. reflexivity.
    + apply (SchemaA_inputs.validateInputs_false st _ Hin). left. reflexivity.
Qed.

End NumericInputA_commit.

(** ** Schema A: the recompute effect and the breakdown panel *)
Module SchemaA_effect.
Import SchemaA.

Section AnyNumber.
Context {num : Type} `{JSNumber num}.

(** Neither validation nor the statistics read the two output cells, so
    the effect after a click is the handler on the triggered state. *)
Lemma recomputeEffect_handleCalculate (st : state num) :
  recomputeEffect (handleCalculate st)
  = handler (setCalculationTriggered true st).
Proof.
  unfold handleCalculate. destruct (validateInputs st) eqn:V; reflexivity.
Qed.

Lemma handler_triggered (st : state num) :
  handler (setCalculationTriggered true st)
  = setPredictedRange
      (if validateInputs st
       then Some (Stats.range (stats (calculateStats st)))
       else None)
      (setCalculationTriggered true st).
Proof.
  unfold handler.
  change (validateInputs (setCalculationTriggered true st))
    with (validateInputs st).
  destruct (validateInputs st); reflexivity.
Qed.

Lemma recomputeEffect_stored (st : state num) (v : option (fixed num)) :
  recomputeEffect (setPredictedRange v (setCalculationTriggered true st))
  = handler (setCalculationTriggered true st).
Proof. reflexivity. Qed.

End AnyNumber.

(** X4. The "Calculate Range" click and the recompute effect agree: after a
    click, the effect stores the range of the current inputs when they are
    valid (what the click itself stored) and null when they are not (the
    click left a stale value in place); letting the effect run a second time
    changes nothing. *)
Theorem effect_after_click
  {num : Type} `{JSNumber num} (st : state num) :
  calculationTriggered (recomputeEffect (handleCalculate st)) = true
  /\ predictedRange (recomputeEffect (handleCalculate st))
     = (if validateInputs st
        then Some (Stats.range (stats (calculateStats st)))
        else None)
  /\ (validateInputs st = true ->
      recomputeEffect (handleCalculate st) = handleCalculate st)
  /\ recomputeEffect (recomputeEffect (handleCalculate st))
     = recomputeEffect (handleCalculate st).
Proof.
  rewrite recomputeEffect_handleCalculate, handler_triggered.
  rewrite recomputeEffect_stored, handler_triggered.
  repeat split.
  intros V. unfold handleCalculate. rewrite V. reflexivity.
Qed.

(** A stale 290.9 with an empty state of charge: the click keeps it, the
    effect clears it. *)
Lemma effect_after_click_witness :
  let st :=
    setPredictedRange (Some (Digits false 2909 1))
      (SchemaA_inputs.form Empty (Text 60) (Text 16) false)%float in
  predictedRange (handleCalculate st) = Some (Digits false 2909 1)
  /\ predictedRange (recomputeEffect (handleCalculate st)) = None.
Proof.
  intros st. split; [reflexivity |].
  rewrite (proj1 (proj2 (effect_after_click st))). reflexivity.
Defined.

(** X5. The breakdown panel and the core metrics: in advanced mode the
    "Driving" entry of the consumption breakdown is the same string as the
    "Energy Consumption" metric.  In simple mode they can differ, because the
    breakdown reads the drivingConsumption and terrainFactor fields while the
    metric uses the capacity-derived defaults: for capacity 90 and
    consumption 16 the metric is 18.90 and the breakdown 16.00. *)
Theorem breakdown_driving_versus_metric :
  (forall (num : Type) (N : JSNumber num) (st : state num),
      showAdvanced st = true ->
      driving (consumptionBreakdown (calculateStats st))
      = Stats.energyConsumption (stats (calculateStats st)))
  /\ (let st := (SchemaA_inputs.form (Text 80) (Text 90) (Text 16) false)%float in
      validateInputs st = true
      /\ Stats.energyConsumption (stats (calculateStats st)) = Digits false 1890 2
      /\ driving (consumptionBreakdown (calculateStats st)) = Digits false 1600 2).
Proof.
  split.
  - intros num N st Ha.
    cbn [driving consumptionBreakdown calculateStats stats].
    unfold rangeAt. rewrite Ha. reflexivity.
  - repeat split; reflexivity.
Qed.

(** Advanced mode, consumption 20 and terrain factor 1.2: both read 24.00. *)
Lemma breakdown_driving_versus_metric_witness :
  let st :=
    (mkState (Text 80) (Text 60) (Text 20) true (Text 25) (Text 0.98)
       (Text 0.98) (Text 100) (Text 2) (Text 1.2) false (Text 0.85) true
       (Text 1.05) None true)%float in
  driving (consumptionBreakdown (calculateStats st)) = Digits false 2400 2
  /\ Stats.energyConsumption (stats (calculateStats st)) = Digits false 2400 2.
Proof.
  intros st. split; [reflexivity |].
  rewrite <- (proj1 breakdown_driving_versus_metric float _ st eq_refl).
  reflexivity.
Defined.

End SchemaA_effect.

(** ** Schema A in binary64: the factors and the range inside the ranges of
    the form *)
Module SchemaA_ranges.
Import SchemaA Binary64Bounds SchemaA_bounds.
Local Open Scope float_scope.

Lemma field_accepted (lo hi : float) (val : field float) :
  SchemaA_sensitivity.within lo hi val ->
  negb (isEmptyString val) && negb (isNaN (Number val)) = true.
Proof.
  destruct val as [| n]; [contradiction |]. intros [L _].
  cbn [isEmptyString Number negb andb]. js_float.
  rewrite (leb_not_nan lo n L). reflexivity.
Qed.

(** X6. In binary64 the temperature factor lies between 0.7 and 1 for every
    temperature that is a number, whatever the rounding of the product and of
    the difference. *)
Theorem tempFactor_inside_bounds (temperature : float) :
  is_nan temperature = false ->
  (0.7 <=? tempFactor temperature) = true
  /\ (tempFactor temperature <=? 1) = true.
Proof.
  intros Ht. destruct (tempFactor_bounds temperature Ht) as [P [L U]].
  pose proof (finite_nonneg _ (posfinite_finite _ P)) as Nt.
  rewrite !leb_units by (exact Nt || reflexivity).
  split; apply Z.leb_le; assumption.
Qed.

(** At the cold end of the form's range the factor is 0.775. *)
Lemma tempFactor_inside_bounds_witness :
  tempFactor (-20) = 0.775
  /\ (0.7 <=? tempFactor (-20)) = true /\ (tempFactor (-20) <=? 1) = true.
Proof.
  split; [reflexivity |].
  exact (tempFactor_inside_bounds (-20) eq_refl).
Defined.

(** X8. In binary64, for fields inside the ranges that the form enforces,
    [validateInputs] succeeds and the handler stores a digit string without
    sign between 0.0 and 6000.0 km, in simple and in advanced mode: no input
    of the form makes the page show NaN or a negative range. *)
Theorem predicted_range_inside_form_range (st : state float) :
  SchemaA_sensitivity.declaredDomain st ->
  validateInputs st = true
  /\ exists n : Z,
      predictedRange (handler st) = Some (Digits false n 1)
      /\ (0 <= n <= 60000)%Z.
Proof.
  intros Hd.
  assert (V : validateInputs st = true).
  { destruct Hd as (Hsoc & Hcap & Hdc & Hadv).
    unfold validateInputs, requiredFields.
    destruct (showAdvanced st).
    - destruct (Hadv eq_refl) as (Ht & Hbe & Hcd & Hcyc & Hyrs & Htf & Hcf & Hrf).
      cbn [forallb].
      rewrite (field_accepted _ _ _ Hsoc), (field_accepted _ _ _ Hcap),
        (field_accepted _ _ _ Hdc), (field_accepted _ _ _ Ht),
        (field_accepted _ _ _ Hbe), (field_accepted _ _ _ Hcd),
        (field_accepted _ _ _ Hcyc), (field_accepted _ _ _ Hyrs),
        (field_accepted _ _ _ Htf), (field_accepted _ _ _ Hcf),
        (field_accepted _ _ _ Hrf).
      reflexivity.
    - cbn [forallb].
      rewrite (field_accepted _ _ _ Hsoc), (field_accepted _ _ _ Hcap),
        (field_accepted _ _ _ Hdc).
      reflexivity. }
  split; [exact V |].
  unfold handler. rewrite V. cbn [predictedRange setPredictedRange].
  cbn [stats calculateStats].
  destruct (SchemaA_sensitivity.rangeAt_arguments st Hd)
    as (cap & dc & t & be & cd & cyc & yrs & tf & cc & cf & rb & rf & Hin & E).
  rewrite E.
  destruct Hd as (Hsoc & _).
  apply SchemaA_sensitivity.within_between in Hsoc.
  destruct (between_finite 0 100 _ I I Hsoc) as [Fs [_ Us]].
  destruct (range_digits (Number (soc st)) cap dc t be cd cyc yrs tf cc cf rb rf
              Hin Fs Us) as [-> B].
  eexists. split; [reflexivity | exact B].
Qed.

Lemma predicted_range_inside_form_range_witness :
  exists n : Z,
    predictedRange
      (handler
         (mkState (Text 80) (Text 60) (Text 16) true (Text 25) (Text 0.98)
            (Text 0.98) (Text 100) (Text 2) (Text 1) false (Text 0.85) true
            (Text 1.05) None true))
    = Some (Digits false n 1)
    /\ (0 <= n <= 60000)%Z.
Proof.
  refine (proj2 (predicted_range_inside_form_range _ _)).
  vm_compute. tauto.
Defined.

(** X9. In binary64, with the inputs inside the ranges of the form,
    switching climate control on never raises the range that
    [calculateRange] returns (climateFactor <= 1), and switching regenerative
    braking on never lowers it (regenFactor >= 1). *)
Theorem toggles_move_range_one_way
  (s cap dc t be cd cyc yrs tf : float) (cc : bool) (cf : float) (rb : bool) (rf : float) :
  between 0 100 s -> inputsInRange cap dc t be cd cyc yrs tf cf rf ->
  notAbove
    (Stats.range (calculateRange s cap dc t be cd cyc yrs tf true cf rb rf))
    (Stats.range (calculateRange s cap dc t be cd cyc yrs tf false cf rb rf))
  /\ notAbove
       (Stats.range (calculateRange s cap dc t be cd cyc yrs tf cc cf false rf))
       (Stats.range (calculateRange s cap dc t be cd cyc yrs tf cc cf true rf)).
Proof.
  intros Hs Hin.
  destruct (between_finite 0 100 s I I Hs) as [Fs [_ Us]].
  pose proof Hin as (_ & _ & _ & _ & _ & _ & _ & _ & Bcf & Brf).
  destruct (between_finite 0.5 1 cf I I Bcf) as [_ [_ Ucf]].
  destruct (between_finite 1 1.5 rf I I Brf) as [_ [Lrf _]].
  split; apply ranges_in_order; try assumption; try lia.
Qed.

Lemma toggles_move_range_one_way_witness :
  notAbove
    (Stats.range (calculateRange 80 60 16 25 0.98 0.98 100 2 1 true 0.85 true 1.05))
    (Stats.range (calculateRange 80 60 16 25 0.98 0.98 100 2 1 false 0.85 true 1.05)).
Proof.
  refine (proj1 (toggles_move_range_one_way 80 60 16 25 0.98 0.98 100 2 1 false 0.85
                   true 1.05 _ _)); vm_compute; tauto.
Defined.

(** X10. In binary64, with the other arguments of [calculateRange] fixed and
    all inside the ranges of the form, a larger battery capacity never gives
    less range, and a larger driving consumption or terrain factor never gives
    more.  On the page in simple mode the consumption and the terrain factor
    are not fixed but follow the capacity, and there the order fails: at 80%
    charge 75 kWh shows 363.6 km and 76 kWh shows 311.9 km. *)
Theorem range_follows_capacity_and_consumption
  (s cap cap' dc dc' t be cd cyc yrs tf tf' : float)
  (cc : bool) (cf : float) (rb : bool) (rf : float) :
  between 0 100 s ->
  inputsInRange cap dc t be cd cyc yrs tf cf rf ->
  inputsInRange cap' dc' t be cd cyc yrs tf' cf rf ->
  (cap <=? cap') = true -> (dc <=? dc') = true -> (tf <=? tf') = true ->
  notAbove
    (Stats.range (calculateRange s cap dc t be cd cyc yrs tf cc cf rb rf))
    (Stats.range (calculateRange s cap' dc t be cd cyc yrs tf cc cf rb rf))
  /\ notAbove
       (Stats.range (calculateRange s cap dc' t be cd cyc yrs tf cc cf rb rf))
       (Stats.range (calculateRange s cap dc t be cd cyc yrs tf cc cf rb rf))
  /\ notAbove
       (Stats.range (calculateRange s cap dc t be cd cyc yrs tf' cc cf rb rf))
       (Stats.range (calculateRange s cap dc t be cd cyc yrs tf cc cf rb rf))
  /\ Stats.range
       (rangeAt
          (mkState (Text 80) (Text 75) (Text 16) false (Text 25) (Text 0.98)
             (Text 0.98) (Text 100) (Text 2) (Text 1) false (Text 0.85) true
             (Text 1.05) None false) 80)
     = Digits false 3636 1
  /\ Stats.range
       (rangeAt
          (mkState (Text 80) (Text 76) (Text 16) false (Text 25) (Text 0.98)
             (Text 0.98) (Text 100) (Text 2) (Text 1) false (Text 0.85) true
             (Text 1.05) None false) 80)
     = Digits false 3119 1.
Proof.
  intros Hs Hin Hin' Hcap Hdc Htf.
  destruct (between_finite 0 100 s I I Hs) as [Fs [_ Us]].
  pose proof Hin as (Bcap & Bdc & Bt & Bbe & Bcd & Bcyc & Byrs & Btf & Bcf & Brf).
  pose proof Hin' as (Bcap' & Bdc' & _ & _ & _ & _ & _ & Btf' & _ & _).
  destruct (between_finite 10 200 cap I I Bcap) as [Fcap _].
  destruct (between_finite 10 200 cap' I I Bcap') as [Fcap' _].
  destruct (between_finite 5 50 dc I I Bdc) as [Fdc _].
  destruct (between_finite 5 50 dc' I I Bdc') as [Fdc' _].
  destruct (between_finite 1 2 tf I I Btf) as [Ftf _].
  destruct (between_finite 1 2 tf' I I Btf') as [Ftf' _].
  rewrite leb_units in Hcap, Hdc, Htf by (apply finite_nonneg; assumption).
  apply Z.leb_le in Hcap. apply Z.leb_le in Hdc. apply Z.leb_le in Htf.
  split; [| split; [| split; [| split; reflexivity]]].
  - apply ranges_in_order; try assumption; try lia.
    repeat split; try apply Bcap'; try apply Bdc; try apply Bt; try apply Bbe;
      try apply Bcd; try apply Btf; try apply Bcf; try apply Brf; assumption.
  - apply ranges_in_order; try assumption; try lia.
    repeat split; try apply Bcap; try apply Bdc'; try apply Bt; try apply Bbe;
      try apply Bcd; try apply Btf; try apply Bcf; try apply Brf; assumption.
  - apply ranges_in_order; try assumption; try lia.
    repeat split; try apply Bcap; try apply Bdc; try apply Bt; try apply Bbe;
      try apply Bcd; try apply Btf'; try apply Bcf; try apply Brf; assumption.
Qed.

Lemma range_follows_capacity_and_consumption_witness :
  notAbove
    (Stats.range (calculateRange 80 60 16 25 0.98 0.98 100 2 1 false 0.85 true 1.05))
    (Stats.range (calculateRange 80 75 16 25 0.98 0.98 100 2 1 false 0.85 true 1.05)).
Proof.
  refine (proj1 (range_follows_capacity_and_consumption
                   80 60 75 16 18 25 0.98 0.98 100 2 1 1.05 false 0.85 true 1.05
                   _ _ _ _ _ _)); vm_compute; tauto.
Defined.

End SchemaA_ranges.



(** ** Schema B: what the inputs deliver *)
Module SchemaB_inputs.
Import SchemaB DisplayB Binary64Facts.
Local Open Scope float_scope.

(** X11. [handleChange] of the second component never delivers NaN: it
    delivers every parsed number exactly as parsed (the [min] and [max] of
    the input do not clamp it), delivers 0 for the empty string, and makes
    no call at all for any other text. *)
Theorem handleChange_never_delivers_NaN :
  (forall (value : targetValue) (v : float),
      handleChange value = Some v -> is_nan v = false)
  /\ (forall parsed : float,
        is_nan parsed = false -> handleChange (SomeText parsed) = Some parsed)
  /\ handleChange EmptyText = Some 0
  /\ (forall parsed : float,
        is_nan parsed = true -> handleChange (SomeText parsed) = None).
Proof.
  split; [| split; [| split]].
  - intros value v. unfold handleChange.
    destruct value as [| parsed]; cbn [parseFloat].
    + change (negb (is_nan nan)) with false. cbv iota.
      intros E. injection E as <-. reflexivity.
    + destruct (is_nan parsed) eqn:Hn; cbn [negb]; [discriminate |].
      intros E. injection E as <-. exact Hn.
  - intros parsed Hn. unfold handleChange. cbn [parseFloat]. now rewrite Hn.
  - reflexivity.
  - intros parsed Hn. unfold handleChange. cbn [parseFloat]. now rewrite Hn.
Qed.

(** 250 typed into the current-charge input (max 100) is delivered as 250. *)
Lemma handleChange_never_delivers_NaN_witness :
  handleChange (SomeText 250) = Some 250.
Proof.
  apply (proj1 (proj2 handleChange_never_delivers_NaN) 250). reflexivity.
Defined.

(** X12. Emptying the current-charge input sets the charge to 0, and the
    effect that follows stores a NaN efficiency for every positive finite
    battery capacity; emptying the battery-capacity input sets the capacity
    to 0 and the effect stores efficiency 0. *)
Theorem emptied_input_and_efficiency :
  (forall st : state float,
      (0 <? batteryCapacity st) = true ->
      (batteryCapacity st <? infinity) = true ->
      let st' := applyChange setCurrentCharge (handleChange EmptyText) st in
      currentCharge st' = 0 /\ is_nan (efficiency st') = true)
  /\ (forall st : state float,
        let st' := applyChange setBatteryCapacity (handleChange EmptyText) st in
        batteryCapacity st' = 0 /\ efficiency st' = 0).
Proof.
  split.
  - intros st Hpos Hfin st'. subst st'.
    change (handleChange EmptyText) with (Some 0). cbn [applyChange].
    split; [reflexivity |].
    cbn [efficiency rangeEffect]. unfold newEfficiency. js_float.
    cbn [batteryCapacity setCurrentCharge].
    rewrite (toBoolean_positive _ Hpos).
    destruct (positive_finite_spec _ Hpos Hfin) as (m & e & Hcap).
    pose proof (zero_div_100 0 eq_refl) as Hq.
    apply zero_or_nan_div_zero.
    + unfold newEstimatedRange. js_float.
      cbn [epaRange currentCharge temperature avgSpeed climateUsage terrainType
           setCurrentCharge].
      change (Binary64.literal 100) with 100.
      do 4 apply mul_zero_or_nan_l. apply mul_zero_or_nan_r.
      right. exact Hq.
    + unfold usableEnergy. js_float. cbn [batteryCapacity currentCharge setCurrentCharge].
      change (Binary64.literal 100) with 100.
      eapply finite_mul_zero; eauto.
  - intros st st'. subst st'. split; reflexivity.
Qed.

(** The initial state of the component with the charge input emptied. *)
Lemma emptied_input_and_efficiency_witness :
  is_nan
    (efficiency
       (applyChange setCurrentCharge (handleChange EmptyText)
          (initial (num := float))))
  = true.
Proof.
  apply (proj1 emptied_input_and_efficiency (initial (num := float)));
    reflexivity.
Defined.

End SchemaB_inputs.

(** ** Schema B over the reals: the estimate as a product *)
Module SchemaB_signs.
Import SchemaB DisplayB.
Local Open Scope R_scope.

Lemma temperatureFactor_real (t : R) :
  temperatureFactor t = 1 - Rabs (t - 70) * 0.015.
Proof.
  unfold temperatureFactor. js_real. real_literals.
  replace (t - 70 * / 1) with (t - 70) by lra. lra.
Qed.

Lemma speedFactor_real (v : R) :
  speedFactor v = 1 - Rmax 0 (v - 25) * Rmax 0 (v - 25) * 0.0008.
Proof.
  unfold speedFactor, pow2. js_real. real_literals.
  replace (0 * / 1) with 0 by lra.
  replace (v - 25 * / 1) with (v - 25) by lra. lra.
Qed.

(** The estimate as the product of a positive part and the two factors
    that can change sign. *)
Lemma estimate_factors (st : state R) :
  estimatedRange (rangeEffect st)
  = (epaRange st * (currentCharge st / 100)
     * climateFactor (climateUsage st) * terrainFactor (terrainType st))
    * (temperatureFactor (temperature st) * speedFactor (avgSpeed st)).
Proof.
  cbn [estimatedRange rangeEffect]. unfold newEstimatedRange. js_real.
  replace (Q2R 100) with 100 by (real_literals; lra). ring.
Qed.

End SchemaB_signs.

(** ** Schema B: the rows of the sensitivity panel *)
Module SchemaB_scenarios.
Import SchemaB DisplayB.

(** X16. The perturbed factor of the "10 F colder" and "+10 mph faster"
    rows is floored at 0.4 in binary64: it is never below 0.4, and it is 0.4
    or more unless it is NaN, whereas the factors of the headline estimate
    have no floor (at -20 F the headline temperature factor is negative and
    the colder-row factor is 0.4). *)
Theorem scenario_factors_floored :
  (forall st : state float,
      (colderFactor st <? 0.4)%float = false
      /\ (is_nan (colderFactor st) = true
          \/ (0.4 <=? colderFactor st)%float = true))
  /\ (forall st : state float,
        (fasterFactor st <? 0.4)%float = false
        /\ (is_nan (fasterFactor st) = true
            \/ (0.4 <=? fasterFactor st)%float = true))
  /\ (let st := rangeEffect
                  (SchemaB_efficiency.inputs 75 330 80 (-20) 25 Medium Flat)%float in
      (Factors.temperature (factors st) <? 0)%float = true
      /\ colderFactor st = 0.4%float).
Proof.
  split; [| split].
  - intros st. unfold colderFactor. js_float.
    change (Binary64.literal 0.4) with 0.4%float.
    apply Binary64Facts.max_lower_bound; reflexivity.
  - intros st. unfold fasterFactor. js_float.
    change (Binary64.literal 0.4) with 0.4%float.
    apply Binary64Facts.max_lower_bound; reflexivity.
  - split; reflexivity.
Qed.

Local Open Scope R_scope.

(** X19. The first render: with the initial values of the component (75
    kWh, EPA range 330, charge 80, 70 F, 65 mph, Medium, Flat) the effect
    stores a negative estimate, and the panel shows -63 miles, -1 mi/kWh and
    -19% of the EPA rating, while the "+10 mph faster" row shows 90 miles;
    over the reals the estimate is -62.832 as well. *)
Theorem first_render_is_negative :
  (let st := rangeEffect (initial (num := float)) in
   (estimatedRange st <? 0)%float = true
   /\ shownRange st = (-63)%float
   /\ shownEfficiency st = (-1)%float
   /\ shownVersusEPA st = (-19)%float
   /\ fasterMiles st = 90%float)
  /\ estimatedRange (rangeEffect (initial (num := R))) = -62.832.
Proof.
  split; [repeat split; reflexivity |].
  rewrite SchemaB_signs.estimate_factors.
  cbn [epaRange currentCharge temperature avgSpeed climateUsage terrainType
       initial].
  rewrite SchemaB_signs.temperatureFactor_real, SchemaB_signs.speedFactor_real.
  unfold climateFactor, terrainFactor. js_real. real_literals.
  replace (70 * / 1 - 70) with 0 by lra. rewrite Rabs_R0.
  rewrite Rmax_right by lra. lra.
Qed.

(** X20. The impact panel, for every option of the two selects, in
    binary64: climate use Low, Medium, High shows 5, 15, 25 percent and
    terrain Flat, Hilly, Mountain shows 0, 10, 20 percent; the colour tests
    are strict, so Low (factor 0.95) is Green and Hilly (factor 0.9, shown as
    10% reduction) is Yellow, not Destructive. *)
Theorem impact_panel_by_option :
  (forall c : ClimateUsage,
      (reductionPercent (climateFactor (num := float) c),
       severityOf (climateFactor (num := float) c))
      = match c with
        | Low => (5%float, Green)
        | Medium => (15%float, Destructive)
        | High => (25%float, Destructive)
        end)
  /\ (forall t : TerrainType,
        (reductionPercent (terrainFactor (num := float) t),
         severityOf (terrainFactor (num := float) t))
        = match t with
          | Flat => (0%float, Green)
          | Hilly => (10%float, Yellow)
          | Mountain => (20%float, Destructive)
          end).
Proof.
  split; intros []; reflexivity.
Qed.

End SchemaB_scenarios.
